(** * QuizMaster Live: the game session engine of [server.js]

    A shallow embedding of the Socket.IO handlers of the quiz server and of
    the helpers they call, followed by the properties of the session engine.

    Conventions of the embedding.
    - A JavaScript number is a [number]: NaN, the two infinities, or a finite
      value carried as an exact rational.  Binary64 rounding and the sign of
      zero are not represented.
    - A JavaScript string is a [string]; a character stands for one code unit
      below 256.
    - A JavaScript [Map] is an association list in insertion order.
    - Game objects live in a store ([heap]); the registry [games] and the
      pending timeouts hold references into it, as the closures of the source
      do.
    - A handler that throws (a property read on [undefined] or [null], or a
      conversion of an object that has a [toString] property of its own)
      yields [None]: nothing catches it in the source. *)

From Stdlib Require Import ZArith QArith Qminmax Qround Qabs Lqa Lia.
From Stdlib Require Import List String Ascii Bool Permutation Sorted.
From Stdlib Require Import DecimalString DecimalNat.
From stdpp Require Import base option list strings.

Set Default Proof Using "Type".

(* ===================================================================== *)
(** ** Numbers *)
(* ===================================================================== *)

Module JsNum.

Inductive number : Type :=
| NaN
| PInf
| NInf
| Fin (q : Q).

Definition of_Z (z : Z) : number := Fin (inject_Z z).
Definition of_nat (n : nat) : number := of_Z (Z.of_nat n).

(** ToBoolean: NaN and zero are falsy. *)
Definition truthy (n : number) : bool :=
  match n with
  | NaN => false
  | Fin q => negb (Qeq_bool q 0)
  | _ => true
  end.

(** [n || d] with a numeric default. *)
Definition or (n : number) (d : number) : number :=
  if truthy n then n else d.

(** [a < b]; any comparison with NaN is false. *)
Definition ltb (a b : number) : bool :=
  match a, b with
  | NaN, _ | _, NaN => false
  | PInf, _ => false
  | _, NInf => false
  | NInf, _ => true
  | _, PInf => true
  | Fin x, Fin y => negb (Qle_bool y x)
  end.

Definition gtb (a b : number) : bool := ltb b a.

(** [a >= b]. *)
Definition geb (a b : number) : bool :=
  match a, b with
  | NaN, _ | _, NaN => false
  | _, _ => negb (ltb a b)
  end.

(** Strict equality [===] of two numbers. *)
Definition eqb (a b : number) : bool :=
  match a, b with
  | PInf, PInf | NInf, NInf => true
  | Fin x, Fin y => Qeq_bool x y
  | _, _ => false
  end.

Definition Math_max (a b : number) : number :=
  match a, b with
  | NaN, _ | _, NaN => NaN
  | _, _ => if ltb a b then b else a
  end.

Definition Math_min (a b : number) : number :=
  match a, b with
  | NaN, _ | _, NaN => NaN
  | _, _ => if ltb b a then b else a
  end.

Definition neg (a : number) : number :=
  match a with
  | NaN => NaN
  | PInf => NInf
  | NInf => PInf
  | Fin q => Fin (- q)
  end.

Definition add (a b : number) : number :=
  match a, b with
  | NaN, _ | _, NaN => NaN
  | PInf, NInf | NInf, PInf => NaN
  | PInf, _ | _, PInf => PInf
  | NInf, _ | _, NInf => NInf
  | Fin x, Fin y => Fin (x + y)
  end.

Definition sub (a b : number) : number := add a (neg b).

(** Sign of a finite value: [Lt], [Eq] or [Gt] against zero. *)
Definition sign (q : Q) : comparison := (q ?= 0)%Q.

Definition mul (a b : number) : number :=
  match a, b with
  | NaN, _ | _, NaN => NaN
  | Fin x, Fin y => Fin (x * y)
  | Fin x, i | i, Fin x =>
      match sign x with
      | Eq => NaN
      | Gt => i
      | Lt => neg i
      end
  | PInf, PInf | NInf, NInf => PInf
  | PInf, NInf | NInf, PInf => NInf
  end.

Definition div (a b : number) : number :=
  match a, b with
  | NaN, _ | _, NaN => NaN
  | Fin x, Fin y =>
      match sign y with
      | Eq => match sign x with Eq => NaN | Gt => PInf | Lt => NInf end
      | _ => Fin (x / y)
      end
  | Fin _, _ => Fin 0
  | i, Fin y => match sign y with Lt => neg i | _ => i end
  | _, _ => NaN
  end.

(** [Math.round]: the nearest integer, halves going up. *)
Definition Math_round (a : number) : number :=
  match a with
  | Fin q => of_Z (Qfloor (q + (1 # 2)))
  | _ => a
  end.

(** The array index a number denotes as a property key, when it is one. *)
Definition array_index (a : number) : option nat :=
  match a with
  | Fin q =>
      if Qeq_bool q (inject_Z (Qfloor q)) && Qle_bool 0 q
      then Some (Z.to_nat (Qfloor q))
      else None
  | _ => None
  end.

(** [n] is the finite value [q]. *)
Definition is_fin (n : number) (q : Q) : Prop :=
  exists q', n = Fin q' /\ (q' == q)%Q.

Definition finite (n : number) : Prop := exists q, n = Fin q.

End JsNum.

Export JsNum.

(* ===================================================================== *)
(** ** Strings *)
(* ===================================================================== *)

Module JsStr.

Open Scope string_scope.

(** White space of [trim] and of the [\s] class, among code units below 256:
    tab, line feed, vertical tab, form feed, carriage return, space and the
    no-break space. *)
Definition is_space (c : ascii) : bool :=
  let n := nat_of_ascii c in
  (n =? 32)%nat || ((9 <=? n)%nat && (n <=? 13)%nat) || (n =? 160)%nat.

Fixpoint trimStart (s : string) : string :=
  match s with
  | EmptyString => EmptyString
  | String c s' => if is_space c then trimStart s' else s
  end.

Fixpoint trimEnd (s : string) : string :=
  match s with
  | EmptyString => EmptyString
  | String c s' =>
      match trimEnd s' with
      | EmptyString => if is_space c then EmptyString else String c EmptyString
      | t => String c t
      end
  end.

Definition trim (s : string) : string := trimEnd (trimStart s).

(** [s.slice(0, n)]. *)
Definition slice0 (n : nat) (s : string) : string := substring 0 n s.

(** [s.replace(/\s+/g, ' ')]: every maximal run of white space becomes one
    space.  [inrun] tells that the previous character was white space. *)
Fixpoint collapse (inrun : bool) (s : string) : string :=
  match s with
  | EmptyString => EmptyString
  | String c s' =>
      if is_space c
      then (if inrun then collapse true s' else String " " (collapse true s'))
      else String c (collapse false s')
  end.

Definition replace_spaces (s : string) : string := collapse false s.

Definition lower_char (c : ascii) : ascii :=
  let n := nat_of_ascii c in
  if ((65 <=? n)%nat && (n <=? 90)%nat)
     || ((192 <=? n)%nat && (n <=? 222)%nat && negb (n =? 215)%nat)
  then ascii_of_nat (n + 32)
  else c.

Fixpoint toLowerCase (s : string) : string :=
  match s with
  | EmptyString => EmptyString
  | String c s' => String (lower_char c) (toLowerCase s')
  end.

(** Decimal numeral of a natural number, as a template literal prints it. *)
Definition decimal (n : nat) : string := NilEmpty.string_of_uint (Nat.to_uint n).

(** [l.join(sep)] on strings. *)
Fixpoint join (sep : string) (l : list string) : string :=
  match l with
  | [] => ""
  | [x] => x
  | x :: l' => x ++ sep ++ join sep l'
  end.

End JsStr.

Export JsStr.

(* ===================================================================== *)
(** ** Maps in insertion order *)
(* ===================================================================== *)

Module JsMap.

Section Ops.
Context {V : Type}.

Definition t := list (string * V).

Fixpoint get (k : string) (m : list (string * V)) : option V :=
  match m with
  | [] => None
  | (k', v) :: m' => if String.eqb k k' then Some v else get k m'
  end.

Definition has (k : string) (m : list (string * V)) : bool :=
  match get k m with Some _ => true | None => false end.

(** [m.set(k, v)]: an existing key keeps its place, a new one goes last. *)
Fixpoint set (k : string) (v : V) (m : list (string * V)) : list (string * V) :=
  match m with
  | [] => [(k, v)]
  | (k', v') :: m' =>
      if String.eqb k k' then (k', v) :: m' else (k', v') :: set k v m'
  end.

Fixpoint delete (k : string) (m : list (string * V)) : list (string * V) :=
  match m with
  | [] => []
  | (k', v') :: m' =>
      if String.eqb k k' then m' else (k', v') :: delete k m'
  end.

Definition keys (m : list (string * V)) : list string := List.map fst m.
Definition values (m : list (string * V)) : list V := List.map snd m.
Definition size (m : list (string * V)) : nat := List.length m.

End Ops.

End JsMap.

(* ===================================================================== *)
(** ** Values carried by inbound payloads *)
(* ===================================================================== *)

#[warnings="-register-all"]
Inductive jsval : Type :=
| VUndefined
| VNull
| VBool (b : bool)
| VNum (n : number)
| VStr (s : string)
| VArr (l : list jsval)
| VObj (fields : list (string * jsval)).

(** The two conversions of the host runtime between numerals and numbers.
    The engine is stated for any runtime. *)
Class Builtins : Type := {
  StringToNumber : string -> number;
  NumberToString : number -> string
}.

Section Values.
Context `{Builtins}.

Open Scope string_scope.

(** ToBoolean. *)
Definition js_truthy (v : jsval) : bool :=
  match v with
  | VUndefined | VNull => false
  | VBool b => b
  | VNum n => JsNum.truthy n
  | VStr s => negb (String.eqb s "")
  | VArr _ | VObj _ => true
  end.

(** [a || b]. *)
Definition js_or (a b : jsval) : jsval := if js_truthy a then a else b.

(** [String(v)]; [None] is the TypeError that an object with a property
    [toString] of its own raises: a payload holds no function, so that
    property is not callable, and neither is a [valueOf] of its own, while
    the inherited [valueOf] returns the object itself.  Without it the
    inherited [toString] answers.  An array prints its elements joined by
    commas, [undefined] and [null] as the empty string. *)
Fixpoint ToString (v : jsval) : option string :=
  match v with
  | VUndefined => Some "undefined"
  | VNull => Some "null"
  | VBool true => Some "true"
  | VBool false => Some "false"
  | VNum n => Some (NumberToString n)
  | VStr s => Some s
  | VArr l =>
      join "," <$> mapM (fun x => match x with
                                  | VUndefined | VNull => Some ""
                                  | _ => ToString x
                                  end) l
  | VObj fields =>
      if JsMap.has "toString" fields then None else Some "[object Object]"
  end.

(** [Number(v)]; an array or an object is first made a string, by the
    inherited [valueOf] and then [toString], with the same TypeError. *)
Definition Number (v : jsval) : option number :=
  match v with
  | VUndefined => Some NaN
  | VNull => Some (Fin 0)
  | VBool true => Some (Fin 1)
  | VBool false => Some (Fin 0)
  | VNum n => Some n
  | VStr s => Some (StringToNumber s)
  | VArr _ | VObj _ => StringToNumber <$> ToString v
  end.

(** [v.k], or the binding of [k] when destructuring [v]: a TypeError on
    [undefined] and [null]; [undefined] when the property is missing.  None
    of the names the handlers read is a property of a primitive or of an
    array. *)
Definition get_prop (v : jsval) (k : string) : option jsval :=
  match v with
  | VUndefined | VNull => None
  | VObj fields => Some (default VUndefined (JsMap.get k fields))
  | _ => Some VUndefined
  end.

End Values.

(** A runtime for the closed examples below: numerals are the plain decimal
    numerals of natural numbers.  The examples pass numbers where the source
    converts to a number, so their results do not depend on this choice. *)
Definition decimal_StringToNumber (s : string) : number :=
  match NilEmpty.uint_of_string s with
  | Some d => JsNum.of_nat (Nat.of_uint d)
  | None => NaN
  end.

Definition decimal_NumberToString (n : number) : string :=
  match n with
  | NaN => "NaN"
  | PInf => "Infinity"
  | NInf => "-Infinity"
  | Fin q => JsStr.decimal (Z.to_nat (Qfloor q))
  end.

#[export] Instance decimal_builtins : Builtins :=
  {| StringToNumber := decimal_StringToNumber;
     NumberToString := decimal_NumberToString |}.

(* ===================================================================== *)
(** ** The data model of [server.js] *)
(* ===================================================================== *)

Module Question.
Record t : Type := mk {
  prompt : string;
  options : list string;
  correctIndex : number;
  timeLimitSec : number
}.
End Question.

Module Player.
Record t : Type := mk {
  id : string;
  name : string;
  score : number;
  answered : bool;
  answerIndex : option number;   (* [null] or a number *)
  answerTime : option Z          (* [null] or a reading of [Date.now()] *)
}.

Definition add_score (d : number) (p : t) : t :=
  mk (id p) (name p) (JsNum.add (score p) d) (answered p) (answerIndex p) (answerTime p).

Definition clear_answer (p : t) : t :=
  mk (id p) (name p) (score p) false None None.

Definition lock_answer (idx : number) (now : Z) (p : t) : t :=
  mk (id p) (name p) (score p) true (Some idx) (Some now).
End Player.

Inductive game_state : Type := lobby | question | reveal | ended.

#[export] Instance game_state_eq_dec : EqDecision game_state.
Proof. solve_decision. Defined.

Module Game.
Record t : Type := mk {
  code : string;
  hostId : string;
  players : list (string * Player.t);      (* Map<socketId, player> *)
  questions : list Question.t;
  state : game_state;
  currentIndex : nat;
  questionStart : option Z;
  answersSubmitted : nat
}.

Definition set_players (ps : list (string * Player.t)) (g : t) : t :=
  mk (code g) (hostId g) ps (questions g) (state g) (currentIndex g)
     (questionStart g) (answersSubmitted g).

Definition set_questions (qs : list Question.t) (g : t) : t :=
  mk (code g) (hostId g) (players g) qs (state g) (currentIndex g)
     (questionStart g) (answersSubmitted g).

Definition set_state (st : game_state) (g : t) : t :=
  mk (code g) (hostId g) (players g) (questions g) st (currentIndex g)
     (questionStart g) (answersSubmitted g).

Definition set_currentIndex (i : nat) (g : t) : t :=
  mk (code g) (hostId g) (players g) (questions g) (state g) i
     (questionStart g) (answersSubmitted g).

Definition set_questionStart (t0 : option Z) (g : t) : t :=
  mk (code g) (hostId g) (players g) (questions g) (state g) (currentIndex g)
     t0 (answersSubmitted g).

Definition set_answersSubmitted (n : nat) (g : t) : t :=
  mk (code g) (hostId g) (players g) (questions g) (state g) (currentIndex g)
     (questionStart g) n.
End Game.

(** An element of [currentPlayersArray]; [rankPlayers] adds [rank]. *)
Module Entry.
Record t : Type := mk {
  id : string;
  name : string;
  score : number;
  rank : option nat
}.

Definition set_rank (r : nat) (e : t) : t := mk (id e) (name e) (score e) (Some r).
End Entry.

(** The [counts] array of [revealAnswer]: its four slots, and the keys of the
    properties written outside them.  [counts[k]++] on a key that is not one
    of the slots reads [undefined] and stores NaN under that key. *)
Module Counts.
Record t : Type := mk {
  slots : list nat;
  stray : list number
}.

Definition init : t := mk [0; 0; 0; 0] [].

Definition incr (k : number) (c : t) : t :=
  match JsNum.array_index k with
  | Some i =>
      match slots c !! i with
      | Some n => mk (<[i := S n]> (slots c)) (stray c)
      | None => mk (slots c) (stray c ++ [k])%list
      end
  | None => mk (slots c) (stray c ++ [k])%list
  end.
End Counts.

(** *** Outbound events *)

Record lobby_payload : Type := {
  lp_players : list Entry.t;
  lp_count : nat;
  lp_code : string
}.

Record question_payload : Type := {
  qp_index : nat;
  qp_total : nat;
  qp_prompt : string;
  qp_options : list string;
  qp_timeLimitSec : number;
  qp_code : string
}.

Record reveal_payload : Type := {
  rv_index : nat;
  rv_total : nat;
  rv_correctIndex : number;
  rv_counts : Counts.t;
  rv_leaderboard : list Entry.t
}.

Record reveal_me_payload : Type := {
  rm_correct : bool;
  rm_yourScore : number;
  rm_yourRank : option nat;
  rm_gained : string
}.

Inductive event : Type :=
| host_error (message : string)
| host_gameCreated (code : string)
| lobby_update (p : lobby_payload)
| host_lobby_update (p : lobby_payload)
| question_show (p : question_payload)
| host_question_show (p : question_payload)
| question_reveal (p : reveal_payload)
| question_reveal_me (p : reveal_me_payload)
| host_question_reveal (p : reveal_payload)
| game_over (leaderboard : list Entry.t)
| host_game_over (leaderboard : list Entry.t)
| player_error (message : string)
| player_joined (code : string) (name : string)
| host_answerProgress (answered total : nat)
| player_answerLocked (index : number)
| game_hostDisconnected.

(** What a handler does to the outside: [io.to(room).emit], [socket.emit]
    and [socket.join]. *)
Inductive output : Type :=
| io_to (room : string) (e : event)
| socket_emit (sid : string) (e : event)
| socket_join (sid : string) (room : string).

(** A pending [setTimeout] of [startQuestion]: the game object and the index
    its closure captured, and the delay in milliseconds. *)
Record timer : Type := {
  tm_game : nat;
  tm_idx : nat;
  tm_delay : number
}.

(** The process state: the [games] map (PIN to game object), the game objects
    themselves, and the timeouts not yet fired. *)
Record server : Type := {
  games : list (string * nat);
  heap : list Game.t;
  timers : list timer
}.

Definition init_server : server := {| games := []; heap := []; timers := [] |}.

(** A connected socket: its id and [socket.data.isHost]. *)
Record socket : Type := {
  sock_id : string;
  isHost : bool
}.

(* ===================================================================== *)
(** ** The helpers of [server.js] *)
(* ===================================================================== *)

Section Engine.
Context `{Builtins}.

Open Scope string_scope.

Definition sanitizeName (name : jsval) : string :=
  match name with
  | VStr s =>
      if String.eqb s "" then "Player"
      else
        let name := slice0 24 (trim s) in
        if String.eqb name "" then "Player" else replace_spaces name
  | _ => "Player"
  end.

(** The candidate tried at step [i] of the loop of [ensureUniqueName]. *)
Definition suffixed (base : string) (i : nat) : string :=
  base ++ " #" ++ decimal i.

(** The [while] loop of [ensureUniqueName], run for at most [fuel] tests. *)
Fixpoint unique_loop (names : list string) (base candidate : string)
    (i fuel : nat) : string :=
  match fuel with
  | O => candidate
  | S fuel' =>
      if bool_decide (toLowerCase candidate ∈ names)
      then unique_loop names base (suffixed base i) (S i) fuel'
      else candidate
  end.

Definition lower_names (g : Game.t) : list string :=
  List.map (fun p => toLowerCase (Player.name p)) (JsMap.values (Game.players g)).

Definition ensureUniqueName (g : Game.t) (desired : jsval) : string :=
  let names := lower_names g in
  let base := sanitizeName desired in
  unique_loop names base base 2 (S (List.length names)).

Definition currentPlayersArray (g : Game.t) : list Entry.t :=
  List.map (fun p => Entry.mk (Player.id p) (Player.name p) (Player.score p) None)
           (JsMap.values (Game.players g)).

(** [Array.prototype.sort] with a comparator: a stable sort, here by
    insertion.  [b] goes before [a] when [cmp a b > 0]. *)
Fixpoint sort_insert {A : Type} (cmp : A -> A -> number) (x : A) (l : list A)
    : list A :=
  match l with
  | [] => [x]
  | y :: l' =>
      if JsNum.gtb (cmp x y) (Fin 0) then y :: sort_insert cmp x l' else x :: l
  end.

Definition js_sort {A : Type} (cmp : A -> A -> number) (l : list A) : list A :=
  List.fold_right (sort_insert cmp) [] l.

(** [arr.forEach((p, idx) => p.rank = idx + 1)], counting from [idx]. *)
Fixpoint assign_ranks (idx : nat) (l : list Entry.t) : list Entry.t :=
  match l with
  | [] => []
  | e :: l' => Entry.set_rank (idx + 1) e :: assign_ranks (S idx) l'
  end.

Definition by_score_desc (a b : Entry.t) : number :=
  JsNum.sub (Entry.score b) (Entry.score a).

Definition rankPlayers (g : Game.t) : list Entry.t :=
  assign_ranks 0 (js_sort by_score_desc (currentPlayersArray g)).

Definition buildLeaderboard (g : Game.t) (topN : nat) : list Entry.t :=
  firstn topN (rankPlayers g).

Definition lobby_view (g : Game.t) : lobby_payload :=
  {| lp_players := currentPlayersArray g;
     lp_count := JsMap.size (Game.players g);
     lp_code := Game.code g |}.

Definition broadcastLobby (g : Game.t) : list output :=
  io_to (Game.code g) (lobby_update (lobby_view g))
  :: (if String.eqb (Game.hostId g) "" then []
      else [io_to (Game.hostId g) (host_lobby_update (lobby_view g))]).

(** A time stamp in arithmetic: [null] counts as 0. *)
Definition time_num (t0 : option Z) : number := JsNum.of_Z (default 0%Z t0).

(** [startQuestion(game)] on the game object [r], with [now] the reading of
    [nowMs()].  Gives the game, the events and the timeout it arms; throws
    when there is no question at [currentIndex]. *)
Definition startQuestion (r : nat) (g : Game.t) (now : Z)
    : option (Game.t * list output * timer) :=
  let idx := Game.currentIndex g in
  q ← Game.questions g !! idx;
  let g1 := Game.set_state question g in
  let g2 := Game.set_questionStart (Some now) g1 in
  let g3 := Game.set_answersSubmitted 0 g2 in
  let g4 := Game.set_players
              (List.map (fun kp => (fst kp, Player.clear_answer (snd kp)))
                        (Game.players g3)) g3 in
  let payload :=
    {| qp_index := idx + 1;
       qp_total := List.length (Game.questions g4);
       qp_prompt := Question.prompt q;
       qp_options := Question.options q;
       qp_timeLimitSec := Question.timeLimitSec q;
       qp_code := Game.code g4 |} in
  Some (g4,
        [io_to (Game.code g4) (question_show payload);
         io_to (Game.hostId g4) (host_question_show payload)],
        {| tm_game := r; tm_idx := idx;
           tm_delay := JsNum.add (JsNum.mul (Question.timeLimitSec q) (Fin 1000))
                                 (Fin 50) |}).

(** [p.answerIndex === q.correctIndex]: [null] equals no number. *)
Definition answer_is (a : option number) (c : number) : bool :=
  match a with
  | Some x => JsNum.eqb x c
  | None => false
  end.

(** The body of the scoring loop of [revealAnswer] for one player. *)
Definition score_player (q : Question.t) (start : option Z) (p : Player.t)
    : Player.t :=
  if Player.answered p && answer_is (Player.answerIndex p) (Question.correctIndex q)
  then
    let elapsed :=
      Math_max (Fin 0)
        (JsNum.div (JsNum.sub (time_num (Player.answerTime p)) (time_num start))
                   (Fin 1000)) in
    let rem := Math_max (Fin 0) (JsNum.sub (Question.timeLimitSec q) elapsed) in
    let speedBonus :=
      Math_round (JsNum.mul (Fin 1000) (JsNum.div rem (Question.timeLimitSec q))) in
    let base := Fin 500 in
    Player.add_score (JsNum.add base speedBonus) p
  else p.

(** The tally loop of [revealAnswer]. *)
Definition tally (ps : list Player.t) : Counts.t :=
  List.fold_left
    (fun c p => match Player.answerIndex p with
                | Some k => Counts.incr k c
                | None => c
                end)
    ps Counts.init.

(** [new Map(ranked.map(r => [r.id, { rank, score }]))]. *)
Definition rankById (ranked : list Entry.t) : list (string * (option nat * number)) :=
  List.fold_left
    (fun m r => JsMap.set (Entry.id r) (Entry.rank r, Entry.score r) m)
    ranked [].

Definition reveal_me (q : Question.t) (byId : list (string * (option nat * number)))
    (p : Player.t) : output :=
  let me := JsMap.get (Player.id p) byId in
  io_to (Player.id p)
    (question_reveal_me
       {| rm_correct := answer_is (Player.answerIndex p) (Question.correctIndex q);
          rm_yourScore := match me with Some m => snd m | None => Player.score p end;
          rm_yourRank := match me with Some m => fst m | None => None end;
          rm_gained :=
            if Player.answered p
               && answer_is (Player.answerIndex p) (Question.correctIndex q)
            then "yes" else "no" |}).

(** [revealAnswer(game)]; throws when there is no question at
    [currentIndex] (the read of [q.correctIndex]). *)
Definition revealAnswer (g : Game.t) : option (Game.t * list output) :=
  let idx := Game.currentIndex g in
  q ← Game.questions g !! idx;
  let g1 := Game.set_state reveal g in
  let start := Game.questionStart g1 in
  let g2 := Game.set_players
              (List.map (fun kp => (fst kp, score_player q start (snd kp)))
                        (Game.players g1)) g1 in
  let counts := tally (JsMap.values (Game.players g2)) in
  let leaderboard := buildLeaderboard g2 10 in
  let payload :=
    {| rv_index := idx + 1;
       rv_total := List.length (Game.questions g2);
       rv_correctIndex := Question.correctIndex q;
       rv_counts := counts;
       rv_leaderboard := leaderboard |} in
  let ranked := rankPlayers g2 in
  let byId := rankById ranked in
  Some (g2,
        ([io_to (Game.code g2) (question_reveal payload)]
         ++ List.map (reveal_me q byId) (JsMap.values (Game.players g2))
         ++ [io_to (Game.hostId g2) (host_question_reveal payload)])%list).

Definition endGame (g : Game.t) : Game.t * list output :=
  let g1 := Game.set_state ended g in
  let leaderboard := firstn 20 (rankPlayers g1) in
  (g1, [io_to (Game.code g1) (game_over leaderboard);
        io_to (Game.hostId g1) (host_game_over leaderboard)]).

End Engine.

(* ===================================================================== *)
(** ** The Socket.IO handlers *)
(* ===================================================================== *)

Section Handlers.
Context `{Builtins}.

Open Scope string_scope.


Definition not_authorized (sock : socket) : output :=
  socket_emit (sock_id sock) (host_error "Not authorized (HOST_KEY required).").

(** [games.get(code)]: only a string can be a key of [games]. *)
Definition find_game (s : server) (code : jsval) : option (nat * Game.t) :=
  match code with
  | VStr c =>
      match JsMap.get c (games s) with
      | Some r => match heap s !! r with Some g => Some (r, g) | None => None end
      | None => None
      end
  | _ => None
  end.

(** The [code] of a payload as a room name, once [games.get(code)] has shown
    it to be a string. *)
Definition room_of (code : jsval) : string :=
  match code with
  | VStr c => c
  | _ => ""
  end.

(** The game object [r] after a handler mutated it. *)
Definition put_game (r : nat) (g : Game.t) (s : server) : server :=
  {| games := games s; heap := <[r := g]> (heap s); timers := timers s |}.

Definition arm (tm : timer) (s : server) : server :=
  {| games := games s; heap := heap s; timers := (timers s ++ [tm])%list |}.

(** [socket.on('host:createGame')]; [pin] is what [makePIN()] returns in this
    call, six decimal digits drawn at random. *)
Definition host_createGame (sock : socket) (pin : string) (s : server)
    : option (server * list output) :=
  if negb (isHost sock) then Some (s, [not_authorized sock])
  else
    let code := pin in
    let game := Game.mk code (sock_id sock) [] [] lobby 0 None 0 in
    let r := List.length (heap s) in
    Some ({| games := JsMap.set code r (games s);
             heap := (heap s ++ [game])%list;
             timers := timers s |},
          [socket_join (sock_id sock) code;
           socket_emit (sock_id sock) (host_gameCreated code)]).

(** One element of [qs.map(q => ...)] in [host:startGame]; the four
    properties are evaluated in the order of the object literal. *)
Definition sanitizeQuestion (q : jsval) : option Question.t :=
  prompt ← get_prop q "prompt";
  prompt' ← ToString (js_or prompt (VStr ""));
  options ← get_prop q "options";
  options' ← match options with
             | VArr l => mapM (fun o => slice0 120 <$> ToString o) (firstn 4 l)
             | _ => Some ["A"; "B"; "C"; "D"]
             end;
  correctIndex ← get_prop q "correctIndex";
  correctIndex' ← Number correctIndex;
  timeLimitSec ← get_prop q "timeLimitSec";
  timeLimitSec' ← Number timeLimitSec;
  Some (Question.mk
          (slice0 300 prompt')
          options'
          (Math_min (Fin 3) (Math_max (Fin 0) (JsNum.or correctIndex' (Fin 0))))
          (Math_min (Fin 120) (Math_max (Fin 5) (JsNum.or timeLimitSec' (Fin 20))))).

(** [socket.on('host:startGame')]. *)
Definition host_startGame (sock : socket) (payload : jsval) (now : Z)
    (s : server) : option (server * list output) :=
  code ← get_prop payload "code";
  questions ← get_prop payload "questions";
  if negb (isHost sock) then Some (s, [not_authorized sock])
  else
    match find_game s code with
    | None => Some (s, [])
    | Some (r, g) =>
        if negb (String.eqb (Game.hostId g) (sock_id sock)) then Some (s, [])
        else
          let qs := match questions with VArr l => l | _ => [] end in
          sanitized ← mapM sanitizeQuestion qs;
          let g1 := Game.set_questions sanitized g in
          if (List.length (Game.questions g1) =? 0)%nat
          then Some (put_game r g1 s, [])
          else
            let g2 := Game.set_state question g1 in
            let g3 := Game.set_currentIndex 0 g2 in
            '(g4, out, tm) ← startQuestion r g3 now;
            Some (arm tm (put_game r g4 s), out)
    end.

(** [socket.on('host:next')]. *)
Definition host_next (sock : socket) (payload : jsval) (now : Z) (s : server)
    : option (server * list output) :=
  code ← get_prop payload "code";
  if negb (isHost sock) then Some (s, [not_authorized sock])
  else
    match find_game s code with
    | None => Some (s, [])
    | Some (r, g) =>
        if negb (String.eqb (Game.hostId g) (sock_id sock)) then Some (s, [])
        else if bool_decide (Game.state g = question) then Some (s, [])
        else
          let idx := Game.currentIndex g + 1 in
          if (List.length (Game.questions g) <=? idx)%nat
          then let '(g1, out) := endGame g in Some (put_game r g1 s, out)
          else
            let g1 := Game.set_currentIndex idx g in
            '(g2, out, tm) ← startQuestion r g1 now;
            Some (arm tm (put_game r g2 s), out)
    end.

(** [socket.on('host:end')]. *)
Definition host_end (sock : socket) (payload : jsval) (s : server)
    : option (server * list output) :=
  code ← get_prop payload "code";
  if negb (isHost sock) then Some (s, [not_authorized sock])
  else
    match find_game s code with
    | None => Some (s, [])
    | Some (r, g) =>
        if negb (String.eqb (Game.hostId g) (sock_id sock)) then Some (s, [])
        else let '(g1, out) := endGame g in Some (put_game r g1 s, out)
    end.

(** [socket.on('player:join')]. *)
Definition player_join (sock : socket) (payload : jsval) (s : server)
    : option (server * list output) :=
  code ← get_prop payload "code";
  name ← get_prop payload "name";
  match find_game s code with
  | None =>
      Some (s, [socket_emit (sock_id sock)
                  (player_error "Game not found. Check the PIN.")])
  | Some (r, g) =>
      if negb (bool_decide (Game.state g = lobby))
      then Some (s, [socket_emit (sock_id sock)
                       (player_error "Game already started.")])
      else
        let finalName := ensureUniqueName g name in
        let g1 := Game.set_players
                    (JsMap.set (sock_id sock)
                       (Player.mk (sock_id sock) finalName (Fin 0) false None None)
                       (Game.players g)) g in
        Some (put_game r g1 s,
              (socket_join (sock_id sock) (room_of code)
               :: socket_emit (sock_id sock) (player_joined (room_of code) finalName)
               :: broadcastLobby g1)%list)
  end.

(** [Math.max(0, Math.min(3, Number(index)||0))], the index an answer is
    recorded with. *)
Definition answer_index (index : jsval) : option number :=
  n ← Number index;
  Some (Math_max (Fin 0) (Math_min (Fin 3) (JsNum.or n (Fin 0)))).

(** [socket.on('player:answer')]; [now1] and [now2] are the two readings of
    [nowMs()], for the time check and for [answerTime]. *)
Definition player_answer (sock : socket) (payload : jsval) (now1 now2 : Z)
    (s : server) : option (server * list output) :=
  code ← get_prop payload "code";
  index ← get_prop payload "index";
  match find_game s code with
  | None => Some (s, [])
  | Some (r, g) =>
      match JsMap.get (sock_id sock) (Game.players g) with
      | None => Some (s, [])
      | Some player =>
          if negb (bool_decide (Game.state g = question)) then Some (s, [])
          else
            q ← Game.questions g !! Game.currentIndex g;
            let elapsed :=
              JsNum.div (JsNum.sub (JsNum.of_Z now1) (time_num (Game.questionStart g)))
                        (Fin 1000) in
            if JsNum.gtb elapsed (Question.timeLimitSec q) then Some (s, [])
            else if Player.answered player then Some (s, [])
            else
              idx ← answer_index index;
              let g1 := Game.set_players
                          (JsMap.set (sock_id sock)
                             (Player.lock_answer idx now2 player)
                             (Game.players g)) g in
              let g2 := Game.set_answersSubmitted (Game.answersSubmitted g1 + 1) g1 in
              Some (put_game r g2 s,
                    [io_to (Game.hostId g2)
                       (host_answerProgress (Game.answersSubmitted g2)
                                            (JsMap.size (Game.players g2)));
                     socket_emit (sock_id sock) (player_answerLocked idx)])
      end
  end.

(** [socket.on('host:join')]. *)
Definition host_join (sock : socket) (payload : jsval) (s : server)
    : option (server * list output) :=
  code ← get_prop payload "code";
  if negb (isHost sock) then Some (s, [not_authorized sock])
  else
    match find_game s code with
    | None => Some (s, [])
    | Some (r, g) =>
        if negb (String.eqb (Game.hostId g) (sock_id sock)) then Some (s, [])
        else Some (s, (socket_join (sock_id sock) (room_of code)
                       :: broadcastLobby g)%list)
    end.

(** The first entry of [games] whose game has [sid] as host. *)
Fixpoint first_hosted (sid : string) (hp : list Game.t)
    (gs : list (string * nat)) : option string :=
  match gs with
  | [] => None
  | (code, r) :: gs' =>
      match hp !! r with
      | Some g =>
          if String.eqb (Game.hostId g) sid then Some code
          else first_hosted sid hp gs'
      | None => first_hosted sid hp gs'
      end
  end.

(** The first game of [games] that has [sid] among its players. *)
Fixpoint first_joined (sid : string) (hp : list Game.t)
    (gs : list (string * nat)) : option (nat * Game.t) :=
  match gs with
  | [] => None
  | (_, r) :: gs' =>
      match hp !! r with
      | Some g =>
          if JsMap.has sid (Game.players g) then Some (r, g)
          else first_joined sid hp gs'
      | None => first_joined sid hp gs'
      end
  end.

(** [socket.on('disconnect')]. *)
Definition disconnect (sock : socket) (s : server) : option (server * list output) :=
  match first_hosted (sock_id sock) (heap s) (games s) with
  | Some code =>
      Some ({| games := JsMap.delete code (games s);
               heap := heap s;
               timers := timers s |},
            [io_to code game_hostDisconnected])
  | None =>
      match first_joined (sock_id sock) (heap s) (games s) with
      | Some (r, g) =>
          let g1 := Game.set_players
                      (JsMap.delete (sock_id sock) (Game.players g)) g in
          Some (put_game r g1 s, broadcastLobby g1)
      | None => Some (s, [])
      end
  end.

(** The callback of the [k]-th pending timeout runs. *)
Definition timeout (k : nat) (s : server) : option (server * list output) :=
  match timers s !! k with
  | None => Some (s, [])
  | Some tm =>
      let s1 := {| games := games s; heap := heap s;
                   timers := base.delete k (timers s) |} in
      match heap s !! tm_game tm with
      | None => Some (s1, [])
      | Some g =>
          if bool_decide (Game.state g = question)
             && (Game.currentIndex g =? tm_idx tm)%nat
          then '(g1, out) ← revealAnswer g; Some (put_game (tm_game tm) g1 s1, out)
          else Some (s1, [])
      end
  end.

(** What reaches the process: a Socket.IO event with the readings of the
    clock and of the PIN generator its handler makes, or a timeout. *)
Inductive input : Type :=
| HostCreateGame (sock : socket) (pin : string)
| HostStartGame (sock : socket) (payload : jsval) (now : Z)
| HostNext (sock : socket) (payload : jsval) (now : Z)
| HostEnd (sock : socket) (payload : jsval)
| PlayerJoin (sock : socket) (payload : jsval)
| PlayerAnswer (sock : socket) (payload : jsval) (now1 now2 : Z)
| HostJoin (sock : socket) (payload : jsval)
| Disconnect (sock : socket)
| Timeout (k : nat).

Definition step (s : server) (i : input) : option (server * list output) :=
  match i with
  | HostCreateGame sock pin => host_createGame sock pin s
  | HostStartGame sock payload now => host_startGame sock payload now s
  | HostNext sock payload now => host_next sock payload now s
  | HostEnd sock payload => host_end sock payload s
  | PlayerJoin sock payload => player_join sock payload s
  | PlayerAnswer sock payload now1 now2 => player_answer sock payload now1 now2 s
  | HostJoin sock payload => host_join sock payload s
  | Disconnect sock => disconnect sock s
  | Timeout k => timeout k s
  end.

(** A run: inputs handled one after the other; it stops at a throw. *)
Fixpoint run (s : server) (ins : list input) : option (server * list output) :=
  match ins with
  | [] => Some (s, [])
  | i :: ins' =>
      '(s1, out1) ← step s i;
      '(s2, out2) ← run s1 ins';
      Some (s2, (out1 ++ out2)%list)
  end.

End Handlers.

(* ===================================================================== *)
(** ** Vocabulary of the properties *)
(* ===================================================================== *)

(** [n] is a finite number within [[lo, hi]]. *)
Definition in_range (lo hi : Q) (n : number) : Prop :=
  exists q, n = Fin q /\ (lo <= q <= hi)%Q.

(** The name [base] with the suffix of the number [n]. *)
Definition with_suffix (base : string) (n : nat) : string :=
  (base ++ " #" ++ decimal n)%string.

(** The names a player who asks for [base] may get, in order: [base], then
    [base #2], [base #3], ... *)
Definition candidate (base : string) (k : nat) : string :=
  match k with
  | O => base
  | S _ => with_suffix base (k + 1)
  end.

(** The lower-case form of the name is among those of the players, the test
    of the loop of [ensureUniqueName]. *)
Definition taken (g : Game.t) (nm : string) : Prop :=
  toLowerCase nm ∈ lower_names g.

(** Letter case, said without [toLowerCase]: the capital letters are A to Z
    and, in Latin-1, the letters from 192 to 222 but the multiplication sign;
    the small form of a capital lies 32 code units above it. *)
Definition capital (c : ascii) : bool :=
  let n := nat_of_ascii c in
  ((65 <=? n)%nat && (n <=? 90)%nat)
  || ((192 <=? n)%nat && (n <=? 222)%nat && negb (n =? 215)%nat).

Definition same_letter (c d : ascii) : bool :=
  Ascii.eqb c d
  || (capital c && (nat_of_ascii d =? nat_of_ascii c + 32)%nat)
  || (capital d && (nat_of_ascii c =? nat_of_ascii d + 32)%nat).

(** The two names are equal, letter case ignored. *)
Fixpoint equal_ignoring_case (a b : string) : bool :=
  match a, b with
  | EmptyString, EmptyString => true
  | String c a', String d b' => same_letter c d && equal_ignoring_case a' b'
  | _, _ => false
  end.

(** Some player on the roster of [g] has the name [nm], letter case
    ignored. *)
Definition collides (g : Game.t) (nm : string) : Prop :=
  exists sid p, (sid, p) ∈ Game.players g
                /\ equal_ignoring_case nm (Player.name p) = true.

(** No two players on the roster of [g] have the same name, letter case
    ignored. *)
Definition distinct_names (g : Game.t) : Prop :=
  forall i j kp1 kp2,
    Game.players g !! i = Some kp1 -> Game.players g !! j = Some kp2 -> i <> j ->
    equal_ignoring_case (Player.name (snd kp1)) (Player.name (snd kp2)) = false.

(** All code units below 256. *)
Definition all_ascii : list ascii := List.map ascii_of_nat (seq 0 256).

(** What the leaderboard shows of a player, and what it shows of an entry:
    the socket, the name and the score. *)
Definition shown_of_player (kp : string * Player.t) : string * string * number :=
  (Player.id (snd kp), Player.name (snd kp), Player.score (snd kp)).

Definition shown_of_entry (e : Entry.t) : string * string * number :=
  (Entry.id e, Entry.name e, Entry.score e).

Definition has_score (v : number) (x : string * string * number) : bool :=
  JsNum.eqb (snd x) v.

(** No object within [v] has a property of its own named [toString]: such a
    value converts to a string and to a number without a TypeError. *)
Fixpoint plain (v : jsval) : bool :=
  match v with
  | VArr l => forallb plain l
  | VObj fields =>
      negb (JsMap.has "toString" fields)
      && forallb (fun kv => plain (snd kv)) fields
  | _ => true
  end.

(** A question as [host:startGame] stores it. *)
Definition wf_question (q : Question.t) : Prop :=
  in_range 0 3 (Question.correctIndex q)
  /\ in_range 5 120 (Question.timeLimitSec q).

(** A player record as the handlers leave it: a finite score, and either a
    locked answer with its index and time or none of the three. *)
Definition wf_player (p : Player.t) : Prop :=
  finite (Player.score p)
  /\ (if Player.answered p
      then exists k ta, Player.answerIndex p = Some k /\ in_range 0 3 k
                        /\ Player.answerTime p = Some ta
      else Player.answerIndex p = None /\ Player.answerTime p = None).

Definition wf_game (g : Game.t) : Prop :=
  Forall wf_question (Game.questions g)
  /\ Forall wf_player (JsMap.values (Game.players g))
  /\ NoDup (lower_names g)
  /\ (Game.state g = question -> is_Some (Game.questionStart g))
  /\ (Game.state g = lobby -> Game.questions g = []).

(** The fresh object of [host:createGame]. *)
Definition new_game (sock : socket) (pin : string) : Game.t :=
  Game.mk pin (sock_id sock) [] [] lobby 0 None 0.

(** [sock] is a host-capable socket and the host of [g]. *)
Definition owner (sock : socket) (g : Game.t) : Prop :=
  isHost sock = true /\ Game.hostId g = sock_id sock.

(** The score formula in the words of the specification. *)
Definition elapsedSeconds (questionStartedAt submittedAt : Z) : Q :=
  (inject_Z (submittedAt - questionStartedAt) / 1000)%Q.

Definition spec_round (x : Q) : Z := Qfloor (x + (1 # 2)).

Definition spec_speed_bonus (timeLimitSeconds elapsed : Q) : Z :=
  spec_round (1000 * Qmax 0 (timeLimitSeconds - elapsed) / timeLimitSeconds).

Definition spec_score_delta (timeLimitSeconds elapsed : Q) (correct : bool) : Z :=
  if correct then (500 + spec_speed_bonus timeLimitSeconds elapsed)%Z else 0%Z.

(** The player's recorded answer is the correct option of [q]. *)
Definition recorded_correct (q : Question.t) (p : Player.t) : bool :=
  Player.answered p && answer_is (Player.answerIndex p) (Question.correctIndex q).

Section Vocabulary.
Context `{Builtins}.

Open Scope string_scope.

(** What one input may do to one game object. *)
Inductive effect (g : Game.t) : input -> Game.t -> Prop :=
| eff_none i : effect g i g
| eff_start_empty sock payload now :
    owner sock g ->
    effect g (HostStartGame sock payload now) (Game.set_questions [] g)
| eff_start sock payload now l qs r g' out tm :
    owner sock g ->
    get_prop payload "questions" = Some (VArr l) ->
    mapM sanitizeQuestion l = Some qs ->
    qs <> [] ->
    startQuestion r (Game.set_currentIndex 0 (Game.set_state question
                       (Game.set_questions qs g))) now = Some (g', out, tm) ->
    effect g (HostStartGame sock payload now) g'
| eff_next_end sock payload now :
    owner sock g ->
    Game.state g <> question ->
    List.length (Game.questions g) <= Game.currentIndex g + 1 ->
    effect g (HostNext sock payload now) (fst (endGame g))
| eff_next sock payload now r g' out tm :
    owner sock g ->
    Game.state g <> question ->
    Game.currentIndex g + 1 < List.length (Game.questions g) ->
    startQuestion r (Game.set_currentIndex (Game.currentIndex g + 1) g) now
      = Some (g', out, tm) ->
    effect g (HostNext sock payload now) g'
| eff_end sock payload :
    owner sock g ->
    effect g (HostEnd sock payload) (fst (endGame g))
| eff_join sock payload name :
    Game.state g = lobby ->
    get_prop payload "name" = Some name ->
    effect g (PlayerJoin sock payload)
      (Game.set_players
         (JsMap.set (sock_id sock)
            (Player.mk (sock_id sock) (ensureUniqueName g name) (Fin 0) false None None)
            (Game.players g)) g)
| eff_answer sock payload now1 now2 index idx player q :
    Game.state g = question ->
    get_prop payload "index" = Some index ->
    answer_index index = Some idx ->
    JsMap.get (sock_id sock) (Game.players g) = Some player ->
    Player.answered player = false ->
    Game.questions g !! Game.currentIndex g = Some q ->
    JsNum.gtb (JsNum.div (JsNum.sub (JsNum.of_Z now1) (time_num (Game.questionStart g)))
                         (Fin 1000)) (Question.timeLimitSec q) = false ->
    effect g (PlayerAnswer sock payload now1 now2)
      (Game.set_answersSubmitted (Game.answersSubmitted g + 1)
         (Game.set_players
            (JsMap.set (sock_id sock)
               (Player.lock_answer idx now2 player)
               (Game.players g)) g))
| eff_leave sock :
    effect g (Disconnect sock)
      (Game.set_players (JsMap.delete (sock_id sock) (Game.players g)) g)
| eff_reveal k g' out :
    Game.state g = question ->
    revealAnswer g = Some (g', out) ->
    effect g (Timeout k) g'.

(** What one input does to the store and to the registry: nothing, one
    object mutated, one object added and registered, or one code dropped. *)
Inductive store_change (s : server) (i : input) (s' : server) : Prop :=
| sc_same :
    heap s' = heap s -> games s' = games s -> store_change s i s'
| sc_put r0 g0 g1 :
    heap s !! r0 = Some g0 -> effect g0 i g1 ->
    heap s' = <[r0 := g1]> (heap s) -> games s' = games s ->
    store_change s i s'
| sc_new sock pin :
    i = HostCreateGame sock pin -> isHost sock = true ->
    heap s' = (heap s ++ [new_game sock pin])%list ->
    games s' = JsMap.set pin (List.length (heap s)) (games s) ->
    store_change s i s'
| sc_drop sock code :
    i = Disconnect sock ->
    heap s' = heap s -> games s' = JsMap.delete code (games s) ->
    store_change s i s'.

(** The states the process can be in. *)
Inductive reachable : server -> Prop :=
| reach_init : reachable init_server
| reach_step s i s' out :
    reachable s -> step s i = Some (s', out) -> reachable s'.

(** What holds of every reachable state. *)
Definition wf_server (s : server) : Prop :=
  (forall r g, heap s !! r = Some g -> wf_game g)
  /\ NoDup (JsMap.keys (games s))
  /\ (forall c r, JsMap.get c (games s) = Some r -> r < List.length (heap s)).

End Vocabulary.

Section ClaimVocabulary.
Context `{Builtins}.

Open Scope string_scope.

(** The input is a start (an advance) sent by the host of [g]. *)
Definition owner_start (i : input) (g : Game.t) : Prop :=
  exists sock payload now, i = HostStartGame sock payload now /\ owner sock g.

Definition owner_next (i : input) (g : Game.t) : Prop :=
  exists sock payload now, i = HostNext sock payload now /\ owner sock g.

(** The time of the submission is within the limit of the question. *)
Definition within_time_limit (g : Game.t) (q : Question.t) (now : Z) : Prop :=
  exists t0 t,
    Game.questionStart g = Some t0
    /\ Question.timeLimitSec q = Fin t
    /\ (elapsedSeconds t0 now <= t)%Q.

(** The four conditions under which an answer is recorded. *)
Definition answer_accepted (s : server) (sock : socket) (code : jsval)
    (now : Z) (r : nat) (g : Game.t) (p : Player.t) (q : Question.t) : Prop :=
  find_game s code = Some (r, g)
  /\ Game.state g = question
  /\ JsMap.get (sock_id sock) (Game.players g) = Some p
  /\ Player.answered p = false
  /\ Game.questions g !! Game.currentIndex g = Some q
  /\ within_time_limit g q now.

(** The game after [player:answer] recorded the answer of [p]. *)
Definition with_answer (g : Game.t) (sock : socket) (p : Player.t)
    (idx : number) (now : Z) : Game.t :=
  Game.set_answersSubmitted (Game.answersSubmitted g + 1)
    (Game.set_players
       (JsMap.set (sock_id sock)
          (Player.lock_answer idx now p)
          (Game.players g)) g).

Definition nullish (v : jsval) : Prop := v = VUndefined \/ v = VNull.

(** A timeout that captured the index [n] is stale for [g]: the game has
    left [question], or is at another index. *)
Definition stale (n : nat) (g : Game.t) : Prop :=
  Game.state g <> question \/ Game.currentIndex g <> n.

(** The input is a start sent by the host-capable socket [hid]. *)
Definition start_by (hid : string) (i : input) : Prop :=
  exists sock payload now,
    i = HostStartGame sock payload now /\ isHost sock = true /\ sock_id sock = hid.

(** The state, the index and the registry at the end of a run. *)
Definition state_of (r : nat) (res : option (server * list output))
    : option game_state :=
  match res with
  | Some (s, _) => Game.state <$> heap s !! r
  | None => None
  end.

Definition index_of (r : nat) (res : option (server * list output)) : option nat :=
  match res with
  | Some (s, _) => Game.currentIndex <$> heap s !! r
  | None => None
  end.

Definition registry_of (res : option (server * list output))
    : option (list (string * nat)) :=
  match res with
  | Some (s, _) => Some (games s)
  | None => None
  end.

Definition server_of (res : option (server * list output)) : server :=
  match res with
  | Some (s, _) => s
  | None => init_server
  end.

Definition outputs_of (res : option (server * list output)) : list output :=
  match res with
  | Some (_, out) => out
  | None => []
  end.

End ClaimVocabulary.

(** An entry without its rank. *)
Definition unrank (e : Entry.t) : Entry.t :=
  Entry.mk (Entry.id e) (Entry.name e) (Entry.score e) None.

(** [a] is not below [b] on the leaderboard order. *)
Definition score_ge (a b : Entry.t) : Prop :=
  JsNum.geb (Entry.score a) (Entry.score b) = true.

Definition same_score (v : number) (e : Entry.t) : bool :=
  JsNum.eqb (Entry.score e) v.

Definition finite_score (e : Entry.t) : Prop := finite (Entry.score e).

(** *** Sockets, payloads and runs used in the examples *)

Module Demo.

Open Scope string_scope.

Definition host : socket := {| sock_id := "host-1"; isHost := true |}.
Definition host2 : socket := {| sock_id := "host-2"; isHost := true |}.
Definition sam : socket := {| sock_id := "sock-a"; isHost := false |}.
Definition sam2 : socket := {| sock_id := "sock-b"; isHost := false |}.

Definition pin : string := "482913".

Definition with_code : jsval := VObj [("code", VStr pin)].

Definition join_as (name : string) : jsval :=
  VObj [("code", VStr pin); ("name", VStr name)].

Definition answer (index : number) : jsval :=
  VObj [("code", VStr pin); ("index", VNum index)].

(** An object that neither [String] nor [Number] converts: its [toString]
    is a number, not a function. *)
Definition unprintable : jsval := VObj [("toString", VNum (Fin 1))].

Definition answer_with (index : jsval) : jsval :=
  VObj [("code", VStr pin); ("index", index)].

Definition quiz (qs : list jsval) : jsval :=
  VObj [("code", VStr pin); ("questions", VArr qs)].

Definition ask (prompt : string) (correct : Q) (limit : Q) : jsval :=
  VObj [("prompt", VStr prompt);
        ("options", VArr [VStr "a"; VStr "b"; VStr "c"; VStr "d"]);
        ("correctIndex", VNum (Fin correct));
        ("timeLimitSec", VNum (Fin limit))].

(** A game with two questions, started at time 1000, with Sam in it. *)
Definition opening : list input :=
  [HostCreateGame host pin;
   PlayerJoin sam (join_as "Sam");
   HostStartGame host (quiz [ask "first" 1 20; ask "second" 2 20]) 1000].

(** ... then ended by the host while the first question is open. *)
Definition ended_early : list input :=
  (opening ++ [HostEnd host with_code])%list.

(** ... or revealed by its timeout and advanced to the second question. *)
Definition second_question : list input :=
  (opening ++ [Timeout 0; HostNext host with_code 30000])%list.

(** The host sends a start again, at time [now]. *)
Definition restart (now : Z) : input :=
  HostStartGame host (quiz [ask "again" 0 20]) now.

(** The states these runs lead to, and the game in them. *)
Definition state_after (ins : list input) : server :=
  server_of (run init_server ins).

Definition game_after (ins : list input) : Game.t :=
  default (new_game host pin) (heap (state_after ins) !! 0).

Definition lobby_server : server :=
  Eval vm_compute in
    state_after [HostCreateGame host pin; PlayerJoin sam (join_as "Sam")].

Definition lobby_game : Game.t :=
  Eval vm_compute in
    game_after [HostCreateGame host pin; PlayerJoin sam (join_as "Sam")].

Definition question_server : server := Eval vm_compute in state_after opening.
Definition question_game : Game.t := Eval vm_compute in game_after opening.

Definition first_question : Question.t :=
  Eval vm_compute in
    default (Question.mk "" [] (Fin 0) (Fin 0)) (Game.questions question_game !! 0).

Definition first_timer : timer :=
  Eval vm_compute in
    default {| tm_game := 0; tm_idx := 0; tm_delay := Fin 0 |}
            (timers question_server !! 0).

Definition sam_waiting : Player.t :=
  Eval vm_compute in
    default (Player.mk "" "" (Fin 0) false None None)
            (JsMap.get "sock-a" (Game.players question_game)).

(** Sam answers the correct option two seconds into the first question. *)
Definition answered : list input :=
  (opening ++ [PlayerAnswer sam (answer (Fin 1)) 3000 3000])%list.

Definition answered_server : server := Eval vm_compute in state_after answered.
Definition answered_game : Game.t := Eval vm_compute in game_after answered.

Definition sam_answered : Player.t :=
  Eval vm_compute in
    default (Player.mk "" "" (Fin 0) false None None)
            (JsMap.get "sock-a" (Game.players answered_game)).

Definition reveal_server : server :=
  Eval vm_compute in state_after (opening ++ [Timeout 0])%list.
Definition reveal_game : Game.t :=
  Eval vm_compute in game_after (opening ++ [Timeout 0])%list.

Definition ended_server : server := Eval vm_compute in state_after ended_early.
Definition ended_game : Game.t := Eval vm_compute in game_after ended_early.

(** A roster with the scores 300, 300 and 100, in this order. *)
Definition tied_game : Game.t :=
  Game.mk pin "host-1"
    [("s1", Player.mk "s1" "Ann" (Fin 300) false None None);
     ("s2", Player.mk "s2" "Ben" (Fin 300) false None None);
     ("s3", Player.mk "s3" "Cy" (Fin 100) false None None)]
    [] reveal 0 None 0.

End Demo.

(* ===================================================================== *)
(** ** Vocabulary of the further properties *)
(* ===================================================================== *)

(** *** Names *)

(** Every white space of [s] is a plain space and no two are adjacent;
    [prev] tells that the character before [s] was white space. *)
Fixpoint single_spaced (prev : bool) (s : string) : bool :=
  match s with
  | EmptyString => true
  | String c s' =>
      if is_space c
      then Ascii.eqb c " " && negb prev && single_spaced true s'
      else single_spaced false s'
  end.

Definition starts_with_space (s : string) : bool :=
  match s with
  | String c _ => is_space c
  | EmptyString => false
  end.

Fixpoint ends_with_space (s : string) : bool :=
  match s with
  | EmptyString => false
  | String c EmptyString => is_space c
  | String _ s' => ends_with_space s'
  end.

Fixpoint all_space (s : string) : bool :=
  match s with
  | EmptyString => true
  | String c s' => is_space c && all_space s'
  end.

(** A name that needs no cleaning: not empty, at most 24 characters, no
    white space at either end, words separated by single plain spaces. *)
Definition clean_name (s : string) : bool :=
  negb (String.eqb s "") && (String.length s <=? 24)%nat
  && negb (starts_with_space s) && negb (ends_with_space s)
  && single_spaced false s.

(** *** Rosters and scores *)

(** One entry per socket, each record carrying the id of its socket. *)
Definition roster_ok (g : Game.t) : Prop :=
  NoDup (JsMap.keys (Game.players g))
  /\ Forall (fun kp => Player.id (snd kp) = fst kp) (Game.players g).

(** The score of [p] is the whole number [z]. *)
Definition score_is (z : Z) (p : Player.t) : Prop :=
  is_fin (Player.score p) (inject_Z z).

Definition whole_score (p : Player.t) : Prop :=
  exists z, (0 <= z)%Z /\ score_is z p.

(** A player as [player:join] creates it. *)
Definition fresh_player (p : Player.t) : Prop :=
  score_is 0 p /\ Player.answered p = false.

(** The players whose answer to the current question is locked. *)
Definition answered_count (g : Game.t) : nat :=
  List.length (List.filter Player.answered (JsMap.values (Game.players g))).

(** What holds of the roster of every game of a reachable state. *)
Definition tidy_game (g : Game.t) : Prop :=
  roster_ok g
  /\ Forall whole_score (JsMap.values (Game.players g))
  /\ (Game.state g = lobby ->
      Forall fresh_player (JsMap.values (Game.players g)))
  /\ answered_count g <= Game.answersSubmitted g.

(** *** What a question shows *)

(** The object [safeQuestion] builds: a question without its correct index,
    with [total] and [index] set to [null]. *)
Record safe_question : Type := {
  sq_prompt : string;
  sq_options : list string;
  sq_timeLimitSec : number;
  sq_total : option nat;
  sq_index : option nat
}.

Definition safeQuestion (q : Question.t) : safe_question :=
  {| sq_prompt := Question.prompt q;
     sq_options := Question.options q;
     sq_timeLimitSec := Question.timeLimitSec q;
     sq_total := None;
     sq_index := None |}.

(** Two games that differ in nothing but the correct indices of their
    questions. *)
Definition same_but_answers (g1 g2 : Game.t) : Prop :=
  Game.code g1 = Game.code g2
  /\ Game.hostId g1 = Game.hostId g2
  /\ Game.players g1 = Game.players g2
  /\ Game.state g1 = Game.state g2
  /\ Game.currentIndex g1 = Game.currentIndex g2
  /\ Game.questionStart g1 = Game.questionStart g2
  /\ Game.answersSubmitted g1 = Game.answersSubmitted g2
  /\ List.map safeQuestion (Game.questions g1)
     = List.map safeQuestion (Game.questions g2).

Definition same_but_answers_server (s1 s2 : server) : Prop :=
  games s1 = games s2 /\ timers s1 = timers s2
  /\ Forall2 same_but_answers (heap s1) (heap s2).

(** Two results that tell the same to the outside and differ in nothing but
    correct indices. *)
Definition same_to_the_outside (r1 r2 : option (server * list output)) : Prop :=
  match r1, r2 with
  | Some (s1, o1), Some (s2, o2) => o1 = o2 /\ same_but_answers_server s1 s2
  | None, None => True
  | _, _ => False
  end.

(** The bounds [host:startGame] puts on a question it stores. *)
Definition bounded_question (q : Question.t) : Prop :=
  String.length (Question.prompt q) <= 300
  /\ List.length (Question.options q) <= 4
  /\ Forall (fun o => String.length o <= 120) (Question.options q)
  /\ in_range 0 3 (Question.correctIndex q)
  /\ in_range 5 120 (Question.timeLimitSec q).

(** [typeof p.answerIndex === 'number']. *)
Definition has_answer (p : Player.t) : bool :=
  match Player.answerIndex p with
  | Some _ => true
  | None => false
  end.

(** The index is one of the four slots of [counts]. *)
Definition slot_index (k : number) : Prop :=
  exists i, JsNum.array_index k = Some i /\ i < 4.

(** *** Sockets and the registry *)

(** [getGameByHost(socketId)]: the first game of [games.values()] whose host
    is the socket, or [null]. *)
Fixpoint getGameByHost_from (socketId : string) (hp : list Game.t)
    (gs : list (string * nat)) : option Game.t :=
  match gs with
  | [] => None
  | (_, r) :: gs' =>
      match hp !! r with
      | Some g =>
          if String.eqb (Game.hostId g) socketId then Some g
          else getGameByHost_from socketId hp gs'
      | None => getGameByHost_from socketId hp gs'
      end
  end.

Definition getGameByHost (s : server) (socketId : string) : option Game.t :=
  getGameByHost_from socketId (heap s) (games s).




Section FurtherVocabulary.
Context `{Builtins}.

Open Scope string_scope.



(** The game has a question to answer and to reveal whenever one is open. *)
Definition has_current (g : Game.t) : Prop :=
  Game.state g = question ->
  is_Some (Game.questions g !! Game.currentIndex g).

(** An input with a payload that is neither [null] nor [undefined]; for a
    start a list of at least one question, none of them [null] or
    [undefined]; and, where the handler converts values of the payload (a
    start, an answer), no object of the payload with a property [toString]
    of its own. *)
Definition orderly (i : input) : Prop :=
  match i with
  | HostCreateGame _ _ | Disconnect _ | Timeout _ => True
  | HostStartGame _ payload _ =>
      plain payload = true
      /\ exists l, get_prop payload "questions" = Some (VArr l) /\ l <> []
                   /\ Forall (fun v => ~ nullish v) l
  | PlayerAnswer _ payload _ _ => ~ nullish payload /\ plain payload = true
  | HostNext _ payload _ | HostEnd _ payload | PlayerJoin _ payload
  | HostJoin _ payload => ~ nullish payload
  end.

End FurtherVocabulary.

(** *** Further sockets and runs used in the examples *)

Module Scene.

Open Scope string_scope.


(** The first question revealed by its timeout after Sam answered it. *)
Definition revealed : list input := (Demo.answered ++ [Timeout 0])%list.

Definition revealed_server : server := Eval vm_compute in Demo.state_after revealed.
Definition revealed_game : Game.t := Eval vm_compute in Demo.game_after revealed.

Definition revealed_out : list output :=
  Eval vm_compute in outputs_of (step Demo.answered_server (Timeout 0)).

Definition sam_scored : Player.t :=
  Eval vm_compute in
    default (Player.mk "" "" (Fin 0) false None None)
            (JsMap.get "sock-a" (Game.players revealed_game)).

(** Max joins the lobby after Sam. *)
Definition max_joined_game : Game.t :=
  Eval vm_compute in
    Demo.game_after [HostCreateGame Demo.host Demo.pin;
                     PlayerJoin Demo.sam (Demo.join_as "Sam");
                     PlayerJoin Demo.sam2 (Demo.join_as "Max")].

(** The game of [Demo.opening] with other correct options. *)
Definition opening_b : list input :=
  [HostCreateGame Demo.host Demo.pin;
   PlayerJoin Demo.sam (Demo.join_as "Sam");
   HostStartGame Demo.host
     (Demo.quiz [Demo.ask "first" 3 20; Demo.ask "second" 0 20]) 1000].

Definition question_server_b : server := Eval vm_compute in Demo.state_after opening_b.

(** Two players who answered the first question of [Demo.opening] correctly,
    two and five seconds after its start. *)
Definition quick : Player.t :=
  Player.mk "s1" "Ann" (Fin 0) true (Some (Fin 1)) (Some 3000%Z).

Definition slow : Player.t :=
  Player.mk "s2" "Ben" (Fin 0) true (Some (Fin 1)) (Some 6000%Z).

End Scene.

(* ===================================================================== *)
(** ** Facts about numbers *)
(* ===================================================================== *)

Section NumberFacts.

Open Scope Q_scope.

Lemma is_fin_Fin q : is_fin (Fin q) q.
Proof. exists q. split; [done | reflexivity]. Qed.

Lemma is_fin_eq n x y : is_fin n x -> x == y -> is_fin n y.
Proof. intros (q & -> & E) Exy. exists q. split; [done|]. by rewrite E. Qed.

Lemma is_fin_finite n x : is_fin n x -> finite n.
Proof. intros (q & -> & _). by exists q. Qed.

Lemma finite_is_fin n : finite n -> exists x, is_fin n x.
Proof. intros [q ->]. exists q. apply is_fin_Fin. Qed.

Lemma is_fin_unique n x y : is_fin n x -> is_fin n y -> x == y.
Proof. intros (q & -> & E1) (q' & E & E2). simplify_eq. by rewrite <- E1, <- E2. Qed.

Lemma is_fin_of_Z z : is_fin (JsNum.of_Z z) (inject_Z z).
Proof. apply is_fin_Fin. Qed.

Lemma ltb_Fin x y : JsNum.ltb (Fin x) (Fin y) = true <-> x < y.
Proof.
  simpl. rewrite negb_true_iff. split.
  - intros Hb. apply Qnot_le_lt. intros Hle.
    apply Qle_bool_iff in Hle. congruence.
  - intros Hlt. destruct (Qle_bool y x) eqn:E; [|done].
    apply Qle_bool_iff in E. lra.
Qed.

Lemma ltb_Fin_false x y : JsNum.ltb (Fin x) (Fin y) = false <-> y <= x.
Proof.
  rewrite <- not_true_iff_false, ltb_Fin. split; intros; lra.
Qed.

Lemma add_fin a b x y : is_fin a x -> is_fin b y -> is_fin (JsNum.add a b) (x + y).
Proof.
  intros (p & -> & Ep) (q & -> & Eq). exists (p + q). split; [done|].
  by rewrite Ep, Eq.
Qed.

Lemma sub_fin a b x y : is_fin a x -> is_fin b y -> is_fin (JsNum.sub a b) (x - y).
Proof.
  intros (p & -> & Ep) (q & -> & Eq). exists (p + - q). split; [done|].
  rewrite Ep, Eq. reflexivity.
Qed.

Lemma mul_fin a b x y : is_fin a x -> is_fin b y -> is_fin (JsNum.mul a b) (x * y).
Proof.
  intros (p & -> & Ep) (q & -> & Eq). exists (p * q). split; [done|].
  by rewrite Ep, Eq.
Qed.

Lemma div_fin a b x y :
  is_fin a x -> is_fin b y -> ~ y == 0 -> is_fin (JsNum.div a b) (x / y).
Proof.
  intros (p & -> & Ep) (q & -> & Eq) Hy. exists (p / q). split.
  - simpl. unfold JsNum.sign. destruct (q ?= 0) eqn:E; try done.
    apply Qeq_alt in E. rewrite Eq in E. done.
  - by rewrite Ep, Eq.
Qed.

Lemma max_fin a b x y :
  is_fin a x -> is_fin b y -> is_fin (Math_max a b) (Qmax x y).
Proof.
  intros (p & -> & Ep) (q & -> & Eq). unfold Math_max.
  destruct (JsNum.ltb (Fin p) (Fin q)) eqn:E.
  - apply ltb_Fin in E. exists q. split; [done|].
    rewrite <- Ep, <- Eq. symmetry. apply Q.max_r. lra.
  - apply ltb_Fin_false in E. exists p. split; [done|].
    rewrite <- Ep, <- Eq. symmetry. by apply Q.max_l.
Qed.

Lemma min_fin a b x y :
  is_fin a x -> is_fin b y -> is_fin (Math_min a b) (Qmin x y).
Proof.
  intros (p & -> & Ep) (q & -> & Eq). unfold Math_min.
  destruct (JsNum.ltb (Fin q) (Fin p)) eqn:E.
  - apply ltb_Fin in E. exists q. split; [done|].
    rewrite <- Ep, <- Eq. symmetry. apply Q.min_r. lra.
  - apply ltb_Fin_false in E. exists p. split; [done|].
    rewrite <- Ep, <- Eq. symmetry. by apply Q.min_l.
Qed.

Lemma round_fin a x :
  is_fin a x -> is_fin (Math_round a) (inject_Z (Qfloor (x + (1 # 2)))).
Proof.
  intros (p & -> & Ep). eexists. split; [done|]. by rewrite Ep.
Qed.

Lemma gtb_fin a b x y :
  is_fin a x -> is_fin b y -> (JsNum.gtb a b = false <-> x <= y).
Proof.
  intros (p & -> & Ep) (q & -> & Eq). unfold JsNum.gtb.
  rewrite ltb_Fin_false. by rewrite Ep, Eq.
Qed.

Lemma or_not_nan n d : JsNum.or n (Fin d) <> NaN.
Proof. unfold JsNum.or. destruct n; simpl; try done. by case_match. Qed.

Lemma or_nan d : JsNum.or NaN d = d.
Proof. done. Qed.

(** [Math.min(hi, Math.max(lo, x))] lands in [[lo, hi]] unless [x] is NaN. *)
Lemma min_max_range lo hi x :
  lo <= hi -> x <> NaN ->
  in_range lo hi (Math_min (Fin hi) (Math_max (Fin lo) x)).
Proof.
  intros Hle Hx. destruct x as [| | |q]; [done| | |].
  - exists hi. split; [done | lra].
  - simpl. destruct (Qle_bool lo hi) eqn:E.
    + simpl. destruct (negb _) eqn:E'.
      * exists lo. split; [done|lra].
      * exists hi. split; [done|lra].
    + apply not_true_iff_false in E. rewrite Qle_bool_iff in E. lra.
  - unfold Math_max.
    destruct (JsNum.ltb (Fin lo) (Fin q)) eqn:E1; unfold Math_min.
    + apply ltb_Fin in E1.
      destruct (JsNum.ltb (Fin q) (Fin hi)) eqn:E2.
      * apply ltb_Fin in E2. exists q. split; [done|lra].
      * apply ltb_Fin_false in E2. exists hi. split; [done|lra].
    + apply ltb_Fin_false in E1.
      destruct (JsNum.ltb (Fin lo) (Fin hi)) eqn:E2.
      * exists lo. split; [done|lra].
      * exists hi. split; [done|lra].
Qed.

(** [Math.max(lo, Math.min(hi, x))] lands in [[lo, hi]] unless [x] is NaN. *)
Lemma max_min_range lo hi x :
  lo <= hi -> x <> NaN ->
  in_range lo hi (Math_max (Fin lo) (Math_min (Fin hi) x)).
Proof.
  intros Hle Hx. destruct x as [| | |q]; [done| | |].
  - simpl. destruct (negb (Qle_bool hi lo)) eqn:E.
    + exists hi. split; [done|lra].
    + exists lo. split; [done|lra].
  - exists lo. split; [done|lra].
  - unfold Math_min.
    destruct (JsNum.ltb (Fin q) (Fin hi)) eqn:E1; unfold Math_max.
    + apply ltb_Fin in E1.
      destruct (JsNum.ltb (Fin lo) (Fin q)) eqn:E2.
      * apply ltb_Fin in E2. exists q. split; [done|lra].
      * apply ltb_Fin_false in E2. exists lo. split; [done|lra].
    + apply ltb_Fin_false in E1.
      destruct (JsNum.ltb (Fin lo) (Fin hi)) eqn:E2.
      * exists hi. split; [done|lra].
      * exists lo. split; [done|lra].
Qed.

Lemma in_range_finite lo hi n : in_range lo hi n -> finite n.
Proof. intros (q & -> & _). by exists q. Qed.

End NumberFacts.

(* ===================================================================== *)
(** ** Facts about maps in insertion order *)
(* ===================================================================== *)

Lemma sublist_map {A B : Type} (f : A -> B) (l1 l2 : list A) :
  sublist l1 l2 -> sublist (List.map f l1) (List.map f l2).
Proof.
  induction 1; simpl; [constructor | by apply sublist_skip | by apply sublist_cons].
Qed.

Lemma elem_of_map {A B : Type} (f : A -> B) (l : list A) (y : B) :
  y ∈ List.map f l <-> exists x, y = f x /\ x ∈ l.
Proof.
  rewrite list_elem_of_In, in_map_iff. split.
  - intros (x & <- & Hx). exists x. by rewrite list_elem_of_In.
  - intros (x & -> & Hx). exists x. by rewrite <- list_elem_of_In.
Qed.

Section MapFacts.
Context {V : Type}.
Implicit Types (m : list (string * V)) (k : string) (v : V).

Lemma get_split k m v0 :
  JsMap.get k m = Some v0 ->
  exists m1 m2, m = (m1 ++ (k, v0) :: m2)%list /\ JsMap.get k m1 = None.
Proof.
  induction m as [|[k' v'] m IH]; simpl; [done|].
  destruct (String.eqb_spec k k') as [->|Hne].
  - intros [= ->]. by exists [], m.
  - intros (m1 & m2 & -> & Hm1)%IH. exists ((k', v') :: m1), m2. split; [done|].
    simpl. by destruct (String.eqb_spec k k').
Qed.

Lemma set_absent k v m :
  JsMap.get k m = None -> JsMap.set k v m = (m ++ [(k, v)])%list.
Proof.
  induction m as [|[k' v'] m IH]; simpl; [done|].
  destruct (String.eqb_spec k k'); [done|]. intros Hg. by rewrite IH.
Qed.

Lemma set_present k v m1 m2 v0 :
  JsMap.get k m1 = None ->
  JsMap.set k v (m1 ++ (k, v0) :: m2) = (m1 ++ (k, v) :: m2)%list.
Proof.
  induction m1 as [|[k' v'] m1 IH]; simpl.
  - by rewrite String.eqb_refl.
  - destruct (String.eqb_spec k k'); [done|]. intros Hg. by rewrite IH.
Qed.

Lemma delete_absent k m : JsMap.get k m = None -> JsMap.delete k m = m.
Proof.
  induction m as [|[k' v'] m IH]; simpl; [done|].
  destruct (String.eqb_spec k k'); [done|]. intros Hg. by rewrite IH.
Qed.

Lemma delete_present k m1 m2 v0 :
  JsMap.get k m1 = None ->
  JsMap.delete k (m1 ++ (k, v0) :: m2) = (m1 ++ m2)%list.
Proof.
  induction m1 as [|[k' v'] m1 IH]; simpl.
  - by rewrite String.eqb_refl.
  - destruct (String.eqb_spec k k'); [done|]. intros Hg. by rewrite IH.
Qed.

Lemma get_set_eq k v m : JsMap.get k (JsMap.set k v m) = Some v.
Proof.
  induction m as [|[k' v'] m IH]; simpl.
  - by rewrite String.eqb_refl.
  - destruct (String.eqb_spec k k') as [->|Hne]; simpl.
    + by rewrite String.eqb_refl.
    + by destruct (String.eqb_spec k k').
Qed.

Lemma get_set_ne k k' v m :
  k <> k' -> JsMap.get k' (JsMap.set k v m) = JsMap.get k' m.
Proof.
  intros Hne. induction m as [|[k0 v0] m IH]; simpl.
  - by destruct (String.eqb_spec k' k); [subst|].
  - destruct (String.eqb_spec k k0) as [->|Hne0]; simpl.
    + by destruct (String.eqb_spec k' k0); [subst|].
    + by rewrite IH.
Qed.

Lemma get_elem_of k m v : JsMap.get k m = Some v -> (k, v) ∈ m.
Proof.
  intros (m1 & m2 & -> & _)%get_split. apply elem_of_app. right. by left.
Qed.

Lemma get_None_keys k m : JsMap.get k m = None <-> k ∉ JsMap.keys m.
Proof.
  induction m as [|[k' v'] m IH]; simpl.
  - split; [intros _ Hin; by apply elem_of_nil in Hin | done].
  - rewrite not_elem_of_cons. destruct (String.eqb_spec k k') as [->|Hne].
    + split; [done | by intros [? _]].
    + rewrite IH. tauto.
Qed.

Lemma keys_set k v m :
  JsMap.keys (JsMap.set k v m)
  = match JsMap.get k m with
    | Some _ => JsMap.keys m
    | None => (JsMap.keys m ++ [k])%list
    end.
Proof.
  destruct (JsMap.get k m) as [v0|] eqn:E.
  - destruct (get_split _ _ _ E) as (m1 & m2 & -> & Hm1).
    rewrite set_present by done.
    unfold JsMap.keys. by rewrite !map_app.
  - rewrite set_absent by done. unfold JsMap.keys. by rewrite map_app.
Qed.

Lemma keys_set_NoDup k v m :
  NoDup (JsMap.keys m) -> NoDup (JsMap.keys (JsMap.set k v m)).
Proof.
  intros Hnd. rewrite keys_set. destruct (JsMap.get k m) eqn:E; [done|].
  apply get_None_keys in E.
  apply NoDup_app. split; [done|]. split.
  - by intros x Hx ->%list_elem_of_singleton.
  - apply NoDup_singleton.
Qed.

Lemma delete_sublist k m : sublist (JsMap.delete k m) m.
Proof.
  induction m as [|[k' v'] m IH]; simpl; [done|].
  destruct (String.eqb_spec k k').
  - by apply sublist_cons.
  - by apply sublist_skip.
Qed.

Lemma keys_delete_NoDup k m :
  NoDup (JsMap.keys m) -> NoDup (JsMap.keys (JsMap.delete k m)).
Proof.
  intros Hnd. unfold JsMap.keys in *.
  eapply sublist_NoDup; [exact Hnd | apply sublist_map, delete_sublist].
Qed.

Lemma get_delete_ne k k' m :
  k <> k' -> JsMap.get k' (JsMap.delete k m) = JsMap.get k' m.
Proof.
  intros Hne. induction m as [|[k0 v0] m IH]; simpl; [done|].
  destruct (String.eqb_spec k k0) as [->|Hne0]; simpl.
  - by destruct (String.eqb_spec k' k0); [subst|].
  - by rewrite IH.
Qed.

(** The values after a [set]: the new value replaces the old one in place,
    or goes last. *)
Lemma values_set k v m :
  (exists (l1 : list V) v0 (l2 : list V),
      JsMap.get k m = Some v0
      /\ JsMap.values m = (l1 ++ v0 :: l2)%list
      /\ JsMap.values (JsMap.set k v m) = (l1 ++ v :: l2)%list)
  \/ (JsMap.get k m = None
      /\ JsMap.values (JsMap.set k v m) = (JsMap.values m ++ [v])%list).
Proof.
  destruct (JsMap.get k m) as [v0|] eqn:E.
  - left. destruct (get_split _ _ _ E) as (m1 & m2 & -> & Hm1).
    exists (JsMap.values m1), v0, (JsMap.values m2).
    rewrite set_present by done.
    unfold JsMap.values. by rewrite !map_app.
  - right. rewrite set_absent by done. unfold JsMap.values. by rewrite map_app.
Qed.

Lemma values_delete_sublist k m :
  sublist (JsMap.values (JsMap.delete k m)) (JsMap.values m).
Proof. unfold JsMap.values. apply sublist_map, delete_sublist. Qed.

Lemma values_map_snd (f : V -> V) m :
  JsMap.values (List.map (fun kp => (fst kp, f (snd kp))) m)
  = List.map f (JsMap.values m).
Proof. unfold JsMap.values. rewrite !List.map_map. done. Qed.

Lemma get_map_snd (f : V -> V) k m :
  JsMap.get k (List.map (fun kp => (fst kp, f (snd kp))) m)
  = f <$> JsMap.get k m.
Proof.
  induction m as [|[k' v'] m IH]; simpl; [done|].
  by destruct (String.eqb_spec k k').
Qed.

End MapFacts.

(* ===================================================================== *)
(** ** Facts about strings and about [ensureUniqueName] *)
(* ===================================================================== *)

Section StringFacts.

Open Scope string_scope.

Lemma toLowerCase_app a b :
  toLowerCase (a ++ b) = toLowerCase a ++ toLowerCase b.
Proof. induction a as [|c a IH]; simpl; [done | by rewrite IH]. Qed.

Lemma toLowerCase_length a : String.length (toLowerCase a) = String.length a.
Proof. induction a as [|c a IH]; simpl; [done | by rewrite IH]. Qed.

Lemma toLowerCase_digits d :
  toLowerCase (NilEmpty.string_of_uint d) = NilEmpty.string_of_uint d.
Proof. induction d; simpl; by f_equal. Qed.

Lemma decimal_inj a b : decimal a = decimal b -> a = b.
Proof.
  unfold decimal. intros E.
  apply (f_equal NilEmpty.uint_of_string) in E.
  rewrite !NilEmpty.usu in E. injection E as E.
  apply (f_equal Nat.of_uint) in E.
  by rewrite !DecimalNat.Unsigned.of_to in E.
Qed.

Lemma append_inv_head a b c : a ++ b = a ++ c -> b = c.
Proof. induction a as [|x a IH]; simpl; [done|]. intros [= E]. by apply IH. Qed.

Lemma append_length a b :
  String.length (a ++ b) = String.length a + String.length b.
Proof. induction a as [|x a IH]; simpl; [done | by rewrite IH]. Qed.

Lemma toLowerCase_suffixed base i :
  toLowerCase (suffixed base i) = toLowerCase base ++ " #" ++ decimal i.
Proof.
  unfold suffixed, decimal. by rewrite !toLowerCase_app, toLowerCase_digits.
Qed.

(** Equality with letter case ignored is equality of the lower-case forms:
    checked on every pair of code units. *)
Lemma all_ascii_complete c : In c all_ascii.
Proof.
  unfold all_ascii. apply in_map_iff. exists (nat_of_ascii c).
  split; [apply ascii_nat_embedding|].
  apply in_seq. pose proof (nat_ascii_bounded c). lia.
Qed.

Lemma same_letter_lower c d :
  same_letter c d = Ascii.eqb (lower_char c) (lower_char d).
Proof.
  assert (Hall : forallb (fun c =>
                   forallb (fun d =>
                     Bool.eqb (same_letter c d)
                              (Ascii.eqb (lower_char c) (lower_char d)))
                           all_ascii) all_ascii = true)
    by (vm_compute; reflexivity).
  pose proof (proj1 (forallb_forall _ _) Hall c (all_ascii_complete c)) as Hc.
  pose proof (proj1 (forallb_forall _ _) Hc d (all_ascii_complete d)) as Hd.
  by apply eqb_prop.
Qed.

Lemma equal_ignoring_case_lower a b :
  equal_ignoring_case a b = true <-> toLowerCase a = toLowerCase b.
Proof.
  revert b. induction a as [|c a IH]; intros [|d b]; simpl; try done.
  rewrite andb_true_iff, same_letter_lower, IH, Ascii.eqb_eq.
  split; [by intros [-> ->] | by intros [= -> ->]].
Qed.

Lemma equal_ignoring_case_false a b :
  equal_ignoring_case a b = false <-> toLowerCase a <> toLowerCase b.
Proof.
  rewrite <- equal_ignoring_case_lower. by destruct (equal_ignoring_case a b).
Qed.

(** Two different candidates differ, letter case ignored. *)
Lemma candidate_lower_inj base j k :
  toLowerCase (candidate base j) = toLowerCase (candidate base k) -> j = k.
Proof.
  destruct j as [|j], k as [|k]; simpl; [done| | |].
  - rewrite toLowerCase_suffixed. intros E.
    apply (f_equal String.length) in E.
    rewrite append_length in E. simpl in E. lia.
  - rewrite toLowerCase_suffixed. intros E.
    apply (f_equal String.length) in E.
    rewrite append_length in E. simpl in E. lia.
  - rewrite !toLowerCase_suffixed. intros E%append_inv_head.
    simpl in E. injection E as E. apply decimal_inj in E. lia.
Qed.

Lemma NoDup_map_seq {A : Type} (f : nat -> A) a n :
  (forall i j, f i = f j -> i = j) -> NoDup (List.map f (seq a n)).
Proof.
  intros Hinj. revert a. induction n as [|n IH]; intros a; simpl.
  - constructor.
  - constructor; [|apply IH].
    rewrite elem_of_map. intros (x & E & Hx).
    apply Hinj in E. subst x. apply list_elem_of_In, in_seq in Hx. lia.
Qed.

(** Among the first [length names + 1] candidates one is free. *)
Lemma candidate_free_exists (names : list string) base :
  exists m, m <= List.length names /\ toLowerCase (candidate base m) ∉ names.
Proof.
  destruct (decide (Forall (fun k => toLowerCase (candidate base k) ∈ names)
                           (seq 0 (S (List.length names))))) as [Hall|Hex].
  - exfalso.
    assert (Hnd : NoDup (List.map (fun k => toLowerCase (candidate base k))
                                  (seq 0 (S (List.length names)))))
      by (apply NoDup_map_seq; intros i j; apply candidate_lower_inj).
    assert (Hsub : forall x,
               x ∈ List.map (fun k => toLowerCase (candidate base k))
                            (seq 0 (S (List.length names))) -> x ∈ names).
    { intros x (k & -> & Hk)%elem_of_map.
      rewrite Forall_forall in Hall. by apply Hall. }
    pose proof (submseteq_length _ _ (NoDup_submseteq _ _ Hnd Hsub)) as Hlen.
    rewrite List.length_map, length_seq in Hlen. lia.
  - apply not_Forall_Exists in Hex; [|intros; apply _].
    apply Exists_exists in Hex as (m & Hm & Hfree).
    exists m. split; [|done].
    apply list_elem_of_In, in_seq in Hm. lia.
Qed.

(** Hence a first free candidate exists. *)
Lemma candidate_first_free (names : list string) base :
  exists m, m <= List.length names
            /\ (toLowerCase (candidate base m) ∉ names)
            /\ (forall j, j < m -> toLowerCase (candidate base j) ∈ names).
Proof.
  destruct (candidate_free_exists names base) as (m0 & Hm0 & Hfree0).
  revert Hm0 Hfree0. induction m0 as [m0 IH] using lt_wf_ind. intros Hm0 Hfree0.
  destruct (decide (Forall (fun j => toLowerCase (candidate base j) ∈ names)
                           (seq 0 m0))) as [Hall|Hex].
  - exists m0. split; [done|]. split; [done|].
    intros j Hj. rewrite Forall_forall in Hall. apply Hall.
    apply list_elem_of_In, in_seq. lia.
  - apply not_Forall_Exists in Hex; [|intros; apply _].
    apply Exists_exists in Hex as (m & Hm & Hfree).
    apply list_elem_of_In, in_seq in Hm.
    apply (IH m); [lia | lia | done].
Qed.

(** The loop returns the first free candidate when its fuel reaches it. *)
Lemma unique_loop_first (names : list string) base m :
  toLowerCase (candidate base m) ∉ names ->
  (forall j, j < m -> toLowerCase (candidate base j) ∈ names) ->
  forall fuel k, k <= m -> m < k + fuel ->
    unique_loop names base (candidate base k) (k + 2) fuel = candidate base m.
Proof.
  intros Hfree Htaken. induction fuel as [|fuel IH]; intros k Hk Hlt; [lia|].
  simpl. case_bool_decide as Hin.
  - destruct (decide (k = m)) as [->|Hne]; [done|].
    replace (suffixed base (k + 2)) with (candidate base (S k))
      by (simpl; f_equal; lia).
    replace (S (k + 2)) with (S k + 2) by lia.
    apply IH; lia.
  - destruct (decide (k = m)) as [->|Hne]; [done|].
    exfalso. apply Hin, Htaken. lia.
Qed.

(** More fuel than [length names + 1] changes nothing: the loop has left by
    then. *)
Lemma unique_loop_fuel (names : list string) base extra :
  unique_loop names base base 2 (S (List.length names) + extra)
  = unique_loop names base base 2 (S (List.length names)).
Proof.
  destruct (candidate_first_free names base) as (m & Hm & Hfree & Htaken).
  rewrite (unique_loop_first names base m Hfree Htaken _ 0) by lia.
  rewrite (unique_loop_first names base m Hfree Htaken _ 0) by lia. done.
Qed.

End StringFacts.

Section UniqueName.
Context `{Builtins}.

(** [ensureUniqueName] returns the first candidate that collides with no
    player. *)
Lemma ensureUniqueName_first g desired :
  exists m,
    ensureUniqueName g desired = candidate (sanitizeName desired) m
    /\ ~ taken g (candidate (sanitizeName desired) m)
    /\ forall j, j < m -> taken g (candidate (sanitizeName desired) j).
Proof.
  destruct (candidate_first_free (lower_names g) (sanitizeName desired))
    as (m & Hm & Hfree & Htaken).
  exists m. split; [|done].
  unfold ensureUniqueName.
  apply (unique_loop_first _ _ m Hfree Htaken _ 0); lia.
Qed.

Lemma ensureUniqueName_free g desired : ~ taken g (ensureUniqueName g desired).
Proof.
  destruct (ensureUniqueName_first g desired) as (m & -> & Hfree & _). done.
Qed.

End UniqueName.

(* ===================================================================== *)
(** ** Facts about the helpers *)
(* ===================================================================== *)

Section HelperFacts.
Context `{Builtins}.

Lemma startQuestion_game r g now g' out tm :
  startQuestion r g now = Some (g', out, tm) ->
  g' = Game.mk (Game.code g) (Game.hostId g)
         (List.map (fun kp => (fst kp, Player.clear_answer (snd kp))) (Game.players g))
         (Game.questions g) question (Game.currentIndex g) (Some now) 0
  /\ tm_game tm = r /\ tm_idx tm = Game.currentIndex g.
Proof.
  unfold startQuestion. destruct (Game.questions g !! _); [|done].
  simpl. intros [= <- <- <-]. done.
Qed.


Lemma startQuestion_is_Some r g now :
  Game.currentIndex g < List.length (Game.questions g) ->
  is_Some (startQuestion r g now).
Proof.
  intros Hlt. unfold startQuestion.
  destruct (lookup_lt_is_Some_2 _ _ Hlt) as [q ->]. by eexists.
Qed.

Lemma revealAnswer_game g g' out :
  revealAnswer g = Some (g', out) ->
  exists q, Game.questions g !! Game.currentIndex g = Some q
    /\ g' = Game.mk (Game.code g) (Game.hostId g)
              (List.map (fun kp => (fst kp, score_player q (Game.questionStart g) (snd kp)))
                        (Game.players g))
              (Game.questions g) reveal (Game.currentIndex g)
              (Game.questionStart g) (Game.answersSubmitted g).
Proof.
  unfold revealAnswer. destruct (Game.questions g !! _) as [q|]; [|done].
  simpl. intros [= <- <-]. by exists q.
Qed.

Lemma revealAnswer_is_Some g q :
  Game.questions g !! Game.currentIndex g = Some q -> is_Some (revealAnswer g).
Proof. intros Hq. unfold revealAnswer. rewrite Hq. by eexists. Qed.

Lemma score_player_name q start p :
  Player.name (score_player q start p) = Player.name p.
Proof. unfold score_player. by case_match. Qed.

Lemma score_player_answer q start p :
  Player.answered (score_player q start p) = Player.answered p
  /\ Player.answerIndex (score_player q start p) = Player.answerIndex p
  /\ Player.answerTime (score_player q start p) = Player.answerTime p
  /\ Player.id (score_player q start p) = Player.id p.
Proof. unfold score_player. by case_match. Qed.

(** The bonus of a correct answer, as the loop computes it. *)
Lemma score_player_correct q start p t sc :
  recorded_correct q p = true ->
  is_fin (Question.timeLimitSec q) t -> (0 < t)%Q ->
  is_fin (Player.score p) sc ->
  is_fin (Player.score (score_player q start p))
    (sc + (500 + inject_Z (Qfloor
       (1000 * (Qmax 0 (t - Qmax 0 ((inject_Z (default 0%Z (Player.answerTime p))
                                     - inject_Z (default 0%Z start)) / 1000)) / t)
        + (1 # 2)))))%Q.
Proof.
  unfold recorded_correct, score_player. intros -> Ht Hpos Hsc.
  unfold Player.add_score. cbn [Player.score].
  apply add_fin; [done|]. apply add_fin; [apply is_fin_Fin|].
  apply round_fin. apply mul_fin; [apply is_fin_Fin|].
  apply div_fin; [|done|lra].
  apply max_fin; [apply is_fin_Fin|]. apply sub_fin; [done|].
  apply max_fin; [apply is_fin_Fin|]. apply div_fin; [|apply is_fin_Fin|lra].
  apply sub_fin; apply is_fin_of_Z.
Qed.

Lemma score_player_wrong q start p :
  recorded_correct q p = false -> score_player q start p = p.
Proof. unfold recorded_correct, score_player. by intros ->. Qed.

Lemma score_player_wf q start p :
  wf_question q -> wf_player p -> wf_player (score_player q start p).
Proof.
  intros [_ (t & Ht & Hr)] [Hfin Hans].
  destruct (recorded_correct q p) eqn:E.
  - split.
    + destruct (finite_is_fin _ Hfin) as [sc Hsc].
      eapply is_fin_finite, score_player_correct; eauto.
      * rewrite Ht. apply is_fin_Fin.
      * lra.
    + destruct (score_player_answer q start p) as (-> & -> & -> & _). done.
  - by rewrite score_player_wrong.
Qed.

Lemma clear_answer_wf p : wf_player p -> wf_player (Player.clear_answer p).
Proof. intros [Hfin _]. split; [done|]. simpl. done. Qed.

Lemma lower_names_map (f : Player.t -> Player.t) (ps : list (string * Player.t)) :
  (forall p, Player.name (f p) = Player.name p) ->
  List.map (fun p => toLowerCase (Player.name p))
    (JsMap.values (List.map (fun kp => (fst kp, f (snd kp))) ps))
  = List.map (fun p => toLowerCase (Player.name p)) (JsMap.values ps).
Proof.
  intros Hf. rewrite values_map_snd, List.map_map.
  apply List.map_ext. intros p. by rewrite Hf.
Qed.

Lemma Forall_values_map (P : Player.t -> Prop) (f : Player.t -> Player.t)
    (ps : list (string * Player.t)) :
  (forall p, P p -> P (f p)) ->
  Forall P (JsMap.values ps) ->
  Forall P (JsMap.values (List.map (fun kp => (fst kp, f (snd kp))) ps)).
Proof.
  intros Hf. rewrite values_map_snd. intros Hall.
  rewrite Forall_forall in Hall. apply Forall_forall.
  intros y (x & -> & Hx)%elem_of_map. by apply Hf, Hall.
Qed.

(** What [sanitizeQuestion] read and converted when it returns. *)
Lemma sanitizeQuestion_Some v q :
  sanitizeQuestion v = Some q ->
  exists prompt options correctIndex timeLimitSec p os c t,
    get_prop v "prompt" = Some prompt
    /\ ToString (js_or prompt (VStr "")) = Some p
    /\ get_prop v "options" = Some options
    /\ match options with
       | VArr l => mapM (fun o => slice0 120 <$> ToString o) (firstn 4 l)
       | _ => Some ["A"; "B"; "C"; "D"]
       end = Some os
    /\ get_prop v "correctIndex" = Some correctIndex
    /\ Number correctIndex = Some c
    /\ get_prop v "timeLimitSec" = Some timeLimitSec
    /\ Number timeLimitSec = Some t
    /\ q = Question.mk (slice0 300 p) os
             (Math_min (Fin 3) (Math_max (Fin 0) (JsNum.or c (Fin 0))))
             (Math_min (Fin 120) (Math_max (Fin 5) (JsNum.or t (Fin 20)))).
Proof.
  unfold sanitizeQuestion. intros Hs.
  destruct (get_prop v "prompt") as [prompt|]; [|done]; simpl in Hs.
  destruct (ToString (js_or prompt (VStr ""))) as [p|] eqn:Ep; [|done];
    simpl in Hs.
  destruct (get_prop v "options") as [options|]; [|done]; simpl in Hs.
  destruct (match options with VArr _ => _ | _ => _ end) as [os|] eqn:Eos;
    [|done]; simpl in Hs.
  destruct (get_prop v "correctIndex") as [correctIndex|]; [|done]; simpl in Hs.
  destruct (Number correctIndex) as [c|] eqn:Ec; [|done]; simpl in Hs.
  destruct (get_prop v "timeLimitSec") as [timeLimitSec|]; [|done]; simpl in Hs.
  destruct (Number timeLimitSec) as [t|] eqn:Et; [|done]; simpl in Hs.
  injection Hs as <-.
  exists prompt, options, correctIndex, timeLimitSec, p, os, c, t. done.
Qed.

(** Every element of a sanitized list is well formed. *)
Lemma sanitizeQuestion_wf v q : sanitizeQuestion v = Some q -> wf_question q.
Proof.
  intros (? & ? & ? & ? & p & os & c & t & _ & _ & _ & _ & _ & _ & _ & _ & ->)
    %sanitizeQuestion_Some.
  split; simpl.
  - apply min_max_range; [lra | apply or_not_nan].
  - apply min_max_range; [lra | apply or_not_nan].
Qed.

Lemma mapM_sanitize_wf l qs :
  mapM sanitizeQuestion l = Some qs -> Forall wf_question qs.
Proof.
  intros Hm. apply mapM_Some in Hm.
  induction Hm; constructor; eauto using sanitizeQuestion_wf.
Qed.

Lemma answer_index_range index idx :
  answer_index index = Some idx -> in_range 0 3 idx.
Proof.
  unfold answer_index. destruct (Number index) as [n|]; [|done].
  intros [= <-]. apply max_min_range; [lra | apply or_not_nan].
Qed.

Lemma answer_index_is_Some index :
  is_Some (answer_index index) <-> is_Some (Number index).
Proof.
  unfold answer_index. destruct (Number index); simpl; [|done].
  split; by eexists.
Qed.

(** Induction on a value, with the elements of an array and the properties
    of an object. *)
Lemma jsval_induction (P : jsval -> Prop) :
  P VUndefined -> P VNull -> (forall b, P (VBool b)) -> (forall n, P (VNum n)) ->
  (forall s, P (VStr s)) ->
  (forall l, Forall P l -> P (VArr l)) ->
  (forall fields, Forall (fun kv => P (snd kv)) fields -> P (VObj fields)) ->
  forall v, P v.
Proof.
  intros Hu Hn Hb Hnum Hs Ha Ho.
  fix IH 1.
  intros [| |b|n|s|l|fields];
    [exact Hu | exact Hn | apply Hb | apply Hnum | apply Hs | |].
  - apply Ha. induction l as [|x l IHl]; constructor; [apply IH | exact IHl].
  - apply Ho. induction fields as [|[k x] fields IHf]; constructor;
      [apply IH | exact IHf].
Qed.

(** A plain value converts. *)
Lemma plain_ToString v : plain v = true -> is_Some (ToString v).
Proof.
  induction v as [| |b|n|s|l IH|fields _] using jsval_induction;
    try (by eexists); try (by destruct b; eexists); intros Hp.
  - simpl. apply fmap_is_Some, mapM_is_Some.
    simpl in Hp. pose proof (proj1 (forallb_forall _ _) Hp) as Hp'.
    rewrite Forall_forall in IH |- *. intros x Hx.
    specialize (IH x Hx (Hp' x (proj1 (list_elem_of_In _ _) Hx))).
    by destruct x; try (by eexists).
  - simpl in *. apply andb_true_iff in Hp as [Hp _].
    apply negb_true_iff in Hp. rewrite Hp. by eexists.
Qed.

Lemma plain_Number v : plain v = true -> is_Some (Number v).
Proof.
  intros Hp. destruct v as [| |b|n|s|l|fields]; try (by eexists);
    try (by destruct b; eexists).
  - apply fmap_is_Some. by apply plain_ToString.
  - apply fmap_is_Some. by apply plain_ToString.
Qed.

Lemma plain_get_prop v k x :
  plain v = true -> get_prop v k = Some x -> plain x = true.
Proof.
  intros Hp Hx. destruct v as [| |b|n|s|l|fields]; simpl in Hx;
    try done; try (by injection Hx as <-).
  injection Hx as <-. simpl in Hp. apply andb_true_iff in Hp as [_ Hp].
  induction fields as [|[k' y] fields IHf]; simpl; [done|].
  simpl in Hp. apply andb_true_iff in Hp as [Hy Hp].
  destruct (String.eqb k k'); simpl; [done | by apply IHf].
Qed.

Lemma plain_elements l x : plain (VArr l) = true -> x ∈ l -> plain x = true.
Proof.
  simpl. intros Hp Hx. pose proof (proj1 (forallb_forall _ _) Hp) as Hp'.
  by apply Hp', list_elem_of_In.
Qed.

Lemma plain_js_or a b : plain a = true -> plain b = true -> plain (js_or a b) = true.
Proof. intros Ha Hb. unfold js_or. by destruct (js_truthy a). Qed.

(** An object that has a [toString] of its own does not convert. *)
Lemma ToString_own_toString fields :
  JsMap.has "toString" fields = true -> ToString (VObj fields) = None.
Proof. simpl. by intros ->. Qed.

Lemma Number_own_toString fields :
  JsMap.has "toString" fields = true -> Number (VObj fields) = None.
Proof. simpl. by intros ->. Qed.

Lemma new_game_wf sock pin : wf_game (new_game sock pin).
Proof.
  repeat split; simpl; try done; try constructor.
Qed.

End HelperFacts.

(* ===================================================================== *)
(** ** How a step changes the store *)
(* ===================================================================== *)

Section Effects.
Context `{Builtins}.

Open Scope string_scope.

Lemma find_game_heap s code r g :
  find_game s code = Some (r, g) -> heap s !! r = Some g.
Proof.
  unfold find_game. intros Hf. repeat case_match; simplify_eq. done.
Qed.

Lemma find_game_registered s code r g :
  find_game s code = Some (r, g) ->
  exists c, code = VStr c /\ JsMap.get c (games s) = Some r.
Proof.
  unfold find_game. intros Hf. repeat case_match; simplify_eq. eauto.
Qed.

Lemma first_joined_heap sid hp gs r g :
  first_joined sid hp gs = Some (r, g) -> hp !! r = Some g.
Proof.
  induction gs as [|[c r0] gs IH]; simpl; [done|].
  destruct (hp !! r0) eqn:E; [|done].
  case_match; [|done]. intros; simplify_eq. done.
Qed.

Lemma heap_arm_put tm r g s : heap (arm tm (put_game r g s)) = heap (put_game r g s).
Proof. done. Qed.

Lemma endGame_fst g : fst (endGame g) = Game.set_state ended g.
Proof. done. Qed.

Opaque startQuestion revealAnswer endGame ensureUniqueName.

Lemma step_store s i s' out : step s i = Some (s', out) -> store_change s i s'.
Proof.
  intros Hstep.
  destruct i; simpl in Hstep.
  - unfold host_createGame in Hstep. case_match; simplify_eq.
    + by apply sc_same.
    + eapply sc_new; eauto. by apply negb_false_iff.
  - unfold host_startGame in Hstep.
    destruct (get_prop payload "code") as [code|]; [|done]; simpl in Hstep.
    destruct (get_prop payload "questions") as [qv|] eqn:Hqv; [|done]; simpl in Hstep.
    destruct (negb (isHost sock)) eqn:Hh; [simplify_eq; by apply sc_same|].
    apply negb_false_iff in Hh.
    destruct (find_game s code) as [[r0 g0]|] eqn:Hf; [|simplify_eq; by apply sc_same].
    apply find_game_heap in Hf.
    destruct (negb (Game.hostId g0 =? sock_id sock)%string) eqn:Ho;
      [simplify_eq; by apply sc_same|].
    apply negb_false_iff, String.eqb_eq in Ho.
    destruct (mapM sanitizeQuestion _) as [qs|] eqn:Hm; [|done]; simpl in Hstep.
    destruct qs as [|q0 qs]; simpl in Hstep.
    + simplify_eq. eapply sc_put; eauto. by constructor.
    + destruct (startQuestion _ _ _) as [[[g4 o4] tm]|] eqn:Hs; [|done].
      simpl in Hstep. simplify_eq.
      eapply sc_put; eauto.
      destruct qv; try (simpl in Hm; by simplify_eq).
      eapply eff_start; eauto. done.
  - unfold host_next in Hstep.
    destruct (get_prop payload "code") as [code|]; [|done]; simpl in Hstep.
    destruct (negb (isHost sock)) eqn:Hh; [simplify_eq; by apply sc_same|].
    apply negb_false_iff in Hh.
    destruct (find_game s code) as [[r0 g0]|] eqn:Hf; [|simplify_eq; by apply sc_same].
    apply find_game_heap in Hf.
    destruct (negb (Game.hostId g0 =? sock_id sock)%string) eqn:Ho;
      [simplify_eq; by apply sc_same|].
    apply negb_false_iff, String.eqb_eq in Ho.
    case_bool_decide as Hq; [simplify_eq; by apply sc_same|].
    destruct (_ <=? _)%nat eqn:Hl.
    + apply Nat.leb_le in Hl.
      destruct (endGame g0) as [g1 o1] eqn:He. simplify_eq.
      eapply sc_put; eauto.
      replace g1 with (fst (endGame g0)) by (by rewrite He). by apply eff_next_end.
    + apply Nat.leb_gt in Hl.
      destruct (startQuestion _ _ _) as [[[g4 o4] tm]|] eqn:Hs; [|done].
      simpl in Hstep. simplify_eq.
      eapply sc_put; eauto. eapply eff_next; eauto. done.
  - unfold host_end in Hstep.
    destruct (get_prop payload "code") as [code|]; [|done]; simpl in Hstep.
    destruct (negb (isHost sock)) eqn:Hh; [simplify_eq; by apply sc_same|].
    apply negb_false_iff in Hh.
    destruct (find_game s code) as [[r0 g0]|] eqn:Hf; [|simplify_eq; by apply sc_same].
    apply find_game_heap in Hf.
    destruct (negb (Game.hostId g0 =? sock_id sock)%string) eqn:Ho;
      [simplify_eq; by apply sc_same|].
    apply negb_false_iff, String.eqb_eq in Ho.
    destruct (endGame g0) as [g1 o1] eqn:He. simplify_eq.
    eapply sc_put; eauto.
    replace g1 with (fst (endGame g0)) by (by rewrite He). by apply eff_end.
  - unfold player_join in Hstep.
    destruct (get_prop payload "code") as [code|]; [|done]; simpl in Hstep.
    destruct (get_prop payload "name") as [name|] eqn:Hn; [|done]; simpl in Hstep.
    destruct (find_game s code) as [[r0 g0]|] eqn:Hf; [|simplify_eq; by apply sc_same].
    apply find_game_heap in Hf.
    case_bool_decide as Hq; simpl in Hstep; [|simplify_eq; by apply sc_same].
    simplify_eq. eapply sc_put; eauto. by apply eff_join.
  - unfold player_answer in Hstep.
    destruct (get_prop payload "code") as [code|]; [|done]; simpl in Hstep.
    destruct (get_prop payload "index") as [index|] eqn:Hn; [|done]; simpl in Hstep.
    destruct (find_game s code) as [[r0 g0]|] eqn:Hf; [|simplify_eq; by apply sc_same].
    apply find_game_heap in Hf.
    destruct (JsMap.get _ _) as [player|] eqn:Hp; [|simplify_eq; by apply sc_same].
    case_bool_decide as Hq; simpl in Hstep; [|simplify_eq; by apply sc_same].
    destruct (Game.questions g0 !! _) as [q|] eqn:Hcq; [|done]; simpl in Hstep.
    destruct (JsNum.gtb _ _) eqn:Hlate; [simplify_eq; by apply sc_same|].
    destruct (Player.answered player) eqn:Ha; [simplify_eq; by apply sc_same|].
    destruct (answer_index index) as [idx|] eqn:Hidx; [|done]; simpl in Hstep.
    simplify_eq. eapply sc_put; eauto. by eapply eff_answer.
  - unfold host_join in Hstep.
    destruct (get_prop payload "code") as [code|]; [|done]; simpl in Hstep.
    repeat case_match; simplify_eq; by apply sc_same.
  - unfold disconnect in Hstep.
    destruct (first_hosted _ _ _) as [code|]; [simplify_eq; by eapply sc_drop|].
    destruct (first_joined _ _ _) as [[r0 g0]|] eqn:Hf; [|simplify_eq; by apply sc_same].
    apply first_joined_heap in Hf.
    simplify_eq. eapply sc_put; eauto. by apply eff_leave.
  - unfold timeout in Hstep.
    destruct (timers s !! k) as [tm|]; [|simplify_eq; by apply sc_same].
    destruct (heap s !! tm_game tm) as [g0|] eqn:Hg0; [|simplify_eq; by apply sc_same].
    destruct (bool_decide _ && _) eqn:Hguard; [|simplify_eq; by apply sc_same].
    apply andb_true_iff in Hguard as [Hst Hidx].
    apply bool_decide_eq_true in Hst.
    destruct (revealAnswer g0) as [[g1 o1]|] eqn:Hrev; [|done].
    simpl in Hstep. simplify_eq.
    eapply sc_put; eauto. by eapply eff_reveal.
Qed.

Transparent startQuestion revealAnswer endGame ensureUniqueName.

(** Every object of the store is still there after a step, changed by an
    effect of the input at most. *)
Lemma step_effect s i s' out r g :
  step s i = Some (s', out) -> heap s !! r = Some g ->
  exists g', heap s' !! r = Some g' /\ effect g i g'.
Proof.
  intros Hstep Hr.
  destruct (step_store _ _ _ _ Hstep)
    as [E _|r0 g0 g1 H0 He E _|sock pin -> _ E _|sock code -> E _]; rewrite E.
  - exists g. split; [done | constructor].
  - destruct (decide (r = r0)) as [->|Hne].
    + simplify_eq. exists g1. split; [|done].
      apply list_lookup_insert_eq. by eapply lookup_lt_Some.
    + exists g. split; [by rewrite list_lookup_insert_ne | constructor].
  - exists g. split; [by apply lookup_app_l_Some | constructor].
  - exists g. split; [done | constructor].
Qed.

(** Every object of the store after a step was there before, or is the new
    game of a create. *)
Lemma step_origin s i s' out r g' :
  step s i = Some (s', out) -> heap s' !! r = Some g' ->
  (exists g, heap s !! r = Some g /\ effect g i g')
  \/ (exists sock pin, i = HostCreateGame sock pin /\ g' = new_game sock pin).
Proof.
  intros Hstep Hr.
  destruct (step_store _ _ _ _ Hstep)
    as [E _|r0 g0 g1 H0 He E _|sock pin -> _ E _|sock code -> E _];
    rewrite E in Hr.
  - left. exists g'. split; [done | constructor].
  - left. destruct (decide (r = r0)) as [->|Hne].
    + rewrite list_lookup_insert_eq in Hr by (by eapply lookup_lt_Some).
      simplify_eq. eauto.
    + rewrite list_lookup_insert_ne in Hr by done.
      exists g'. split; [done | constructor].
  - apply lookup_app_Some in Hr as [Hr|[_ Hr]].
    + left. exists g'. split; [done | constructor].
    + right. apply list_lookup_singleton_Some in Hr as [_ <-]. eauto.
  - left. exists g'. split; [done | constructor].
Qed.

Lemma step_heap_length s i s' out :
  step s i = Some (s', out) -> List.length (heap s) <= List.length (heap s').
Proof.
  intros Hstep.
  destruct (step_store _ _ _ _ Hstep)
    as [E _|r0 g0 g1 H0 He E _|sock pin -> _ E _|sock code -> E _]; rewrite E.
  - done.
  - by rewrite length_insert.
  - rewrite length_app. simpl. lia.
  - done.
Qed.

End Effects.

(* ===================================================================== *)
(** ** Invariants of the reachable states *)
(* ===================================================================== *)

Section Invariants.
Context `{Builtins}.

Lemma NoDup_replace {A : Type} (l1 l2 : list A) (x y : A) :
  NoDup (l1 ++ x :: l2) -> y ∉ (l1 ++ x :: l2)%list -> NoDup (l1 ++ y :: l2).
Proof.
  rewrite !NoDup_app, !NoDup_cons, !not_elem_of_app, !not_elem_of_cons.
  intros (H1 & H12 & Hx & H2) (Hy1 & Hyx & Hy2).
  split; [done|]. split; [|done].
  intros z Hz [->|Hz2]%elem_of_cons; [done|].
  apply (H12 z Hz). by right.
Qed.

Lemma Forall_replace {A : Type} (P : A -> Prop) (l1 l2 : list A) (x y : A) :
  Forall P (l1 ++ x :: l2) -> P y -> Forall P (l1 ++ y :: l2).
Proof.
  rewrite !Forall_app, !Forall_cons. tauto.
Qed.

Lemma Forall_sublist {A : Type} (P : A -> Prop) (l1 l2 : list A) :
  sublist l1 l2 -> Forall P l2 -> Forall P l1.
Proof.
  induction 1; intros Hall; [done| |].
  - apply Forall_cons in Hall as [? ?]. constructor; auto.
  - apply Forall_cons in Hall as [? ?]. auto.
Qed.

(** Putting a player with a free name keeps the names distinct. *)
Lemma set_player_names g sid p :
  NoDup (lower_names g) -> ~ taken g (Player.name p) ->
  NoDup (List.map (fun p => toLowerCase (Player.name p))
                  (JsMap.values (JsMap.set sid p (Game.players g)))).
Proof.
  unfold taken, lower_names. intros Hnd Hfree.
  destruct (values_set sid p (Game.players g))
    as [(l1 & v0 & l2 & _ & E & ->)|[_ ->]].
  - rewrite E in *. rewrite map_app in *. simpl in *.
    by eapply NoDup_replace.
  - rewrite map_app. simpl. apply NoDup_app. split; [done|]. split.
    + by intros x Hx ->%list_elem_of_singleton.
    + apply NoDup_singleton.
Qed.

(** Replacing a player by one of the same name keeps the list of names. *)
Lemma set_player_same_name g sid p p0 :
  JsMap.get sid (Game.players g) = Some p0 ->
  Player.name p = Player.name p0 ->
  List.map (fun p => toLowerCase (Player.name p))
           (JsMap.values (JsMap.set sid p (Game.players g)))
  = lower_names g.
Proof.
  unfold lower_names. intros Hget Hname.
  destruct (values_set sid p (Game.players g))
    as [(l1 & v0 & l2 & Hg & E & ->)|[Hg _]]; [|congruence].
  rewrite E, !map_app. simpl. rewrite Hg in Hget. simplify_eq.
  by rewrite Hname.
Qed.

Lemma set_player_Forall (P : Player.t -> Prop) (ps : list (string * Player.t)) sid p :
  Forall P (JsMap.values ps) -> P p ->
  Forall P (JsMap.values (JsMap.set sid p ps)).
Proof.
  intros Hall Hp.
  destruct (values_set sid p ps) as [(l1 & v0 & l2 & _ & E & ->)|[_ ->]].
  - rewrite E in Hall. by eapply Forall_replace.
  - apply Forall_app. split; [done|]. by constructor.
Qed.

Lemma get_values_Forall (P : Player.t -> Prop) (ps : list (string * Player.t)) sid p :
  Forall P (JsMap.values ps) -> JsMap.get sid ps = Some p -> P p.
Proof.
  intros Hall Hget. rewrite Forall_forall in Hall. apply Hall.
  apply elem_of_map. exists (sid, p). split; [done|]. by apply get_elem_of.
Qed.

Ltac wf_split := split; [|split; [|split; [|split]]]; simpl.

(** Every effect keeps a game well formed. *)
Lemma effect_wf g i g' : effect g i g' -> wf_game g -> wf_game g'.
Proof.
  intros He (Hqs & Hps & Hnd & Hstart & Hlobby).
  destruct He as [i| | sock payload now l qs r g' out tm Ho Hl Hm Hne Hs
                  | | sock payload now r g' out tm Ho Hst Hlt Hs
                  | | sock payload name Hst Hn
                  | sock payload now1 now2 index idx player q Hst Hi Hidx Hp Ha Hq Hlate
                  | sock | k g' out Hst Hrev].
  - done.
  - wf_split; done.
  - apply startQuestion_game in Hs as (-> & _). wf_split.
    + by eapply mapM_sanitize_wf.
    + apply Forall_values_map; [apply clear_answer_wf | done].
    + unfold lower_names. simpl. by rewrite lower_names_map.
    + by eexists.
    + done.
  - rewrite endGame_fst. wf_split; done.
  - apply startQuestion_game in Hs as (-> & _). wf_split.
    + done.
    + apply Forall_values_map; [apply clear_answer_wf | done].
    + unfold lower_names. simpl. by rewrite lower_names_map.
    + by eexists.
    + done.
  - rewrite endGame_fst. wf_split; done.
  - wf_split; try done.
    + apply set_player_Forall; [done|]. split; [by eexists | done].
    + unfold lower_names. simpl. apply set_player_names; [done|].
      simpl. apply ensureUniqueName_free.
  - wf_split; try done.
    + apply set_player_Forall; [done|].
      destruct (get_values_Forall _ _ _ _ Hps Hp) as [Hfin _].
      split; [done|]. simpl. eexists _, _.
      split; [done|]. split; [by eapply answer_index_range | done].
    + unfold lower_names. simpl. by erewrite set_player_same_name.
  - wf_split; try done.
    + eapply Forall_sublist; [apply values_delete_sublist | done].
    + unfold lower_names. simpl.
      eapply sublist_NoDup; [exact Hnd|].
      apply sublist_map, values_delete_sublist.
  - apply revealAnswer_game in Hrev as (q & Hq & ->). wf_split.
    + done.
    + apply Forall_values_map; [|done].
      intros p. apply score_player_wf.
      rewrite Forall_forall in Hqs. apply Hqs. by eapply list_elem_of_lookup_2.
    + unfold lower_names. simpl.
      rewrite lower_names_map; [done | apply score_player_name].
    + done.
    + done.
Qed.

(** A step keeps the process state well formed. *)
Lemma step_wf s i s' out : step s i = Some (s', out) -> wf_server s -> wf_server s'.
Proof.
  intros Hstep (Hheap & Hkeys & Hrefs). split; [|split].
  - intros r g' Hr.
    destruct (step_origin _ _ _ _ _ _ Hstep Hr)
      as [(g & Hg & He)|(sock & pin & -> & ->)].
    + eapply effect_wf; eauto.
    + apply new_game_wf.
  - destruct (step_store _ _ _ _ Hstep)
      as [_ E|r0 g0 g1 _ _ _ E|sock pin _ _ _ E|sock code _ _ E]; rewrite E.
    + done.
    + done.
    + by apply keys_set_NoDup.
    + by apply keys_delete_NoDup.
  - intros c r.
    destruct (step_store _ _ _ _ Hstep)
      as [Eh E|r0 g0 g1 _ _ Eh E|sock pin _ _ Eh E|sock code _ Eh E];
      rewrite E, Eh.
    + apply Hrefs.
    + rewrite length_insert. apply Hrefs.
    + rewrite length_app. simpl.
      destruct (decide (pin = c)) as [->|Hne].
      * rewrite get_set_eq. intros [= <-]. lia.
      * rewrite get_set_ne by done. intros Hg%Hrefs. lia.
    + destruct (decide (code = c)) as [->|Hne].
      * intros Hg. apply get_elem_of in Hg.
        assert (Hsub := delete_sublist c (games s)).
        eapply elem_of_sublist in Hg; [|exact Hsub].
        destruct (JsMap.get c (games s)) as [r'|] eqn:E'.
        -- eapply Hrefs.
           destruct (get_split _ _ _ E') as (m1 & m2 & Em & Hm1).
           rewrite Em in Hg, Hkeys |- *.
           unfold JsMap.keys in Hkeys. rewrite map_app in Hkeys. simpl in Hkeys.
           apply NoDup_app in Hkeys as (_ & Hd & Hk2).
           apply NoDup_cons in Hk2 as [Hk2 _].
           apply elem_of_app in Hg as [Hg|Hg].
           ++ exfalso. apply (Hd c); [|by left].
              apply elem_of_map. by exists (c, r).
           ++ apply elem_of_cons in Hg as [Hg|Hg].
              ** simplify_eq. clear -Hm1. induction m1 as [|[k v] m1 IH]; simpl in *.
                 --- by rewrite String.eqb_refl.
                 --- destruct (String.eqb_spec c k); [done|]. by apply IH.
              ** exfalso. apply Hk2. apply elem_of_map. by exists (c, r).
        -- apply get_None_keys in E'. exfalso. apply E'.
           apply elem_of_map. by exists (c, r).
      * rewrite get_delete_ne by done. apply Hrefs.
Qed.

Lemma init_server_wf : wf_server init_server.
Proof.
  split; [|split]; simpl.
  - intros r g Hr. by rewrite lookup_nil in Hr.
  - constructor.
  - done.
Qed.

Lemma reachable_wf s : reachable s -> wf_server s.
Proof.
  induction 1 as [|s i s' out _ IH Hstep]; [apply init_server_wf|].
  by eapply step_wf.
Qed.

Lemma reachable_game_wf s r g : reachable s -> heap s !! r = Some g -> wf_game g.
Proof. intros Hs Hr. by eapply (reachable_wf s Hs). Qed.

Lemma run_reachable s ins s' out :
  reachable s -> run s ins = Some (s', out) -> reachable s'.
Proof.
  revert s s' out. induction ins as [|i ins IH]; intros s s' out Hs Hrun; simpl in Hrun.
  - by simplify_eq.
  - destruct (step s i) as [[s1 o1]|] eqn:E; [|done]. simpl in Hrun.
    destruct (run s1 ins) as [[s2 o2]|] eqn:E'; [|done]. simpl in Hrun.
    simplify_eq. eapply IH; [|done]. by eapply reach_step.
Qed.

(** The test of the loop, and the invariant it keeps, with letter case
    said without [toLowerCase]. *)
Lemma taken_collides g nm : taken g nm <-> collides g nm.
Proof.
  unfold taken, collides, lower_names, JsMap.values.
  rewrite List.map_map, elem_of_map. split.
  - intros ([sid p] & E & Hin). exists sid, p. split; [done|].
    by apply equal_ignoring_case_lower.
  - intros (sid & p & Hin & E). exists (sid, p). split; [|done].
    by apply equal_ignoring_case_lower.
Qed.

Lemma NoDup_distinct_names g : NoDup (lower_names g) -> distinct_names g.
Proof.
  unfold lower_names, JsMap.values. rewrite List.map_map.
  intros Hnd i j kp1 kp2 Hi Hj Hij.
  apply equal_ignoring_case_false. intros E. apply Hij.
  eapply (NoDup_lookup _ i j _ Hnd).
  - by rewrite list_lookup_fmap, Hi.
  - rewrite list_lookup_fmap, Hj. simpl. by rewrite E.
Qed.

End Invariants.

(* ===================================================================== *)
(** ** The registry (C1) *)
(* ===================================================================== *)

Section Registry.
Context `{Builtins}.

(** C1, as amended.  A create by a host-capable socket registers a fresh
    lobby game under the code the generator returned, whatever that code is:
    the games registered under other codes stay registered, no game object
    is changed, and the registry still holds one game per code.  A game that
    was registered under the same code is displaced; when the code was free
    every registered game stays. *)
Theorem create_registers_generated_code (s : server) (sock : socket) (pin : string) :
  reachable s -> isHost sock = true ->
  exists s' out,
    step s (HostCreateGame sock pin) = Some (s', out)
    /\ find_game s' (VStr pin) = Some (List.length (heap s), new_game sock pin)
    /\ (forall c, c <> pin -> JsMap.get c (games s') = JsMap.get c (games s))
    /\ (forall r g, heap s !! r = Some g -> heap s' !! r = Some g)
    /\ NoDup (JsMap.keys (games s'))
    /\ (JsMap.get pin (games s) = None ->
        forall c r, JsMap.get c (games s) = Some r -> JsMap.get c (games s') = Some r).
Proof.
  intros Hs Hh. destruct (reachable_wf s Hs) as (_ & Hkeys & _).
  simpl. unfold host_createGame. rewrite Hh. simpl.
  eexists _, _. split; [done|]. simpl.
  assert (Hother : forall c, c <> pin ->
            JsMap.get c (JsMap.set pin (List.length (heap s)) (games s))
            = JsMap.get c (games s))
    by (intros c Hc; by rewrite get_set_ne).
  repeat split.
  - unfold find_game. simpl. rewrite get_set_eq.
    by rewrite list_lookup_middle.
  - done.
  - intros r g Hr. by apply lookup_app_l_Some.
  - by apply keys_set_NoDup.
  - intros Hfree c r Hc. rewrite Hother; [done|]. intros ->. congruence.
Qed.

End Registry.

Lemma create_registers_generated_code_witness :
  reachable init_server /\ isHost Demo.host = true
  /\ exists s' out,
      step init_server (HostCreateGame Demo.host Demo.pin) = Some (s', out)
      /\ find_game s' (VStr Demo.pin) = Some (0, new_game Demo.host Demo.pin).
Proof.
  split; [constructor|]. split; [reflexivity|].
  destruct (create_registers_generated_code init_server Demo.host Demo.pin)
    as (s' & out & Hstep & Hfind & _); [constructor | reflexivity |].
  exists s', out. split; [exact Hstep | exact Hfind].
Defined.

(** C1 as stated fails: a second create that draws the code of an active
    game takes its place in the registry.  The first game, with its player,
    is still in the store but no code leads to it. *)
Lemma create_displaces_active_game :
  registry_of (run init_server
                 [HostCreateGame Demo.host Demo.pin;
                  PlayerJoin Demo.sam (Demo.join_as "Sam")])
  = Some [(Demo.pin, 0)]
  /\ registry_of (run init_server
                    [HostCreateGame Demo.host Demo.pin;
                     PlayerJoin Demo.sam (Demo.join_as "Sam");
                     HostCreateGame Demo.host2 Demo.pin])
     = Some [(Demo.pin, 1)]
  /\ Game.hostId <$> heap (server_of (run init_server
                    [HostCreateGame Demo.host Demo.pin;
                     PlayerJoin Demo.sam (Demo.join_as "Sam");
                     HostCreateGame Demo.host2 Demo.pin])) !! 0
     = Some "host-1"%string.
Proof. vm_compute. repeat split. Qed.

(* ===================================================================== *)
(** ** The state machine (C2, C3) and the timeouts (C6) *)
(* ===================================================================== *)

Section StateMachine.
Context `{Builtins}.

Lemma startQuestion_state r g now g' out tm :
  startQuestion r g now = Some (g', out, tm) ->
  Game.state g' = question /\ Game.currentIndex g' = Game.currentIndex g
  /\ Game.questions g' = Game.questions g.
Proof. intros (-> & _)%startQuestion_game. done. Qed.

Lemma revealAnswer_state g g' out :
  revealAnswer g = Some (g', out) ->
  Game.state g' = reveal /\ Game.currentIndex g' = Game.currentIndex g
  /\ Game.questions g' = Game.questions g.
Proof. intros (q & _ & ->)%revealAnswer_game. done. Qed.

(** C2, as amended.  Once a game is [ended], every input leaves it [ended],
    except a start or an advance sent by its host, which may put it back to
    [question]: joins, answers, timeouts, an end, a disconnect and whatever
    another socket sends change nothing of its state. *)
Theorem ended_left_only_by_owner_start_or_next
    (s : server) (i : input) (s' : server) (out : list output)
    (r : nat) (g : Game.t) :
  heap s !! r = Some g -> Game.state g = ended ->
  step s i = Some (s', out) ->
  exists g', heap s' !! r = Some g'
    /\ (Game.state g' = ended
        \/ (Game.state g' = question /\ (owner_start i g \/ owner_next i g))).
Proof.
  intros Hr Hended Hstep.
  destruct (step_effect _ _ _ _ _ _ Hstep Hr) as (g' & Hr' & He).
  exists g'. split; [done|].
  destruct He as [i| | sock payload now l qs r0 g' o tm Ho Hl Hm Hne Hs
                  | | sock payload now r0 g' o tm Ho Hst Hlt Hs
                  | | sock payload name Hst Hn
                  | sock payload now1 now2 index idx player q Hst Hi Hidx Hp Ha Hq Hlate
                  | sock | k g' o Hst Hrev];
    try (left; done); try congruence.
  - right. apply startQuestion_state in Hs as (-> & _).
    split; [done|]. left. by eexists _, _, _.
  - right. apply startQuestion_state in Hs as (-> & _).
    split; [done|]. right. by eexists _, _, _.
Qed.

(** What [host:next] does when the host of the game sends it outside
    [question]. *)
Lemma host_next_acts s sock payload now code r g :
  get_prop payload "code" = Some code ->
  find_game s code = Some (r, g) -> owner sock g ->
  Game.state g <> question ->
  (Game.currentIndex g + 1 < List.length (Game.questions g) ->
   exists g' out tm,
     startQuestion r (Game.set_currentIndex (Game.currentIndex g + 1) g) now
       = Some (g', out, tm)
     /\ step s (HostNext sock payload now) = Some (arm tm (put_game r g' s), out))
  /\ (List.length (Game.questions g) <= Game.currentIndex g + 1 ->
      step s (HostNext sock payload now)
      = Some (put_game r (fst (endGame g)) s, snd (endGame g))).
Proof.
  intros Hc Hf [Hh Ho] Hst. simpl. unfold host_next.
  rewrite Hc. simpl. rewrite Hh. simpl. rewrite Hf, Ho, String.eqb_refl. simpl.
  rewrite bool_decide_eq_false_2 by done.
  split.
  - intros Hlt.
    destruct (startQuestion_is_Some r
                (Game.set_currentIndex (Game.currentIndex g + 1) g) now)
      as [[[g' o] tm] Hs]; [done|].
    exists g', o, tm. split; [done|].
    rewrite (proj2 (Nat.leb_gt _ _)) by done. by rewrite Hs.
  - intros Hle. by rewrite (proj2 (Nat.leb_le _ _)).
Qed.

Lemma put_game_lookup s r0 g0 g r :
  heap s !! r0 = Some g0 ->
  heap (put_game r0 g s) !! r = if decide (r = r0) then Some g else heap s !! r.
Proof.
  intros H0. simpl. case_decide as Hr.
  - subst. apply list_lookup_insert_eq. by eapply lookup_lt_Some.
  - by apply list_lookup_insert_ne.
Qed.

Lemma put_game_lookup_eq s r g0 g :
  heap s !! r = Some g0 -> heap (put_game r g s) !! r = Some g.
Proof. intros H0. rewrite (put_game_lookup _ _ _ _ _ H0). by case_decide. Qed.

(** C3, as amended.  Under any input [currentIndex] stays as it is, or goes
    up by exactly one (an advance by the host, outside [question], to a
    question that exists), or is set to 0 (a start by the host, whatever the
    state).  An advance taken in [reveal] goes up by exactly one when another
    question follows; past the last question it ends the game and leaves
    [currentIndex] as it is. *)
Theorem currentIndex_steps
    (s : server) (i : input) (s' : server) (out : list output)
    (r : nat) (g : Game.t) :
  heap s !! r = Some g -> step s i = Some (s', out) ->
  exists g', heap s' !! r = Some g'
    /\ (Game.currentIndex g' = Game.currentIndex g
        \/ (owner_next i g /\ Game.state g <> question
            /\ Game.currentIndex g' = Game.currentIndex g + 1
            /\ Game.currentIndex g' < List.length (Game.questions g'))
        \/ (owner_start i g /\ Game.currentIndex g' = 0))
    /\ (forall sock payload now code,
          i = HostNext sock payload now ->
          get_prop payload "code" = Some code ->
          find_game s code = Some (r, g) -> owner sock g ->
          Game.state g = reveal ->
          (Game.currentIndex g + 1 < List.length (Game.questions g)
           /\ Game.currentIndex g' = Game.currentIndex g + 1
           /\ Game.state g' = question)
          \/ (List.length (Game.questions g) <= Game.currentIndex g + 1
              /\ Game.currentIndex g' = Game.currentIndex g
              /\ Game.state g' = ended)).
Proof.
  intros Hr Hstep.
  destruct (step_effect _ _ _ _ _ _ Hstep Hr) as (g' & Hr' & He).
  exists g'. split; [done|]. split.
  - destruct He as [i| | sock payload now l qs r0 g' o tm Ho Hl Hm Hne Hs
                    | | sock payload now r0 g' o tm Ho Hst Hlt Hs
                    | | sock payload name Hst Hn
                    | sock payload now1 now2 index idx player q Hst Hi Hidx Hp Ha Hq Hlate
                    | sock | k g' o Hst Hrev];
      try (left; done).
    + right; right. apply startQuestion_state in Hs as (_ & -> & _).
      split; [by eexists _, _, _ | done].
    + right; left. apply startQuestion_state in Hs as (_ & -> & ->).
      split; [by eexists _, _, _ | done].
    + left. by apply revealAnswer_state in Hrev as (_ & -> & _).
  - intros sock payload now code -> Hc Hf Ho Hrev.
    assert (Hnq : Game.state g <> question) by congruence.
    destruct (host_next_acts s sock payload now code r g Hc Hf Ho Hnq)
      as [Hmore Hlast].
    destruct (decide (Game.currentIndex g + 1 < List.length (Game.questions g)))
      as [Hlt|Hge].
    + left. destruct (Hmore Hlt) as (g1 & o1 & tm & Hs & Hstep1).
      rewrite Hstep1 in Hstep. injection Hstep as <- <-.
      rewrite heap_arm_put in Hr'.
      rewrite (put_game_lookup_eq _ _ _ _ Hr) in Hr'. injection Hr' as <-.
      apply startQuestion_state in Hs as (-> & -> & _). done.
    + right. assert (Hle : List.length (Game.questions g) <= Game.currentIndex g + 1)
        by lia.
      rewrite (Hlast Hle) in Hstep. injection Hstep as <- <-.
      rewrite (put_game_lookup_eq _ _ _ _ Hr) in Hr'. injection Hr' as <-.
      done.
Qed.

(** The guard of the timeout.  A timeout that fires when its game is not in
    [question], or is at another index than the one the timeout captured,
    has no effect: nothing is emitted and the store and the registry are as
    they were.  (The timeout leaves the pending ones, as any fired timeout
    does.) *)
Lemma stale_timeout_is_noop (s : server) (k : nat) (tm : timer) (g : Game.t) :
  timers s !! k = Some tm -> heap s !! tm_game tm = Some g ->
  stale (tm_idx tm) g ->
  step s (Timeout k)
  = Some ({| games := games s; heap := heap s;
             timers := base.delete k (timers s) |}, []).
Proof.
  intros Hk Hg Hstale. simpl. unfold timeout. rewrite Hk, Hg.
  destruct Hstale as [Hst|Hidx].
  - by rewrite bool_decide_eq_false_2.
  - rewrite (proj2 (Nat.eqb_neq _ _)) by done. by rewrite andb_false_r.
Qed.

Lemma effect_hostId g i g' : effect g i g' -> Game.hostId g' = Game.hostId g.
Proof.
  intros He.
  destruct He as [i| | sock payload now l qs r0 g' o tm Ho Hl Hm Hne Hs
                  | | sock payload now r0 g' o tm Ho Hst Hlt Hs
                  | | sock payload name Hst Hn
                  | sock payload now1 now2 index idx player q Hst Hi Hidx Hp Ha Hq Hlate
                  | sock | k g' o Hst Hrev]; try done.
  - by apply startQuestion_game in Hs as (-> & _).
  - by apply startQuestion_game in Hs as (-> & _).
  - by apply revealAnswer_game in Hrev as (q & _ & ->).
Qed.

(** A game that is at or after the index [n] and stale for it stays so under
    every input that is not a start by its host. *)
Lemma effect_stays_stale n g i g' :
  effect g i g' -> ~ start_by (Game.hostId g) i ->
  n <= Game.currentIndex g -> stale n g ->
  n <= Game.currentIndex g' /\ stale n g'.
Proof.
  intros He Hns Hn Hstale.
  destruct He as [i| sock payload now Ho
                  | sock payload now l qs r0 g' o tm Ho Hl Hm Hne Hs
                  | sock payload now Ho Hst Hlt
                  | sock payload now r0 g' o tm Ho Hst Hlt Hs
                  | sock payload Ho
                  | sock payload name Hst Hn'
                  | sock payload now1 now2 index idx player q Hst Hi Hidx Hp Ha Hq Hlate
                  | sock | k g' o Hst Hrev].
  - done.
  - done.
  - exfalso. apply Hns. destruct Ho as [? ?]. eexists _, _, _.
    split; [done|]. split; [done|]. by symmetry.
  - rewrite endGame_fst. simpl. split; [done|]. by left.
  - unfold stale. apply startQuestion_state in Hs as (_ & -> & _). simpl.
    split; [lia|]. right. lia.
  - rewrite endGame_fst. simpl. split; [done|]. by left.
  - done.
  - split; [done|]. destruct Hstale as [Hs|Hs]; [by left | by right].
  - done.
  - unfold stale. apply revealAnswer_state in Hrev as (-> & -> & _).
    split; [done|]. by left.
Qed.

(** Along a run without a start by its host, a timeout that has become stale
    stays stale: the game does not come back to [question] at the captured
    index. *)
Lemma run_stays_stale n ins :
  forall s s' out r g,
    run s ins = Some (s', out) -> heap s !! r = Some g ->
    Forall (fun i => ~ start_by (Game.hostId g) i) ins ->
    n <= Game.currentIndex g -> stale n g ->
    exists g', heap s' !! r = Some g' /\ n <= Game.currentIndex g' /\ stale n g'.
Proof.
  induction ins as [|i ins IH]; intros s s' out r g Hrun Hr Hall Hn Hstale.
  - simpl in Hrun. simplify_eq. by exists g.
  - simpl in Hrun. apply Forall_cons in Hall as [Hi Hall].
    destruct (step s i) as [[s1 o1]|] eqn:Hstep; [|done]. simpl in Hrun.
    destruct (run s1 ins) as [[s2 o2]|] eqn:Hrun'; [|done]. simpl in Hrun.
    simplify_eq.
    destruct (step_effect _ _ _ _ _ _ Hstep Hr) as (g1 & Hr1 & He).
    destruct (effect_stays_stale n g i g1 He Hi Hn Hstale) as [Hn1 Hstale1].
    apply (IH s1 s' o2 r g1 Hrun' Hr1); [|done|done].
    by rewrite (effect_hostId _ _ _ He).
Qed.

End StateMachine.

(* ===================================================================== *)
(** ** Answers (C5, C10) *)
(* ===================================================================== *)

Section Answers.
Context `{Builtins}.

Open Scope string_scope.

(** The time test of [player:answer], in seconds. *)
Lemma answer_time_test g q now t0 t :
  Game.questionStart g = Some t0 -> Question.timeLimitSec q = Fin t ->
  JsNum.gtb (JsNum.div (JsNum.sub (JsNum.of_Z now) (time_num (Game.questionStart g)))
                       (Fin 1000)) (Question.timeLimitSec q) = false
  <-> (elapsedSeconds t0 now <= t)%Q.
Proof.
  intros -> ->. unfold elapsedSeconds.
  rewrite (gtb_fin _ _ ((inject_Z now - inject_Z t0) / 1000)%Q t).
  - unfold Z.sub. by rewrite inject_Z_plus, inject_Z_opp.
  - apply div_fin; [|apply is_fin_Fin|lra].
    apply sub_fin; apply is_fin_of_Z.
  - apply is_fin_Fin.
Qed.

Opaque JsNum.gtb JsNum.div JsNum.sub time_num answer_index.


Lemma get_prop_is_Some v k : ~ nullish v -> is_Some (get_prop v k).
Proof.
  unfold nullish. intros Hv.
  destruct v; simpl; try (by eexists); exfalso; apply Hv; auto.
Qed.

(** An accepted answer is recorded when its index converts to a number, and
    the conversion throws otherwise. *)
Lemma player_answer_accepted s sock payload now1 now2 code index r g p q :
  get_prop payload "code" = Some code ->
  get_prop payload "index" = Some index ->
  answer_accepted s sock code now1 r g p q ->
  step s (PlayerAnswer sock payload now1 now2)
  = match answer_index index with
    | Some idx =>
        Some (put_game r (with_answer g sock p idx now2) s,
              [io_to (Game.hostId g)
                 (host_answerProgress (Game.answersSubmitted g + 1)
                    (JsMap.size (JsMap.set (sock_id sock)
                                   (Player.lock_answer idx now2 p)
                                   (Game.players g))));
               socket_emit (sock_id sock) (player_answerLocked idx)])
    | None => None
    end.
Proof.
  intros Hc Hi (Hf & Hst & Hp & Ha & Hq & (t0 & t & Ht0 & Ht & Hle)).
  simpl. unfold player_answer. rewrite Hc. simpl. rewrite Hi. simpl.
  rewrite Hf, Hp. rewrite bool_decide_eq_true_2 by done. simpl.
  rewrite Hq. simpl.
  rewrite (proj2 (answer_time_test g q now1 t0 t Ht0 Ht) Hle).
  rewrite Ha. by destruct (answer_index index).
Qed.



Transparent JsNum.gtb JsNum.div JsNum.sub time_num answer_index.


(** One increment of the tally, for a whole index within [[0, 3]]: it adds
    one to the slot of the index, which is one of the four. *)
Lemma incr_in_range k c i :
  in_range 0 3 k -> List.length (Counts.slots c) = 4 ->
  JsNum.array_index k = Some i ->
  i < 4 /\ exists n, Counts.slots c !! i = Some n
        /\ Counts.incr k c = Counts.mk (<[i := S n]> (Counts.slots c)) (Counts.stray c).
Proof.
  intros (q & -> & Hlo & Hhi) Hlen E. unfold Counts.incr. rewrite E.
  simpl in E. destruct (_ && _) eqn:Eb; [|done]. injection E as <-.
  assert (Hi : Z.to_nat (Qfloor q) < 4).
  { assert (Qfloor q <= 3)%Z; [|lia].
    rewrite <- (Qfloor_Z 3). by apply Qfloor_resp_le. }
  split; [done|].
  destruct (lookup_lt_is_Some_2 (Counts.slots c) (Z.to_nat (Qfloor q))) as [n Hn];
    [lia|].
  exists n. by rewrite Hn.
Qed.

(** Whatever index the caller sends, provided it converts to the number
    [n], an accepted answer is recorded with a finite number within
    [[0, 3]]: 0 when [n] is NaN or zero, [n] itself when it lies within
    [[0, 3]].  The number need not be whole.  Whenever it is whole, the
    reveal counts the answer in the slot of that index, which is one of the
    four of [counts]. *)
Lemma recorded_index_within_0_3
    (s : server) (sock : socket) (payload : jsval) (now1 now2 : Z)
    (code index : jsval) (n : number)
    (r : nat) (g : Game.t) (p : Player.t) (q : Question.t) :
  get_prop payload "code" = Some code ->
  get_prop payload "index" = Some index ->
  Number index = Some n ->
  answer_accepted s sock code now1 r g p q ->
  exists s' out g' p' idx,
    step s (PlayerAnswer sock payload now1 now2) = Some (s', out)
    /\ heap s' !! r = Some g'
    /\ JsMap.get (sock_id sock) (Game.players g') = Some p'
    /\ Player.answerIndex p' = Some idx
    /\ in_range 0 3 idx
    /\ (JsNum.truthy n = false -> idx = Fin 0)
    /\ (forall x, is_fin n x -> (0 <= x <= 3)%Q -> is_fin idx x)
    /\ (forall c i,
          List.length (Counts.slots c) = 4 ->
          JsNum.array_index idx = Some i ->
          i < 4 /\ exists k, Counts.slots c !! i = Some k
            /\ Counts.incr idx c
               = Counts.mk (<[i := S k]> (Counts.slots c)) (Counts.stray c)).
Proof.
  intros Hc Hi Hn Hacc.
  pose proof (player_answer_accepted s sock payload now1 now2 code index r g p q
                Hc Hi Hacc) as Hstep.
  assert (Hidx : answer_index index
                 = Some (Math_max (Fin 0) (Math_min (Fin 3) (JsNum.or n (Fin 0)))))
    by (unfold answer_index; by rewrite Hn).
  rewrite Hidx in Hstep.
  pose proof (answer_index_range _ _ Hidx) as Hrange.
  destruct Hacc as (Hf & _).
  set (idx := Math_max (Fin 0) (Math_min (Fin 3) (JsNum.or n (Fin 0)))) in *.
  eexists (put_game r (with_answer g sock p idx now2) s), _,
          (with_answer g sock p idx now2), (Player.lock_answer idx now2 p), idx.
  split; [exact Hstep|].
  split; [by eapply put_game_lookup_eq, find_game_heap|].
  split; [unfold with_answer; simpl; apply get_set_eq|]. split; [done|].
  split; [exact Hrange|]. split; [|split].
  - intros Hfalsy. unfold idx, JsNum.or. by rewrite Hfalsy.
  - intros x (x' & Hx & Ex) [Hlo Hhi]. unfold idx, JsNum.or.
    destruct (JsNum.truthy n) eqn:Htruthy.
    + eapply is_fin_eq.
      * apply max_fin; [apply is_fin_Fin|].
        apply min_fin; [apply is_fin_Fin|]. rewrite Hx. apply is_fin_Fin.
      * rewrite Ex. rewrite Q.min_r by done. by apply Q.max_r.
    + rewrite Hx in Htruthy. simpl in Htruthy.
      apply negb_false_iff, Qeq_bool_iff in Htruthy.
      exists 0%Q. split; [done|]. by rewrite <- Ex, Htruthy.
  - intros c i Hlen Hi'. by apply incr_in_range.
Qed.

End Answers.

(* ===================================================================== *)
(** ** Starting a game (C7) *)
(* ===================================================================== *)

Section Start.
Context `{Builtins}.

Open Scope string_scope.

(** An entry converts when it is neither [null] nor [undefined] and holds
    no object with a [toString] of its own. *)
Lemma sanitizeQuestion_is_Some v :
  ~ nullish v -> plain v = true -> is_Some (sanitizeQuestion v).
Proof.
  intros Hv Hp. unfold sanitizeQuestion.
  destruct (get_prop_is_Some v "prompt" Hv) as [prompt Eprompt].
  destruct (get_prop_is_Some v "options" Hv) as [options Eoptions].
  destruct (get_prop_is_Some v "correctIndex" Hv) as [correctIndex Ec].
  destruct (get_prop_is_Some v "timeLimitSec" Hv) as [timeLimitSec Et].
  rewrite Eprompt, Eoptions, Ec, Et. simpl.
  destruct (plain_ToString (js_or prompt (VStr ""))) as [p ->];
    [apply plain_js_or; [by eapply plain_get_prop | done]|].
  simpl.
  assert (Hos : is_Some (match options with
                         | VArr l => mapM (fun o => slice0 120 <$> ToString o)
                                          (firstn 4 l)
                         | _ => Some ["A"; "B"; "C"; "D"]
                         end)).
  { pose proof (plain_get_prop v "options" options Hp Eoptions) as Ho.
    destruct options as [| | | | |l|]; try (by eexists).
    apply mapM_is_Some, Forall_forall. intros o Ho'.
    apply fmap_is_Some, plain_ToString.
    apply (plain_elements l); [done|].
    apply elem_of_take in Ho' as (i & Hi & _). by eapply list_elem_of_lookup_2. }
  destruct Hos as [os ->]. simpl.
  destruct (plain_Number correctIndex) as [c ->]; [by eapply plain_get_prop|].
  destruct (plain_Number timeLimitSec) as [t ->]; [by eapply plain_get_prop|].
  by eexists.
Qed.

Lemma sanitizeQuestion_options v q :
  sanitizeQuestion v = Some q -> List.length (Question.options q) <= 4.
Proof.
  intros (? & o & ? & ? & p & os & c & t & _ & _ & _ & Hos & _ & _ & _ & _ & ->)
    %sanitizeQuestion_Some.
  simpl. destruct o as [| | | | |l|]; try (injection Hos as <-; simpl; lia).
  apply length_mapM in Hos. rewrite <- Hos, length_firstn. lia.
Qed.

Lemma mapM_sanitize_is_Some l :
  Forall (fun v => ~ nullish v /\ plain v = true) l ->
  is_Some (mapM sanitizeQuestion l).
Proof.
  intros Hall. apply mapM_is_Some.
  eapply Forall_impl; [exact Hall|].
  intros v [Hv Hp]. by apply sanitizeQuestion_is_Some.
Qed.




Opaque startQuestion.

(** [host:startGame] once the sender is known to be the host of the game. *)
Lemma host_startGame_owner s sock payload now code qv r g :
  get_prop payload "code" = Some code ->
  get_prop payload "questions" = Some qv ->
  find_game s code = Some (r, g) -> owner sock g ->
  step s (HostStartGame sock payload now)
  = match mapM sanitizeQuestion (match qv with VArr l => l | _ => [] end) with
    | None => None
    | Some qs =>
        if (List.length qs =? 0)%nat
        then Some (put_game r (Game.set_questions qs g) s, [])
        else
          match startQuestion r (Game.set_currentIndex 0 (Game.set_state question
                                   (Game.set_questions qs g))) now with
          | Some (g4, out, tm) => Some (arm tm (put_game r g4 s), out)
          | None => None
          end
    end.
Proof.
  intros Hc Hq Hf [Hh Ho]. simpl. unfold host_startGame.
  rewrite Hc. simpl. rewrite Hq. simpl.
  rewrite Hh. simpl. rewrite Hf, Ho, String.eqb_refl. simpl.
  destruct (mapM sanitizeQuestion _) as [qs|]; [|done]. simpl.
  destruct (_ =? _)%nat; [done|].
  by destruct (startQuestion _ _ _) as [[[g4 o] tm]|].
Qed.


Transparent startQuestion.

End Start.

(* ===================================================================== *)
(** ** Display names (C8) *)
(* ===================================================================== *)

Section Names.
Context `{Builtins}.

Open Scope string_scope.

(** C8.  In every reachable state no two players of a game have the same
    name, letter case ignored.  A join in the lobby gives the player the
    first of the names [base], [base #2], [base #3], ... that no present
    player has, letter case ignored, where [base] is the sanitized name:
    the name itself when it is free, otherwise the first free suffixed
    variant, whatever names (suffixed or not) the roster holds; and the
    names are again pairwise different after the join. *)
Theorem joined_names_stay_distinct
    (s : server) (r : nat) (g : Game.t) :
  reachable s -> heap s !! r = Some g ->
  distinct_names g
  /\ forall sock payload code desired,
       get_prop payload "code" = Some code ->
       get_prop payload "name" = Some desired ->
       find_game s code = Some (r, g) -> Game.state g = lobby ->
       exists m s' out g' p,
         step s (PlayerJoin sock payload) = Some (s', out)
         /\ heap s' !! r = Some g'
         /\ JsMap.get (sock_id sock) (Game.players g') = Some p
         /\ Player.name p = candidate (sanitizeName desired) m
         /\ ~ collides g (candidate (sanitizeName desired) m)
         /\ (forall j, j < m -> collides g (candidate (sanitizeName desired) j))
         /\ distinct_names g'.
Proof.
  intros Hs Hr. split.
  - apply NoDup_distinct_names.
    by destruct (reachable_game_wf s r g Hs Hr) as (_ & _ & Hnd & _).
  - intros sock payload code desired Hc Hn Hf Hst.
    destruct (ensureUniqueName_first g desired) as (m & Em & Hfree & Htaken).
    assert (Hstep : exists out,
              step s (PlayerJoin sock payload)
              = Some (put_game r
                        (Game.set_players
                           (JsMap.set (sock_id sock)
                              (Player.mk (sock_id sock) (ensureUniqueName g desired)
                                         (Fin 0) false None None)
                              (Game.players g)) g) s, out)).
    { simpl. unfold player_join. rewrite Hc. simpl. rewrite Hn. simpl.
      rewrite Hf. rewrite bool_decide_eq_true_2 by done. by eexists. }
    destruct Hstep as [out Hstep].
    eexists m, _, _, _, _. split; [exact Hstep|].
    split; [by eapply put_game_lookup_eq|].
    split; [simpl; apply get_set_eq|].
    split; [done|].
    split; [by rewrite <- taken_collides|].
    split; [intros j Hj; by apply taken_collides, Htaken|].
    apply NoDup_distinct_names.
    eapply reachable_game_wf.
    + eapply reach_step; [exact Hs | exact Hstep].
    + by eapply put_game_lookup_eq.
Qed.

End Names.

(* ===================================================================== *)
(** ** Ranking (C9) *)
(* ===================================================================== *)

Section Ranking.

Implicit Types (x y e : Entry.t) (l : list Entry.t).

Lemma sort_insert_cons {A : Type} (cmp : A -> A -> number) (x y : A) (l : list A) :
  sort_insert cmp x (y :: l)
  = if JsNum.gtb (cmp x y) (Fin 0) then y :: sort_insert cmp x l else x :: y :: l.
Proof. done. Qed.

Lemma sort_insert_perm {A : Type} (cmp : A -> A -> number) (x : A) (l : list A) :
  Permutation (sort_insert cmp x l) (x :: l).
Proof.
  induction l as [|y l IH]; simpl; [done|].
  case_match; [|done]. rewrite IH. apply perm_swap.
Qed.

Lemma js_sort_perm {A : Type} (cmp : A -> A -> number) (l : list A) :
  Permutation (js_sort cmp l) l.
Proof.
  induction l as [|x l IH]; simpl; [done|].
  rewrite sort_insert_perm. by constructor.
Qed.

(** The comparator of [rankPlayers] on finite scores. *)
Lemma by_score_desc_gt x y p q :
  Entry.score x = Fin p -> Entry.score y = Fin q ->
  JsNum.gtb (by_score_desc x y) (Fin 0) = true <-> (p < q)%Q.
Proof.
  intros Hx Hy. unfold by_score_desc, JsNum.gtb. rewrite Hx, Hy.
  change (JsNum.sub (Fin q) (Fin p)) with (Fin (q + - p)).
  rewrite ltb_Fin. split; intros; lra.
Qed.

Lemma score_ge_Fin x y p q :
  Entry.score x = Fin p -> Entry.score y = Fin q ->
  score_ge x y <-> (q <= p)%Q.
Proof.
  intros Hx Hy. unfold score_ge. rewrite Hx, Hy.
  change (JsNum.geb (Fin p) (Fin q)) with (negb (JsNum.ltb (Fin p) (Fin q))).
  rewrite negb_true_iff, ltb_Fin_false. done.
Qed.

Lemma sort_insert_sorted x l :
  finite_score x -> Forall finite_score l ->
  StronglySorted score_ge l ->
  StronglySorted score_ge (sort_insert by_score_desc x l).
Proof.
  intros [p Hp] Hfin Hsorted.
  induction Hsorted as [|y l Hs IH Hy].
  - repeat constructor.
  - apply Forall_cons in Hfin as [[q Hq] Hfin]. rewrite sort_insert_cons.
    destruct (JsNum.gtb (by_score_desc x y) (Fin 0)) eqn:E.
    + apply (by_score_desc_gt x y p q Hp Hq) in E.
      constructor; [by apply IH|].
      apply List.Forall_forall. intros z Hz.
      apply (Permutation_in _ (sort_insert_perm by_score_desc x l)) in Hz.
      destruct Hz as [<-|Hz].
      * apply (score_ge_Fin y x q p Hq Hp). lra.
      * rewrite List.Forall_forall in Hy. by apply Hy.
    + apply not_true_iff_false in E.
      rewrite (by_score_desc_gt x y p q Hp Hq) in E.
      constructor; [by constructor|].
      constructor.
      * apply (score_ge_Fin x y p q Hp Hq). lra.
      * rewrite List.Forall_forall in Hy |- *. intros z Hz.
        assert (Hzf : finite_score z).
        { rewrite Forall_forall in Hfin. apply Hfin. by apply list_elem_of_In. }
        destruct Hzf as [u Hu].
        apply (score_ge_Fin x z p u Hp Hu).
        specialize (Hy z Hz). apply (score_ge_Fin y z q u Hq Hu) in Hy. lra.
Qed.

Lemma js_sort_finite l :
  Forall finite_score l -> Forall finite_score (js_sort by_score_desc l).
Proof.
  intros Hfin. by rewrite js_sort_perm.
Qed.

Lemma js_sort_sorted l :
  Forall finite_score l -> StronglySorted score_ge (js_sort by_score_desc l).
Proof.
  induction l as [|x l IH]; simpl; intros Hfin; [constructor|].
  apply Forall_cons in Hfin as [Hx Hfin].
  apply sort_insert_sorted; [done | by apply js_sort_finite | by apply IH].
Qed.

(** Inserting [x] passes only entries of a higher score, so among the entries
    of any one score [x] comes first. *)
Lemma sort_insert_filter v x l :
  finite_score x -> Forall finite_score l ->
  List.filter (same_score v) (sort_insert by_score_desc x l)
  = List.filter (same_score v) (x :: l).
Proof.
  intros [p Hp] Hfin. induction l as [|y l IH]; [done|].
  apply Forall_cons in Hfin as [[q Hq] Hfin]. rewrite sort_insert_cons.
  destruct (JsNum.gtb (by_score_desc x y) (Fin 0)) eqn:E; [|done].
  apply (by_score_desc_gt x y p q Hp Hq) in E.
  cbn [List.filter]. rewrite (IH Hfin). cbn [List.filter].
  destruct (same_score v x) eqn:Ex; [|done].
  destruct (same_score v y) eqn:Ey; [|done].
  exfalso. unfold same_score in Ex, Ey. rewrite Hp in Ex. rewrite Hq in Ey.
  destruct v as [| | |u]; try done. simpl in Ex, Ey.
  apply Qeq_bool_iff in Ex, Ey. lra.
Qed.

Lemma js_sort_filter v l :
  Forall finite_score l ->
  List.filter (same_score v) (js_sort by_score_desc l)
  = List.filter (same_score v) l.
Proof.
  induction l as [|x l IH]; [done|]. intros Hfin.
  apply Forall_cons in Hfin as [Hx Hfin]. simpl js_sort.
  rewrite sort_insert_filter by (done || by apply js_sort_finite).
  simpl. by rewrite IH.
Qed.

Lemma assign_ranks_lookup idx l i e :
  assign_ranks idx l !! i = Some e ->
  exists e0, l !! i = Some e0 /\ e = Entry.set_rank (idx + i + 1) e0.
Proof.
  revert idx i. induction l as [|e0 l IH]; intros idx i; simpl; [done|].
  destruct i as [|i]; simpl.
  - intros [= <-]. exists e0. split; [done|]. f_equal. lia.
  - intros (e1 & ? & ->)%IH. exists e1. split; [done|]. f_equal. lia.
Qed.

Lemma assign_ranks_unrank idx l :
  List.map unrank (assign_ranks idx l) = List.map unrank l.
Proof.
  revert idx. induction l as [|e l IH]; intros idx; simpl; [done|].
  by rewrite IH.
Qed.

Lemma assign_ranks_sorted idx l :
  StronglySorted score_ge l -> StronglySorted score_ge (assign_ranks idx l).
Proof.
  intros Hs. revert idx. induction Hs as [|e l Hs IH He]; intros idx; simpl.
  - constructor.
  - constructor; [apply IH|].
    rewrite List.Forall_forall in He |- *. intros z Hz.
    apply list_elem_of_In, list_elem_of_lookup in Hz as [i Hi].
    apply assign_ranks_lookup in Hi as (z0 & Hz0 & ->).
    apply (He z0). apply list_elem_of_In. by eapply list_elem_of_lookup_2.
Qed.

Lemma unrank_unranked l :
  Forall (fun e => Entry.rank e = None) l -> List.map unrank l = l.
Proof.
  induction 1 as [|e l He _ IH]; simpl; [done|].
  rewrite IH. f_equal. destruct e. simpl in *. by subst.
Qed.

Lemma currentPlayersArray_unranked g :
  Forall (fun e => Entry.rank e = None) (currentPlayersArray g).
Proof.
  unfold currentPlayersArray. apply Forall_forall.
  by intros e (p & -> & _)%elem_of_map.
Qed.

Lemma currentPlayersArray_finite g :
  Forall (fun p => finite (Player.score p)) (JsMap.values (Game.players g)) ->
  Forall finite_score (currentPlayersArray g).
Proof.
  intros Hfin. unfold currentPlayersArray. apply Forall_forall.
  intros e (p & -> & Hp)%elem_of_map. rewrite Forall_forall in Hfin.
  by apply Hfin.
Qed.

(** What the array of entries shows is what the roster holds, player by
    player in the order of the roster. *)
Lemma currentPlayersArray_shown g :
  List.map shown_of_entry (currentPlayersArray g)
  = List.map shown_of_player (Game.players g).
Proof.
  unfold currentPlayersArray, JsMap.values. rewrite !List.map_map.
  by apply List.map_ext.
Qed.

Lemma assign_ranks_shown idx l :
  List.map shown_of_entry (assign_ranks idx l) = List.map shown_of_entry l.
Proof.
  revert idx. induction l as [|e l IH]; intros idx; simpl; [done|].
  by rewrite IH.
Qed.

Lemma filter_shown v l :
  List.filter (has_score v) (List.map shown_of_entry l)
  = List.map shown_of_entry (List.filter (same_score v) l).
Proof.
  induction l as [|e l IH]; simpl; [done|].
  change (has_score v (shown_of_entry e)) with (same_score v e).
  destruct (same_score v e); simpl; by rewrite IH.
Qed.

(** C9.  The leaderboard is the roster sorted by score, highest first: it
    shows the players of the roster, each once, with socket, name and
    score; players of equal score keep the order of the roster; the rank of
    an entry is its position counted from 1, so equal scores get
    consecutive ranks.  It is computed from the roster at each reveal (the
    first ten, after the scores of the question are added) and at each end
    (the first twenty). *)
Theorem leaderboard_sorted_stable_ranked (g : Game.t) :
  Forall (fun kp => finite (Player.score (snd kp))) (Game.players g) ->
  Permutation (List.map shown_of_entry (rankPlayers g))
              (List.map shown_of_player (Game.players g))
  /\ StronglySorted score_ge (rankPlayers g)
  /\ (forall v, List.filter (has_score v) (List.map shown_of_entry (rankPlayers g))
                = List.filter (has_score v)
                    (List.map shown_of_player (Game.players g)))
  /\ (forall i e, rankPlayers g !! i = Some e -> Entry.rank e = Some (i + 1))
  /\ (forall g' out, revealAnswer g = Some (g', out) ->
        exists p, out !! 0 = Some (io_to (Game.code g') (question_reveal p))
                  /\ rv_leaderboard p = firstn 10 (rankPlayers g'))
  /\ snd (endGame g)
     = [io_to (Game.code g) (game_over (firstn 20 (rankPlayers g)));
        io_to (Game.hostId g) (host_game_over (firstn 20 (rankPlayers g)))].
Proof.
  intros Hfin.
  assert (Hfin' : Forall finite_score (currentPlayersArray g)).
  { apply currentPlayersArray_finite. unfold JsMap.values.
    by apply Forall_fmap. }
  unfold rankPlayers. rewrite assign_ranks_shown, <- currentPlayersArray_shown.
  split; [|split; [|split; [|split; [|split]]]].
  - apply Permutation_map, js_sort_perm.
  - by apply assign_ranks_sorted, js_sort_sorted.
  - intros v. rewrite !filter_shown. by rewrite js_sort_filter.
  - intros i e (e0 & _ & ->)%assign_ranks_lookup. done.
  - unfold revealAnswer. intros g' out Hrev.
    destruct (Game.questions g !! Game.currentIndex g) as [q|]; [|done].
    simpl in Hrev. injection Hrev as <- <-. by eexists.
  - done.
Qed.

End Ranking.

(* ===================================================================== *)
(** ** Scoring *)
(* ===================================================================== *)

Section Scoring.
Context `{Builtins}.

Open Scope Q_scope.

(** The bonus the loop computes is the bonus of the specification, when the
    answer is not timed before the start of the question. *)
Lemma bonus_formula t ta t0 :
  0 < t -> (t0 <= ta)%Z ->
  500 + inject_Z (Qfloor
          (1000 * (Qmax 0 (t - Qmax 0 ((inject_Z ta - inject_Z t0) / 1000)) / t)
           + (1 # 2)))
  == inject_Z (spec_score_delta t (elapsedSeconds t0 ta) true).
Proof.
  intros Ht Hle. unfold spec_score_delta, spec_speed_bonus, spec_round, elapsedSeconds.
  rewrite inject_Z_plus.
  assert (E : Qmax 0 ((inject_Z ta - inject_Z t0) / 1000)
              == inject_Z (ta - t0) / 1000).
  { unfold Z.sub. rewrite inject_Z_plus, inject_Z_opp.
    apply Q.max_r.
    assert (inject_Z t0 <= inject_Z ta) by (by rewrite <- Zle_Qle).
    apply Qle_shift_div_l; lra. }
  rewrite E.
  assert (E' : 1000 * (Qmax 0 (t - inject_Z (ta - t0) / 1000) / t)
               == 1000 * Qmax 0 (t - inject_Z (ta - t0) / 1000) / t)
    by (field; lra).
  rewrite E'. reflexivity.
Qed.

(** The score of a reveal in exact arithmetic.  When the timeout of a
    question reveals it, the score of every player goes up by
    [500 + round(1000 * max(0, limit - elapsed) / limit)] if the recorded
    answer of the player is the correct option, where [elapsed] is the time
    in seconds from the start of the question to the answer, and by 0 if
    the answer is another option or there is none, for an answer not timed
    before the start of the question.  The source computes the quotient and
    the product in binary64, whose rounding can move a bonus that lies on a
    half by one point; the numbers of this development do not round. *)
Lemma reveal_applies_score_delta
    (s : server) (k : nat) (tm : timer) (g : Game.t) (q : Question.t) :
  reachable s ->
  timers s !! k = Some tm -> heap s !! tm_game tm = Some g ->
  Game.state g = question -> Game.currentIndex g = tm_idx tm ->
  Game.questions g !! Game.currentIndex g = Some q ->
  exists s' out g' t t0,
    step s (Timeout k) = Some (s', out)
    /\ heap s' !! tm_game tm = Some g'
    /\ Game.state g' = reveal
    /\ Question.timeLimitSec q = Fin t
    /\ Game.questionStart g = Some t0
    /\ forall sid p sc,
         JsMap.get sid (Game.players g) = Some p ->
         is_fin (Player.score p) sc ->
         (forall ta, Player.answerTime p = Some ta -> (t0 <= ta)%Z) ->
         exists p',
           JsMap.get sid (Game.players g') = Some p'
           /\ is_fin (Player.score p')
                (sc + inject_Z (spec_score_delta t
                                  (elapsedSeconds t0 (default t0 (Player.answerTime p)))
                                  (recorded_correct q p))).
Proof.
  intros Hs Hk Hg Hst Hidx Hq.
  destruct (reachable_game_wf s _ g Hs Hg) as (Hqs & Hps & _ & Hstart & _).
  destruct (Hstart Hst) as [t0 Ht0].
  rewrite Forall_forall in Hqs.
  destruct (Hqs q) as [_ (t & Ht & Hlo & Hhi)]; [by eapply list_elem_of_lookup_2|].
  destruct (revealAnswer_is_Some g q Hq) as [[g' out] Hrev].
  exists (put_game (tm_game tm) g'
            {| games := games s; heap := heap s;
               timers := base.delete k (timers s) |}), out, g', t, t0.
  split.
  { simpl. unfold timeout. rewrite Hk, Hg.
    rewrite bool_decide_eq_true_2 by done.
    rewrite (proj2 (Nat.eqb_eq _ _) Hidx). simpl. by rewrite Hrev. }
  split; [by apply (put_game_lookup_eq _ _ g)|].
  apply revealAnswer_game in Hrev as (q' & Hq' & ->).
  rewrite Hq in Hq'. injection Hq' as <-.
  split; [done|]. split; [done|]. split; [done|].
  intros sid p sc Hp Hsc Hclock. simpl.
  exists (score_player q (Game.questionStart g) p).
  split; [by rewrite get_map_snd, Hp|].
  destruct (recorded_correct q p) eqn:Hcorrect.
  - assert (Hans : exists ta, Player.answerTime p = Some ta).
    { destruct (get_values_Forall _ _ _ _ Hps Hp) as [_ Hw].
      unfold recorded_correct in Hcorrect.
      apply andb_true_iff in Hcorrect as [Ha _]. rewrite Ha in Hw.
      destruct Hw as (_ & ta & _ & _ & Hta). by exists ta. }
    destruct Hans as [ta Hta].
    eapply is_fin_eq.
    + apply (score_player_correct q (Game.questionStart g) p t sc Hcorrect);
        [rewrite Ht; apply is_fin_Fin | lra | done].
    + rewrite Hta, Ht0. simpl default.
      rewrite bonus_formula; [reflexivity | lra | by apply Hclock].
  - rewrite score_player_wrong by done.
    eapply is_fin_eq; [exact Hsc|]. simpl. unfold inject_Z. lra.
Qed.

End Scoring.

(* ===================================================================== *)
(** ** The properties on concrete runs *)
(* ===================================================================== *)

Lemma reachable_state_after (ins : list input) :
  is_Some (run init_server ins) -> reachable (Demo.state_after ins).
Proof.
  unfold Demo.state_after. intros [[s out] E]. rewrite E. simpl.
  eapply run_reachable; [constructor | exact E].
Qed.

Lemma reachable_lobby_server : reachable Demo.lobby_server.
Proof.
  apply (reachable_state_after
           [HostCreateGame Demo.host Demo.pin;
            PlayerJoin Demo.sam (Demo.join_as "Sam")]).
  vm_compute. by eexists.
Qed.

Lemma reachable_question_server : reachable Demo.question_server.
Proof. apply (reachable_state_after Demo.opening). vm_compute. by eexists. Qed.

Lemma reachable_answered_server : reachable Demo.answered_server.
Proof. apply (reachable_state_after Demo.answered). vm_compute. by eexists. Qed.

(** The scenario of the specification: two players called Sam, one question
    of ten seconds, the first Sam right after two seconds. *)
Example scenario_of_the_specification :
  let ins :=
    [HostCreateGame Demo.host Demo.pin;
     PlayerJoin Demo.sam (Demo.join_as "Sam");
     PlayerJoin Demo.sam2 (Demo.join_as "Sam");
     HostStartGame Demo.host (Demo.quiz [Demo.ask "only" 1 10]) 0;
     PlayerAnswer Demo.sam (Demo.answer (Fin 1)) 2000 2000;
     Timeout 0;
     HostNext Demo.host Demo.with_code 11000] in
  state_of 0 (run init_server ins) = Some ended
  /\ List.map (fun e => (Entry.name e, Entry.score e, Entry.rank e))
              (rankPlayers (Demo.game_after ins))
     = [("Sam"%string, Fin 1300, Some 1); ("Sam #2"%string, Fin 0, Some 2)].
Proof. vm_compute. done. Qed.

(** The two scores of the specification for a limit of twenty seconds, and a
    submission after the limit. *)
Example score_at_start_and_at_limit :
  spec_score_delta 20 0 true = 1500%Z
  /\ spec_score_delta 20 20 true = 500%Z
  /\ spec_score_delta 20 0 false = 0%Z
  /\ List.map (fun p => Player.score p)
       (JsMap.values (Game.players (Demo.game_after
          (Demo.opening ++ [PlayerAnswer Demo.sam (Demo.answer (Fin 1)) 1000 1000;
                            Timeout 0])%list)))
     = [Fin 1500]
  /\ List.map (fun p => Player.score p)
       (JsMap.values (Game.players (Demo.game_after
          (Demo.opening ++ [PlayerAnswer Demo.sam (Demo.answer (Fin 1)) 21000 21000;
                            Timeout 0])%list)))
     = [Fin 500]
  /\ step Demo.question_server
       (PlayerAnswer Demo.sam (Demo.answer (Fin 1)) 21001 21001)
     = Some (Demo.question_server, []).
Proof. vm_compute. done. Qed.

(** Scores 300, 300 and 100 get the ranks 1, 2 and 3, the two equal scores
    in the order of the roster. *)
Example ranks_of_equal_scores :
  List.map (fun e => (Entry.name e, Entry.score e, Entry.rank e))
           (rankPlayers Demo.tied_game)
  = [("Ann"%string, Fin 300, Some 1); ("Ben"%string, Fin 300, Some 2);
     ("Cy"%string, Fin 100, Some 3)].
Proof. vm_compute. done. Qed.

(** A second answer to the same question is ignored: the first one stays. *)
Example second_answer_is_ignored :
  step Demo.answered_server (PlayerAnswer Demo.sam (Demo.answer (Fin 2)) 4000 4000)
  = Some (Demo.answered_server, [])
  /\ Player.answerIndex Demo.sam_answered = Some (Fin 1).
Proof. vm_compute. done. Qed.

(** *** C2 *)

Lemma ended_left_only_by_owner_start_or_next_witness :
  heap Demo.ended_server !! 0 = Some Demo.ended_game
  /\ Game.state Demo.ended_game = ended
  /\ step Demo.ended_server (PlayerJoin Demo.sam2 (Demo.join_as "Max"))
     = Some (Demo.ended_server,
             [socket_emit "sock-b" (player_error "Game already started.")])
  /\ exists g', heap Demo.ended_server !! 0 = Some g'
       /\ (Game.state g' = ended
           \/ (Game.state g' = question
               /\ (owner_start (PlayerJoin Demo.sam2 (Demo.join_as "Max")) Demo.ended_game
                   \/ owner_next (PlayerJoin Demo.sam2 (Demo.join_as "Max"))
                        Demo.ended_game))).
Proof.
  split; [reflexivity|]. split; [reflexivity|]. split; [reflexivity|].
  apply (ended_left_only_by_owner_start_or_next
           Demo.ended_server (PlayerJoin Demo.sam2 (Demo.join_as "Max"))
           Demo.ended_server
           [socket_emit "sock-b" (player_error "Game already started.")]
           0 Demo.ended_game); reflexivity.
Defined.

(** C2 as stated fails: a start sent by the host to a game it has ended puts
    the game back to [question]. *)
Lemma ended_game_restarted_by_start :
  state_of 0 (run init_server Demo.ended_early) = Some ended
  /\ state_of 0 (run init_server (Demo.ended_early ++ [Demo.restart 5000])%list)
     = Some question.
Proof. vm_compute. done. Qed.

(** *** C3 *)

Lemma currentIndex_steps_witness :
  heap Demo.reveal_server !! 0 = Some Demo.reveal_game
  /\ step Demo.reveal_server (HostNext Demo.host Demo.with_code 30000)
     = Some (server_of (step Demo.reveal_server (HostNext Demo.host Demo.with_code 30000)),
             outputs_of (step Demo.reveal_server (HostNext Demo.host Demo.with_code 30000)))
  /\ exists g',
       heap (server_of (step Demo.reveal_server
                          (HostNext Demo.host Demo.with_code 30000))) !! 0 = Some g'
       /\ (Game.currentIndex g' = Game.currentIndex Demo.reveal_game
           \/ (owner_next (HostNext Demo.host Demo.with_code 30000) Demo.reveal_game
               /\ Game.state Demo.reveal_game <> question
               /\ Game.currentIndex g' = Game.currentIndex Demo.reveal_game + 1
               /\ Game.currentIndex g' < List.length (Game.questions g'))
           \/ (owner_start (HostNext Demo.host Demo.with_code 30000) Demo.reveal_game
               /\ Game.currentIndex g' = 0)).
Proof.
  split; [reflexivity|]. split; [reflexivity|].
  destruct (currentIndex_steps
              Demo.reveal_server (HostNext Demo.host Demo.with_code 30000)
              (server_of (step Demo.reveal_server
                            (HostNext Demo.host Demo.with_code 30000)))
              (outputs_of (step Demo.reveal_server
                             (HostNext Demo.host Demo.with_code 30000)))
              0 Demo.reveal_game)
    as (g' & Hg' & Hidx & _); [reflexivity | reflexivity |].
  exists g'. split; [exact Hg' | exact Hidx].
Defined.

(** C3 as stated fails: a start sent during the second question sets
    [currentIndex] from 1 back to 0. *)
Lemma currentIndex_reset_by_second_start :
  index_of 0 (run init_server Demo.second_question) = Some 1
  /\ index_of 0 (run init_server (Demo.second_question ++ [Demo.restart 40000])%list)
     = Some 0.
Proof. vm_compute. done. Qed.

(** *** C6 *)

Lemma stale_timeout_is_noop_on_ended_game :
  timers Demo.ended_server !! 0 = Some Demo.first_timer
  /\ heap Demo.ended_server !! tm_game Demo.first_timer = Some Demo.ended_game
  /\ stale (tm_idx Demo.first_timer) Demo.ended_game
  /\ step Demo.ended_server (Timeout 0)
     = Some ({| games := games Demo.ended_server;
                heap := heap Demo.ended_server;
                timers := base.delete 0 (timers Demo.ended_server) |}, []).
Proof.
  split; [reflexivity|]. split; [reflexivity|].
  split; [left; discriminate|].
  apply (stale_timeout_is_noop Demo.ended_server 0 Demo.first_timer Demo.ended_game);
    [reflexivity | reflexivity | left; discriminate].
Qed.

(** C6 fails on this run.  The host starts the game at time 1000 with a
    limit of 20 seconds, ends it, and starts it again at time 5000.  The
    game has left [question] in between, and the timeout of the first start
    is still pending.  When it fires, the guard finds the game in [question]
    at the index 0 it captured, and the question of the second start is
    revealed: three events go out and the game is in [reveal]. *)
Theorem stale_timeout_acts_after_restart :
  state_of 0 (run init_server Demo.ended_early) = Some ended
  /\ timers (Demo.state_after (Demo.ended_early ++ [Demo.restart 5000])%list) !! 0
     = Some Demo.first_timer
  /\ state_of 0 (run init_server (Demo.ended_early ++ [Demo.restart 5000])%list)
     = Some question
  /\ state_of 0 (run init_server
                   (Demo.ended_early ++ [Demo.restart 5000; Timeout 0])%list)
     = Some reveal
  /\ List.length
       (outputs_of (step (Demo.state_after
                            (Demo.ended_early ++ [Demo.restart 5000])%list)
                         (Timeout 0)))
     = 3.
Proof. vm_compute. done. Qed.

(** *** C5 *)

Lemma question_server_has_question (r : nat) (g : Game.t) :
  find_game Demo.question_server (VStr Demo.pin) = Some (r, g) ->
  Game.state g = question ->
  is_Some (Game.questions g !! Game.currentIndex g).
Proof. intros [= <- <-] _. by eexists. Qed.

Lemma sam_answer_accepted :
  answer_accepted Demo.question_server Demo.sam (VStr Demo.pin) 3000
    0 Demo.question_game Demo.sam_waiting Demo.first_question.
Proof.
  repeat split.
  exists 1000%Z, 20%Q. repeat split. vm_compute. discriminate.
Qed.



(** *** C10 *)

Lemma recorded_index_within_0_3_witness :
  get_prop (Demo.answer (Fin 1)) "code" = Some (VStr Demo.pin)
  /\ get_prop (Demo.answer (Fin 1)) "index" = Some (VNum (Fin 1))
  /\ Number (VNum (Fin 1)) = Some (Fin 1)
  /\ answer_accepted Demo.question_server Demo.sam (VStr Demo.pin) 3000
       0 Demo.question_game Demo.sam_waiting Demo.first_question
  /\ exists s' out g' p' idx,
       step Demo.question_server
            (PlayerAnswer Demo.sam (Demo.answer (Fin 1)) 3000 3000) = Some (s', out)
       /\ heap s' !! 0 = Some g'
       /\ JsMap.get (sock_id Demo.sam) (Game.players g') = Some p'
       /\ Player.answerIndex p' = Some idx
       /\ in_range 0 3 idx.
Proof.
  split; [reflexivity|]. split; [reflexivity|]. split; [reflexivity|].
  split; [exact sam_answer_accepted|].
  destruct (recorded_index_within_0_3
              Demo.question_server Demo.sam (Demo.answer (Fin 1)) 3000 3000
              (VStr Demo.pin) (VNum (Fin 1)) (Fin 1) 0 Demo.question_game
              Demo.sam_waiting Demo.first_question
              eq_refl eq_refl eq_refl sam_answer_accepted)
    as (s' & out & g' & p' & idx & Hstep & Hg' & Hp' & Hidx & Hrange & _).
  exists s', out, g', p', idx. repeat split; assumption.
Defined.

(** C10 fails on these submissions.  The index 1.5 passes the clamp as it
    is: it is recorded, and at the reveal [counts[1.5]++] touches none of
    the four slots, so the answer is in no tally.  An index that is an
    object with a [toString] of its own is not coerced to 0: [Number] throws
    on it, and nothing is recorded. *)
Theorem fractional_index_misses_the_tally :
  let ins := (Demo.opening
              ++ [PlayerAnswer Demo.sam (Demo.answer (Fin (3 # 2))) 3000 3000])%list in
  List.map (fun p => Player.answerIndex p)
           (JsMap.values (Game.players (Demo.game_after ins)))
  = [Some (Fin (3 # 2))]
  /\ JsNum.array_index (Fin (3 # 2)) = None
  /\ tally (JsMap.values (Game.players (Demo.game_after ins)))
     = Counts.mk [0; 0; 0; 0] [Fin (3 # 2)]
  /\ step Demo.question_server
          (PlayerAnswer Demo.sam (Demo.answer_with Demo.unprintable) 3000 3000)
     = None.
Proof. vm_compute. done. Qed.

(** *** C7 *)


(** An entry whose prompt is an object with a [toString] of its own makes
    the start throw: nothing is stored. *)
Example unprintable_prompt_stops_the_start :
  step Demo.lobby_server
       (HostStartGame Demo.host
          (Demo.quiz [VObj [("prompt"%string, Demo.unprintable)]]) 1000)
  = None.
Proof. vm_compute. done. Qed.


(** *** C8 *)

Lemma joined_names_stay_distinct_witness :
  reachable Demo.lobby_server
  /\ heap Demo.lobby_server !! 0 = Some Demo.lobby_game
  /\ List.map (fun kp => Player.name (snd kp)) (Game.players Demo.lobby_game)
     = ["Sam"%string]
  /\ distinct_names Demo.lobby_game
  /\ exists m s' out g' p,
       step Demo.lobby_server (PlayerJoin Demo.sam2 (Demo.join_as "SAM"))
       = Some (s', out)
       /\ heap s' !! 0 = Some g'
       /\ JsMap.get "sock-b" (Game.players g') = Some p
       /\ Player.name p = candidate "SAM" m
       /\ ~ collides Demo.lobby_game (candidate "SAM" m)
       /\ (forall j, j < m -> collides Demo.lobby_game (candidate "SAM" j))
       /\ distinct_names g'.
Proof.
  split; [exact reachable_lobby_server|]. split; [reflexivity|].
  split; [reflexivity|].
  destruct (joined_names_stay_distinct Demo.lobby_server 0 Demo.lobby_game
              reachable_lobby_server eq_refl) as [Hdistinct Hjoin].
  split; [exact Hdistinct|].
  exact (Hjoin Demo.sam2 (Demo.join_as "SAM") (VStr Demo.pin) (VStr "SAM")
               eq_refl eq_refl eq_refl eq_refl).
Defined.

(** In that join "SAM" collides with "Sam" and "SAM #2" with nobody: the
    new player is "SAM #2". *)
Example second_sam_gets_the_suffix :
  equal_ignoring_case "SAM" "Sam" = true
  /\ equal_ignoring_case "SAM #2" "Sam" = false
  /\ candidate "SAM" 1 = "SAM #2"%string
  /\ List.map (fun kp => Player.name (snd kp))
       (Game.players (Demo.game_after
          [HostCreateGame Demo.host Demo.pin;
           PlayerJoin Demo.sam (Demo.join_as "Sam");
           PlayerJoin Demo.sam2 (Demo.join_as "SAM")]))
     = ["Sam"; "SAM #2"]%string.
Proof. vm_compute. done. Qed.

(** A second "sam", in another letter case, becomes "sam #2"; with "Sam" and
    "Sam #2" present a third one becomes "Sam #3". *)
Example suffixes_of_colliding_names :
  List.map (fun p => Player.name p)
    (JsMap.values (Game.players (Demo.game_after
       [HostCreateGame Demo.host Demo.pin;
        PlayerJoin Demo.sam (Demo.join_as "Sam");
        PlayerJoin Demo.sam2 (Demo.join_as "  sam ");
        PlayerJoin Demo.host2 (Demo.join_as "SAM");
        PlayerJoin Demo.host (Demo.join_as "Sam #2")])))
  = ["Sam"; "sam #2"; "SAM #3"; "Sam #2 #2"]%string.
Proof. vm_compute. done. Qed.

(** *** C9 *)

Lemma leaderboard_sorted_stable_ranked_witness :
  Forall (fun kp => finite (Player.score (snd kp))) (Game.players Demo.tied_game)
  /\ List.map shown_of_player (Game.players Demo.tied_game)
     = [("s1", "Ann", Fin 300); ("s2", "Ben", Fin 300); ("s3", "Cy", Fin 100)]%string
  /\ Permutation (List.map shown_of_entry (rankPlayers Demo.tied_game))
                 (List.map shown_of_player (Game.players Demo.tied_game))
  /\ StronglySorted score_ge (rankPlayers Demo.tied_game)
  /\ List.filter (has_score (Fin 300))
       (List.map shown_of_entry (rankPlayers Demo.tied_game))
     = List.filter (has_score (Fin 300))
         (List.map shown_of_player (Game.players Demo.tied_game))
  /\ (forall i e, rankPlayers Demo.tied_game !! i = Some e ->
                  Entry.rank e = Some (i + 1)).
Proof.
  assert (Hfin : Forall (fun kp => finite (Player.score (snd kp)))
                        (Game.players Demo.tied_game))
    by (repeat constructor; eexists; reflexivity).
  split; [exact Hfin|]. split; [reflexivity|].
  destruct (leaderboard_sorted_stable_ranked Demo.tied_game Hfin)
    as (Hperm & Hsorted & Hstable & Hrank & _).
  split; [exact Hperm|]. split; [exact Hsorted|].
  split; [exact (Hstable (Fin 300)) | exact Hrank].
Defined.

(** *** The score of a reveal *)

Lemma reveal_applies_score_delta_witness :
  reachable Demo.answered_server
  /\ timers Demo.answered_server !! 0 = Some Demo.first_timer
  /\ heap Demo.answered_server !! tm_game Demo.first_timer = Some Demo.answered_game
  /\ Game.state Demo.answered_game = question
  /\ Game.currentIndex Demo.answered_game = tm_idx Demo.first_timer
  /\ Game.questions Demo.answered_game !! Game.currentIndex Demo.answered_game
     = Some Demo.first_question
  /\ exists s' out g' p',
       step Demo.answered_server (Timeout 0) = Some (s', out)
       /\ heap s' !! tm_game Demo.first_timer = Some g'
       /\ Game.state g' = reveal
       /\ JsMap.get "sock-a" (Game.players g') = Some p'
       /\ is_fin (Player.score p') (inject_Z 1400).
Proof.
  split; [exact reachable_answered_server|].
  split; [reflexivity|]. split; [reflexivity|]. split; [reflexivity|].
  split; [reflexivity|]. split; [reflexivity|].
  destruct (reveal_applies_score_delta
              Demo.answered_server 0 Demo.first_timer Demo.answered_game
              Demo.first_question reachable_answered_server
              eq_refl eq_refl eq_refl eq_refl eq_refl)
    as (s' & out & g' & t & t0 & Hstep & Hg' & Hst & Ht & Ht0 & Hscore).
  injection Ht as <-. injection Ht0 as <-.
  destruct (Hscore "sock-a"%string Demo.sam_answered 0%Q eq_refl (is_fin_Fin 0))
    as (p' & Hp' & Hfin).
  { intros ta [= <-]. discriminate. }
  exists s', out, g', p'. repeat split; assumption.
Defined.

(* ===================================================================== *)
(** ** Sanitized names *)
(* ===================================================================== *)

Section SanitizedNames.
Context `{Builtins}.

Open Scope string_scope.

Lemma collapse_length inrun s :
  String.length (collapse inrun s) <= String.length s.
Proof.
  revert inrun. induction s as [|c s IH]; intros inrun; simpl; [done|].
  pose proof (IH true). pose proof (IH false).
  destruct (is_space c); [destruct inrun|]; simpl; lia.
Qed.

Lemma substring_length_le n s : String.length (substring 0 n s) <= n.
Proof.
  revert s. induction n as [|n IH]; intros [|c s]; simpl; try lia.
  specialize (IH s). lia.
Qed.

Lemma collapse_single_spaced s :
  forall inrun prev, (prev = true -> inrun = true) ->
    single_spaced prev (collapse inrun s) = true.
Proof.
  induction s as [|c s IH]; intros inrun prev Hp; simpl; [done|].
  destruct (is_space c) eqn:Ec.
  - destruct inrun.
    + by apply IH.
    + simpl. destruct prev; [by specialize (Hp eq_refl)|]. simpl.
      by apply IH.
  - simpl. rewrite Ec. by apply IH.
Qed.

Lemma trimStart_head s :
  trimStart s = "" \/ exists c t, trimStart s = String c t /\ is_space c = false.
Proof.
  induction s as [|c s IH]; simpl; [by left|].
  destruct (is_space c) eqn:Ec; [done|]. right. by exists c, s.
Qed.

Lemma trimEnd_head c t :
  is_space c = false -> exists t', trimEnd (String c t) = String c t'.
Proof. intros Ec. simpl. rewrite Ec. destruct (trimEnd t); by eexists. Qed.

Lemma trim_head s :
  trim s = "" \/ exists c t, trim s = String c t /\ is_space c = false.
Proof.
  unfold trim. destruct (trimStart_head s) as [->|(c & t & -> & Ec)]; [by left|].
  right. destruct (trimEnd_head c t Ec) as [t' ->]. by exists c, t'.
Qed.

(** What [sanitizeName] returns when it does not fall back to the default
    name. *)
Lemma sanitizeName_cases name :
  sanitizeName name = "Player"
  \/ exists s c t, name = VStr s /\ is_space c = false
       /\ slice0 24 (trim s) = String c t
       /\ sanitizeName name = String c (collapse false t).
Proof.
  destruct name as [| | | |s| |]; try (by left). simpl.
  destruct (String.eqb_spec s ""); [by left|].
  destruct (trim_head s) as [E|(c & t & E & Ec)]; rewrite E.
  - by left.
  - right. exists s, c, (substring 0 23 t).
    rewrite E. split; [done|]. split; [done|]. split; [done|].
    unfold slice0, replace_spaces. simpl. by rewrite Ec.
Qed.

(** X1.  Whatever is sent as a name, the sanitized name is not empty, has at
    most 24 characters, does not start with white space, and holds no white
    space other than single plain spaces. *)
Theorem sanitizeName_shape (name : jsval) :
  sanitizeName name <> ""
  /\ String.length (sanitizeName name) <= 24
  /\ starts_with_space (sanitizeName name) = false
  /\ single_spaced false (sanitizeName name) = true.
Proof.
  destruct (sanitizeName_cases name) as [->|(s & c & t & -> & Ec & Es & ->)].
  { split; [done|]. split; [simpl; lia|]. done. }
  split; [done|]. split; [|split].
  - pose proof (substring_length_le 24 (trim s)) as Hlen.
    unfold slice0 in Es. rewrite Es in Hlen. simpl in *.
    pose proof (collapse_length false t). lia.
  - done.
  - simpl. rewrite Ec. by apply collapse_single_spaced.
Qed.

Lemma trimStart_clean s : starts_with_space s = false -> trimStart s = s.
Proof. destruct s as [|c s]; simpl; [done|]. by intros ->. Qed.

Lemma trimEnd_clean s : ends_with_space s = false -> trimEnd s = s.
Proof.
  induction s as [|c s IH]; [done|]. intros He.
  destruct s as [|c' s].
  - simpl in *. by rewrite He.
  - change (ends_with_space (String c (String c' s)))
      with (ends_with_space (String c' s)) in He.
    change (trimEnd (String c (String c' s)))
      with (match trimEnd (String c' s) with
            | "" => if is_space c then "" else String c ""
            | t => String c t
            end).
    by rewrite IH.
Qed.

Lemma substring_all n s : String.length s <= n -> substring 0 n s = s.
Proof.
  revert s. induction n as [|n IH]; intros [|c s]; simpl; try done; try lia.
  intros Hl. rewrite IH; [done | lia].
Qed.

Lemma collapse_clean s :
  forall prev, single_spaced prev s = true -> collapse prev s = s.
Proof.
  induction s as [|c s IH]; intros prev; simpl; [done|].
  destruct (is_space c) eqn:Ec.
  - intros [[Hc ->%negb_true_iff]%andb_true_iff Hs]%andb_true_iff.
    apply Ascii.eqb_eq in Hc as ->. by rewrite IH.
  - intros Hs. by rewrite IH.
Qed.

(** X2.  A name that is already clean is kept as it was typed. *)
Theorem sanitizeName_keeps_clean_names (s : string) :
  clean_name s = true -> sanitizeName (VStr s) = s.
Proof.
  unfold clean_name.
  intros [[[[Hne%negb_true_iff Hlen%Nat.leb_le]%andb_true_iff
             Hst%negb_true_iff]%andb_true_iff
            He%negb_true_iff]%andb_true_iff Hsp]%andb_true_iff.
  simpl. rewrite Hne. unfold trim, slice0.
  rewrite (trimStart_clean s Hst), (trimEnd_clean s He), (substring_all _ _ Hlen).
  rewrite Hne. by apply collapse_clean.
Qed.

Lemma trimStart_pad pad s : all_space pad = true -> trimStart (pad ++ s) = trimStart s.
Proof.
  induction pad as [|c pad IH]; simpl; [done|].
  intros [-> Hp]%andb_true_iff. by apply IH.
Qed.

Lemma trimEnd_all_space pad : all_space pad = true -> trimEnd pad = "".
Proof.
  induction pad as [|c pad IH]; simpl; [done|].
  intros [-> Hp]%andb_true_iff. by rewrite IH.
Qed.

Lemma trimEnd_pad pad s : all_space pad = true -> trimEnd (s ++ pad) = trimEnd s.
Proof.
  intros Hp. induction s as [|c s IH]; simpl.
  - by apply trimEnd_all_space.
  - by rewrite IH.
Qed.

Lemma trimStart_all_space pad : all_space pad = true -> trimStart pad = "".
Proof.
  induction pad as [|c pad IH]; simpl; [done|].
  intros [-> Hp]%andb_true_iff. by apply IH.
Qed.

Lemma trimStart_app_pad s pad :
  all_space pad = true ->
  trimStart (s ++ pad) = "" /\ trimStart s = ""
  \/ trimStart (s ++ pad) = trimStart s ++ pad.
Proof.
  intros Hp. induction s as [|c s IH]; simpl.
  - left. split; [by apply trimStart_all_space | done].
  - destruct (is_space c); [done|]. by right.
Qed.

(** X3.  White space around a name does not count: the name sanitizes to the
    same result with and without it. *)
Theorem sanitizeName_ignores_outer_space (before s after : string) :
  all_space before = true -> all_space after = true ->
  sanitizeName (VStr (before ++ s ++ after)) = sanitizeName (VStr s).
Proof.
  intros Hb Ha.
  assert (Ht : trim (before ++ s ++ after) = trim s).
  { unfold trim. rewrite (trimStart_pad _ _ Hb).
    destruct (trimStart_app_pad s after Ha) as [[-> ->]| ->]; [done|].
    by apply trimEnd_pad. }
  simpl. rewrite Ht.
  destruct (String.eqb_spec (before ++ s ++ after) "") as [E|E];
    destruct (String.eqb_spec s "") as [E'|E']; try done.
  - destruct before; [|done]. destruct s; [done|]. done.
  - by subst s.
Qed.

End SanitizedNames.

(* ===================================================================== *)
(** ** Rosters and scores in the reachable states *)
(* ===================================================================== *)

Section Rosters.
Context `{Builtins}.

Open Scope string_scope.

Lemma keys_map_snd {V : Type} (f : V -> V) (m : list (string * V)) :
  JsMap.keys (List.map (fun kp => (fst kp, f (snd kp))) m) = JsMap.keys m.
Proof. unfold JsMap.keys. rewrite List.map_map. done. Qed.

Lemma set_entries {V : Type} (k : string) (v : V) (m : list (string * V)) :
  (exists m1 v0 m2, JsMap.get k m = Some v0 /\ JsMap.get k m1 = None
      /\ m = (m1 ++ (k, v0) :: m2)%list
      /\ JsMap.set k v m = (m1 ++ (k, v) :: m2)%list)
  \/ (JsMap.get k m = None /\ JsMap.set k v m = (m ++ [(k, v)])%list).
Proof.
  destruct (JsMap.get k m) as [v0|] eqn:E.
  - left. destruct (get_split _ _ _ E) as (m1 & m2 & -> & Hm1).
    exists m1, v0, m2. split; [done|]. split; [done|]. split; [done|].
    by apply set_present.
  - right. split; [done|]. by apply set_absent.
Qed.

Lemma filter_sublist_length {A : Type} (f : A -> bool) (l1 l2 : list A) :
  sublist l1 l2 ->
  List.length (List.filter f l1) <= List.length (List.filter f l2).
Proof.
  induction 1; simpl; [done| |]; destruct (f x); simpl; lia.
Qed.

Lemma filter_none {A : Type} (f : A -> bool) (l : list A) :
  Forall (fun x => f x = false) l -> List.filter f l = [].
Proof. induction 1 as [|x l Hx _ IH]; simpl; [done|]. by rewrite Hx. Qed.

Lemma roster_ok_map (f : Player.t -> Player.t) (g : Game.t)
    (ps : list (string * Player.t)) :
  (forall p, Player.id (f p) = Player.id p) ->
  NoDup (JsMap.keys ps)
  /\ Forall (fun kp => Player.id (snd kp) = fst kp) ps ->
  NoDup (JsMap.keys (List.map (fun kp => (fst kp, f (snd kp))) ps))
  /\ Forall (fun kp => Player.id (snd kp) = fst kp)
            (List.map (fun kp => (fst kp, f (snd kp))) ps).
Proof.
  intros Hf [Hnd Hid]. split; [by rewrite keys_map_snd|].
  rewrite Forall_forall in Hid. apply Forall_forall.
  intros kp (x & -> & Hx)%elem_of_map. simpl. rewrite Hf. by apply Hid.
Qed.

Lemma roster_ok_set (sid : string) (p : Player.t) (ps : list (string * Player.t)) :
  Player.id p = sid ->
  NoDup (JsMap.keys ps)
  /\ Forall (fun kp => Player.id (snd kp) = fst kp) ps ->
  NoDup (JsMap.keys (JsMap.set sid p ps))
  /\ Forall (fun kp => Player.id (snd kp) = fst kp) (JsMap.set sid p ps).
Proof.
  intros Hp [Hnd Hid]. split; [by apply keys_set_NoDup|].
  destruct (set_entries sid p ps) as [(m1 & v0 & m2 & _ & _ & E & ->)|[_ ->]].
  - rewrite E in Hid. by eapply Forall_replace.
  - apply Forall_app. split; [done|]. by constructor.
Qed.

Lemma roster_ok_delete (sid : string) (ps : list (string * Player.t)) :
  NoDup (JsMap.keys ps)
  /\ Forall (fun kp => Player.id (snd kp) = fst kp) ps ->
  NoDup (JsMap.keys (JsMap.delete sid ps))
  /\ Forall (fun kp => Player.id (snd kp) = fst kp) (JsMap.delete sid ps).
Proof.
  intros [Hnd Hid]. split; [by apply keys_delete_NoDup|].
  eapply Forall_sublist; [apply delete_sublist | done].
Qed.

(** The points one reveal gives to one player: none, or between 500 and
    1500 for a correct answer. *)
Lemma score_player_whole q start p z :
  wf_question q -> score_is z p ->
  exists d : Z,
    score_is (z + d) (score_player q start p)
    /\ (recorded_correct q p = false -> d = 0%Z)
    /\ (recorded_correct q p = true -> (500 <= d <= 1500)%Z).
Proof.
  intros [_ (t & Ht & Hlo & Hhi)] Hz.
  destruct (recorded_correct q p) eqn:E.
  - pose proof (score_player_correct q start p t (inject_Z z) E) as Hc.
    rewrite Ht in Hc. specialize (Hc (is_fin_Fin t)).
    assert (Hpos : (0 < t)%Q) by lra. specialize (Hc Hpos Hz).
    set (el := Qmax 0 ((inject_Z (default 0%Z (Player.answerTime p))
                        - inject_Z (default 0%Z start)) / 1000)) in *.
    set (x := (1000 * (Qmax 0 (t - el) / t) + (1 # 2))%Q) in *.
    assert (Hel : (0 <= el)%Q) by apply Q.le_max_l.
    assert (Hrem : (0 <= Qmax 0 (t - el) <= t)%Q).
    { split; [apply Q.le_max_l|]. apply Q.max_lub; lra. }
    assert (Hfrac : (0 <= Qmax 0 (t - el) / t <= 1)%Q).
    { split.
      - apply Qle_shift_div_l; [done|]. lra.
      - apply Qle_shift_div_r; [done|]. lra. }
    assert (Hx : (0 <= Qfloor x <= 1000)%Z).
    { assert (Hany : forall fr : Q, (0 <= fr <= 1)%Q ->
                (0 <= Qfloor (1000 * fr + (1 # 2)) <= 1000)%Z).
      { intros fr Hfr. split.
        - apply (Qfloor_resp_le 0). lra.
        - apply (Qfloor_resp_le _ (1000 + (1 # 2))). lra. }
      by apply Hany. }
    exists (500 + Qfloor x)%Z. split; [|split; [done | intros _; lia]].
    unfold score_is. eapply is_fin_eq; [exact Hc|].
    rewrite !inject_Z_plus. reflexivity.
  - exists 0%Z. rewrite score_player_wrong by done.
    split; [|split; [done | done]].
    unfold score_is in *. eapply is_fin_eq; [exact Hz|].
    rewrite inject_Z_plus. unfold inject_Z at 3. lra.
Qed.

Lemma score_player_keeps_whole q start p :
  wf_question q -> whole_score p -> whole_score (score_player q start p).
Proof.
  intros Hq (z & Hz & Hs).
  destruct (score_player_whole q start p z Hq Hs) as (d & Hd & H0 & H1).
  exists (z + d)%Z. split; [|done].
  destruct (recorded_correct q p); [specialize (H1 eq_refl) | specialize (H0 eq_refl)]; lia.
Qed.

Lemma answered_count_map (f : Player.t -> Player.t) (ps : list (string * Player.t)) :
  (forall p, Player.answered (f p) = Player.answered p) ->
  List.filter Player.answered
    (JsMap.values (List.map (fun kp => (fst kp, f (snd kp))) ps))
  = List.map f (List.filter Player.answered (JsMap.values ps)).
Proof.
  intros Hf. rewrite values_map_snd.
  induction (JsMap.values ps) as [|p l IH]; simpl; [done|].
  rewrite Hf. destruct (Player.answered p); simpl; by rewrite IH.
Qed.

Ltac tidy_split := split; [|split; [|split]]; simpl.

(** Every effect keeps a roster tidy. *)
Lemma effect_tidy g i g' :
  effect g i g' -> wf_game g -> tidy_game g -> tidy_game g'.
Proof.
  intros He (Hqs & _) (Hros & Hwhole & Hlobby & Hcount).
  unfold tidy_game, roster_ok, answered_count in *.
  destruct He as [i| | sock payload now l qs r g' out tm Ho Hl Hm Hne Hs
                  | | sock payload now r g' out tm Ho Hst Hlt Hs
                  | | sock payload name Hst Hn
                  | sock payload now1 now2 index idx player q Hst Hi Hidx Hp Ha Hq Hlate
                  | sock | k g' out Hst Hrev].
  - done.
  - tidy_split; done.
  - apply startQuestion_game in Hs as (-> & _). tidy_split.
    + by apply (roster_ok_map Player.clear_answer g).
    + apply Forall_values_map; [|done]. by intros p.
    + done.
    + rewrite values_map_snd, filter_none; [done|]. apply Forall_forall.
      by intros p (x & -> & _)%elem_of_map.
  - rewrite endGame_fst. tidy_split; done.
  - apply startQuestion_game in Hs as (-> & _). tidy_split.
    + by apply (roster_ok_map Player.clear_answer g).
    + apply Forall_values_map; [|done]. by intros p.
    + done.
    + rewrite values_map_snd, filter_none; [done|]. apply Forall_forall.
      by intros p (x & -> & _)%elem_of_map.
  - rewrite endGame_fst. tidy_split; done.
  - assert (Hnew : fresh_player
              (Player.mk (sock_id sock) (ensureUniqueName g name) (Fin 0) false None None))
      by (split; [apply is_fin_Fin | done]).
    specialize (Hlobby Hst).
    assert (Hall : Forall fresh_player
              (JsMap.values (JsMap.set (sock_id sock)
                 (Player.mk (sock_id sock) (ensureUniqueName g name) (Fin 0) false None None)
                 (Game.players g))))
      by (by apply set_player_Forall).
    tidy_split.
    + by apply roster_ok_set.
    + eapply Forall_impl; [exact Hall|]. intros p [Hp _]. by exists 0%Z.
    + done.
    + rewrite filter_none; [simpl; lia|].
      eapply Forall_impl; [exact Hall|]. by intros p [_ Hp].
  - tidy_split.
    + apply roster_ok_set; [|done]. simpl.
      destruct Hros as [_ Hid]. rewrite Forall_forall in Hid.
      by apply (Hid (sock_id sock, player)), get_elem_of.
    + apply set_player_Forall; [done|].
      by apply (get_values_Forall _ _ _ _ Hwhole Hp).
    + congruence.
    + destruct (values_set (sock_id sock) (Player.lock_answer idx now2 player)
                  (Game.players g))
        as [(l1 & v0 & l2 & Hg & E & ->)|[Hg _]]; [|congruence].
      rewrite E in Hcount. rewrite Hg in Hp. simplify_eq.
      rewrite List.filter_app, length_app in *. simpl in *.
      rewrite Ha in Hcount. simpl. lia.
  - tidy_split.
    + by apply roster_ok_delete.
    + eapply Forall_sublist; [apply values_delete_sublist | done].
    + intros Hst. eapply Forall_sublist; [apply values_delete_sublist | auto].
    + etrans; [|exact Hcount].
      apply filter_sublist_length, values_delete_sublist.
  - apply revealAnswer_game in Hrev as (q & Hq & ->).
    assert (Hwq : wf_question q).
    { rewrite Forall_forall in Hqs. apply Hqs. by eapply list_elem_of_lookup_2. }
    tidy_split.
    + apply (roster_ok_map (score_player q (Game.questionStart g)) g); [|done].
      intros p. by destruct (score_player_answer q (Game.questionStart g) p)
        as (_ & _ & _ & ->).
    + apply Forall_values_map; [|done]. intros p. by apply score_player_keeps_whole.
    + done.
    + rewrite answered_count_map, List.length_map; [done|].
      intros p. by destruct (score_player_answer q (Game.questionStart g) p) as (-> & _).
Qed.

Lemma new_game_tidy sock pin : tidy_game (new_game sock pin).
Proof.
  split; [split; simpl; constructor|]. split; [apply Forall_nil_2|].
  split; [intros _; apply Forall_nil_2 | unfold answered_count; simpl; lia].
Qed.

(** Every game of a reachable state has a tidy roster. *)
Lemma reachable_tidy s :
  reachable s -> forall r g, heap s !! r = Some g -> tidy_game g.
Proof.
  induction 1 as [|s i s' out Hs IH Hstep]; intros r g Hr.
  - simpl in Hr. by rewrite lookup_nil in Hr.
  - destruct (step_origin _ _ _ _ _ _ Hstep Hr)
      as [(g0 & Hr0 & He)|(sock & pin & _ & ->)].
    + eapply effect_tidy; [exact He | by eapply reachable_game_wf | by eapply IH].
    + apply new_game_tidy.
Qed.

End Rosters.

(* ===================================================================== *)
(** ** What a run keeps of a game *)
(* ===================================================================== *)

Section Lifetime.
Context `{Builtins}.

Open Scope string_scope.

Lemma get_delete_eq {V : Type} (k : string) (m : list (string * V)) :
  NoDup (JsMap.keys m) -> JsMap.get k (JsMap.delete k m) = None.
Proof.
  intros Hnd. destruct (JsMap.get k m) as [v|] eqn:E.
  - destruct (get_split _ _ _ E) as (m1 & m2 & -> & Hm1).
    rewrite (delete_present k m1 m2 v Hm1).
    apply get_None_keys. unfold JsMap.keys in *.
    rewrite map_app in *. simpl in Hnd.
    apply NoDup_app in Hnd as (_ & Hdis & [Hk _]%NoDup_cons).
    rewrite not_elem_of_app. split; [|done].
    by apply get_None_keys in Hm1.
  - by rewrite delete_absent.
Qed.

Lemma score_is_unique z z' p : score_is z p -> score_is z' p -> z = z'.
Proof.
  intros Hz Hz'. apply inject_Z_injective. by eapply is_fin_unique.
Qed.

Lemma score_is_same z p p' :
  Player.score p' = Player.score p -> score_is z p -> score_is (z + 0) p'.
Proof. unfold score_is. intros ->. by rewrite Z.add_0_r. Qed.

Ltac same_score := eapply score_is_same; [|eassumption]; done.

(** What an effect does to the score of a player who stays. *)
Lemma effect_score g i g' sid p p' z :
  effect g i g' -> wf_game g -> tidy_game g ->
  JsMap.get sid (Game.players g) = Some p ->
  JsMap.get sid (Game.players g') = Some p' ->
  score_is z p ->
  exists d : Z,
    score_is (z + d) p'
    /\ (d = 0%Z \/ ((500 <= d <= 1500)%Z /\ exists k, i = Timeout k)).
Proof.
  intros He (Hqs & _) ([Hnd _] & _ & Hlobby & _) Hp Hp' Hz.
  destruct He as [i| | sock payload now l qs r g' out tm Ho Hl Hm Hne Hs
                  | | sock payload now r g' out tm Ho Hst Hlt Hs
                  | | sock payload name Hst Hn
                  | sock payload now1 now2 index idx player q Hst Hi Hidx Hpl Ha Hq Hlate
                  | sock | k g' out Hst Hrev].
  - exists 0%Z. split; [|by left]. simplify_eq. same_score.
  - exists 0%Z. split; [|by left]. simpl in Hp'. simplify_eq. same_score.
  - exists 0%Z. split; [|by left].
    apply startQuestion_game in Hs as (-> & _). simpl in Hp'.
    rewrite get_map_snd, Hp in Hp'. simpl in Hp'. simplify_eq.
    same_score.
  - exists 0%Z. split; [|by left]. simpl in Hp'. simplify_eq. same_score.
  - exists 0%Z. split; [|by left].
    apply startQuestion_game in Hs as (-> & _). simpl in Hp'.
    rewrite get_map_snd, Hp in Hp'. simpl in Hp'. simplify_eq.
    same_score.
  - exists 0%Z. split; [|by left]. simpl in Hp'. simplify_eq. same_score.
  - exists 0%Z. split; [|by left]. simpl in Hp'.
    destruct (decide (sock_id sock = sid)) as [<-|Hne].
    + rewrite get_set_eq in Hp'. simplify_eq.
      destruct (get_values_Forall _ _ _ _ (Hlobby Hst) Hp) as [H0 _].
      rewrite (score_is_unique _ _ _ Hz H0). apply is_fin_Fin.
    + rewrite get_set_ne in Hp' by done. simplify_eq. same_score.
  - exists 0%Z. split; [|by left]. simpl in Hp'.
    destruct (decide (sock_id sock = sid)) as [<-|Hne].
    + rewrite get_set_eq in Hp'. simplify_eq. same_score.
    + rewrite get_set_ne in Hp' by done. simplify_eq. same_score.
  - exists 0%Z. split; [|by left]. simpl in Hp'.
    destruct (decide (sock_id sock = sid)) as [<-|Hne].
    + by rewrite get_delete_eq in Hp'.
    + rewrite get_delete_ne in Hp' by done. simplify_eq. same_score.
  - apply revealAnswer_game in Hrev as (q & Hq & ->). simpl in Hp'.
    rewrite get_map_snd, Hp in Hp'. simpl in Hp'. simplify_eq.
    assert (Hwq : wf_question q).
    { rewrite Forall_forall in Hqs. apply Hqs. by eapply list_elem_of_lookup_2. }
    destruct (score_player_whole q (Game.questionStart g) p z Hwq Hz)
      as (d & Hd & H0 & H1).
    exists d. split; [done|].
    destruct (recorded_correct q p); [right | left; by apply H0].
    split; [by apply H1 | by exists k].
Qed.

(** X4.  In every reachable state the score of a player is a whole number,
    zero or more.  A step never lowers it: it stays as it is, except at a
    reveal by a timeout, which adds between 500 and 1500 points to it or
    nothing. *)
Theorem scores_are_whole_and_never_drop
    (s : server) (i : input) (s' : server) (out : list output)
    (r : nat) (g g' : Game.t) (sid : string) (p p' : Player.t) :
  reachable s -> step s i = Some (s', out) ->
  heap s !! r = Some g -> heap s' !! r = Some g' ->
  JsMap.get sid (Game.players g) = Some p ->
  JsMap.get sid (Game.players g') = Some p' ->
  exists z d : Z,
    (0 <= z)%Z /\ score_is z p /\ score_is (z + d) p'
    /\ (d = 0%Z \/ ((500 <= d <= 1500)%Z /\ exists k, i = Timeout k)).
Proof.
  intros Hs Hstep Hr Hr' Hp Hp'.
  destruct (step_effect _ _ _ _ _ _ Hstep Hr) as (g1 & Hr1 & He).
  rewrite Hr' in Hr1. injection Hr1 as <-.
  pose proof (reachable_game_wf s r g Hs Hr) as Hwf.
  pose proof (reachable_tidy s Hs r g Hr) as Htidy.
  destruct Htidy as (Hros & Hwhole & Hrest).
  destruct (get_values_Forall _ _ _ _ Hwhole Hp) as (z & Hz0 & Hz).
  destruct (effect_score g i g' sid p p' z He Hwf (conj Hros (conj Hwhole Hrest))
              Hp Hp' Hz) as (d & Hd & Hcases).
  by exists z, d.
Qed.

(** X5.  In every reachable state a roster holds one record per socket, each
    carrying the id of its socket; in the lobby every player has the score 0
    and no answer; the players with a locked answer are never more than the
    answers counted for the host. *)
Theorem rosters_hold_one_record_per_socket (s : server) (r : nat) (g : Game.t) :
  reachable s -> heap s !! r = Some g ->
  NoDup (JsMap.keys (Game.players g))
  /\ (forall sid p, JsMap.get sid (Game.players g) = Some p -> Player.id p = sid)
  /\ (Game.state g = lobby ->
      forall sid p, JsMap.get sid (Game.players g) = Some p ->
        score_is 0 p /\ Player.answered p = false)
  /\ answered_count g <= Game.answersSubmitted g.
Proof.
  intros Hs Hr.
  destruct (reachable_tidy s Hs r g Hr) as ([Hnd Hid] & _ & Hlobby & Hcount).
  split; [done|]. split; [|split; [|done]].
  - intros sid p Hp. rewrite Forall_forall in Hid.
    by apply (Hid (sid, p)), get_elem_of.
  - intros Hst sid p Hp. by apply (get_values_Forall _ _ _ _ (Hlobby Hst) Hp).
Qed.

Lemma effect_code g i g' : effect g i g' -> Game.code g' = Game.code g.
Proof.
  intros He.
  destruct He as [i| | sock payload now l qs r0 g' o tm Ho Hl Hm Hne Hs
                  | | sock payload now r0 g' o tm Ho Hst Hlt Hs
                  | | sock payload name Hst Hn
                  | sock payload now1 now2 index idx player q Hst Hi Hidx Hp Ha Hq Hlate
                  | sock | k g' o Hst Hrev]; try done.
  - by apply startQuestion_game in Hs as (-> & _).
  - by apply startQuestion_game in Hs as (-> & _).
  - by apply revealAnswer_game in Hrev as (q & _ & ->).
Qed.

(** A game that has left the lobby stays out of it, and its roster only
    loses sockets. *)
Lemma effect_started g i g' :
  effect g i g' -> Game.state g <> lobby ->
  Game.state g' <> lobby
  /\ sublist (JsMap.keys (Game.players g')) (JsMap.keys (Game.players g)).
Proof.
  intros He Hst.
  destruct He as [i| | sock payload now l qs r0 g' o tm Ho Hl Hm Hne Hs
                  | | sock payload now r0 g' o tm Ho Hst' Hlt Hs
                  | | sock payload name Hst' Hn
                  | sock payload now1 now2 index idx player q Hst' Hi Hidx Hp Ha Hq Hlate
                  | sock | k g' o Hst' Hrev]; try done.
  - apply startQuestion_game in Hs as (-> & _). simpl.
    split; [done|]. by rewrite keys_map_snd.
  - apply startQuestion_game in Hs as (-> & _). simpl.
    split; [done|]. by rewrite keys_map_snd.
  - simpl. split; [done|]. by rewrite keys_set, Hp.
  - simpl. split; [done|]. apply sublist_map, delete_sublist.
  - apply revealAnswer_game in Hrev as (q & _ & ->). simpl.
    split; [done|]. by rewrite keys_map_snd.
Qed.

(** X6.  Once a game has left the lobby, no run brings it back to the lobby
    and no run adds a socket to its roster: the sockets of the roster after
    the run are among those before it, in the same order. *)
Theorem started_game_admits_no_player (ins : list input) :
  forall (s s' : server) (out : list output) (r : nat) (g : Game.t),
    run s ins = Some (s', out) -> heap s !! r = Some g ->
    Game.state g <> lobby ->
    exists g', heap s' !! r = Some g'
      /\ Game.state g' <> lobby
      /\ sublist (JsMap.keys (Game.players g')) (JsMap.keys (Game.players g)).
Proof.
  induction ins as [|i ins IH]; intros s s' out r g Hrun Hr Hst.
  - simpl in Hrun. simplify_eq. by exists g.
  - simpl in Hrun.
    destruct (step s i) as [[s1 o1]|] eqn:Hstep; [|done]. simpl in Hrun.
    destruct (run s1 ins) as [[s2 o2]|] eqn:Hrun'; [|done]. simpl in Hrun.
    simplify_eq.
    destruct (step_effect _ _ _ _ _ _ Hstep Hr) as (g1 & Hr1 & He).
    destruct (effect_started g i g1 He Hst) as [Hst1 Hsub1].
    destruct (IH s1 s' o2 r g1 Hrun' Hr1 Hst1) as (g' & Hr' & Hst' & Hsub).
    exists g'. split; [done|]. split; [done|]. by etrans.
Qed.

(** The games a registry entry points to. *)
Lemma reachable_registry_code s :
  reachable s ->
  forall c r g, JsMap.get c (games s) = Some r -> heap s !! r = Some g ->
    Game.code g = c.
Proof.
  induction 1 as [|s i s' out Hs IH Hstep]; intros c r g Hc Hr.
  - done.
  - destruct (reachable_wf s Hs) as (_ & Hkeys & Hbound).
    destruct (step_store _ _ _ _ Hstep)
      as [Eh Eg|r0 g0 g1 H0 He Eh Eg|sock pin -> _ Eh Eg|sock code -> Eh Eg];
      rewrite Eh in Hr; rewrite Eg in Hc.
    + by eapply IH.
    + destruct (decide (r = r0)) as [->|Hne].
      * rewrite list_lookup_insert_eq in Hr by (by eapply lookup_lt_Some).
        simplify_eq. rewrite (effect_code _ _ _ He). by eapply IH.
      * rewrite list_lookup_insert_ne in Hr by done. by eapply IH.
    + destruct (decide (pin = c)) as [->|Hne].
      * rewrite get_set_eq in Hc. simplify_eq.
        rewrite lookup_app_r in Hr by done.
        rewrite Nat.sub_diag in Hr. simpl in Hr. by injection Hr as <-.
      * rewrite get_set_ne in Hc by done.
        pose proof (Hbound _ _ Hc) as Hlt.
        rewrite lookup_app_l in Hr by done. by eapply IH.
    + destruct (decide (code = c)) as [->|Hne].
      * by rewrite get_delete_eq in Hc.
      * rewrite get_delete_ne in Hc by done. by eapply IH.
Qed.

Lemma run_code_host ins :
  forall s s' out r g,
    run s ins = Some (s', out) -> heap s !! r = Some g ->
    exists g', heap s' !! r = Some g'
      /\ Game.code g' = Game.code g /\ Game.hostId g' = Game.hostId g.
Proof.
  induction ins as [|i ins IH]; intros s s' out r g Hrun Hr.
  - simpl in Hrun. simplify_eq. by exists g.
  - simpl in Hrun.
    destruct (step s i) as [[s1 o1]|] eqn:Hstep; [|done]. simpl in Hrun.
    destruct (run s1 ins) as [[s2 o2]|] eqn:Hrun'; [|done]. simpl in Hrun.
    simplify_eq.
    destruct (step_effect _ _ _ _ _ _ Hstep Hr) as (g1 & Hr1 & He).
    destruct (IH s1 s' o2 r g1 Hrun' Hr1) as (g' & Hr' & Ec & Eh).
    exists g'. split; [done|].
    by rewrite Ec, Eh, (effect_code _ _ _ He), (effect_hostId _ _ _ He).
Qed.

(** X7.  A game object keeps its code and its host for its whole life, and the
    registry of a reachable state holds a game under its own code: the room a
    handler emits to ([game.code]) is the room its players joined (the code
    they sent). *)
Theorem game_keeps_code_and_host
    (s : server) (ins : list input) (s' : server) (out : list output)
    (r : nat) (g : Game.t) :
  reachable s -> run s ins = Some (s', out) -> heap s !! r = Some g ->
  (exists g', heap s' !! r = Some g'
     /\ Game.code g' = Game.code g /\ Game.hostId g' = Game.hostId g)
  /\ (forall code r1 g1, find_game s' code = Some (r1, g1) ->
        code = VStr (Game.code g1)).
Proof.
  intros Hs Hrun Hr. split; [by eapply run_code_host|].
  intros code r1 g1 Hf.
  destruct (find_game_registered _ _ _ _ Hf) as (c & -> & Hc).
  f_equal. symmetry.
  eapply (reachable_registry_code s'); [by eapply run_reachable | done |].
  by eapply find_game_heap.
Qed.

End Lifetime.

(* ===================================================================== *)
(** ** Who may do what *)
(* ===================================================================== *)

Section Access.
Context `{Builtins}.

Open Scope string_scope.

(** X8.  Without the host flag a socket gets a refusal from each of the five
    host events, whatever the payload holds, and the process state stays as it
    is. *)
Theorem host_events_need_the_host_flag
    (s : server) (sock : socket) (payload : jsval) (pin : string) (now : Z) :
  isHost sock = false -> ~ nullish payload ->
  step s (HostCreateGame sock pin) = Some (s, [not_authorized sock])
  /\ step s (HostStartGame sock payload now) = Some (s, [not_authorized sock])
  /\ step s (HostNext sock payload now) = Some (s, [not_authorized sock])
  /\ step s (HostEnd sock payload) = Some (s, [not_authorized sock])
  /\ step s (HostJoin sock payload) = Some (s, [not_authorized sock]).
Proof.
  intros Hh Hp.
  destruct (get_prop_is_Some payload "code" Hp) as [code Hc].
  destruct (get_prop_is_Some payload "questions" Hp) as [qs Hq].
  simpl. unfold host_createGame, host_startGame, host_next, host_end, host_join.
  rewrite Hc, Hq, Hh. done.
Qed.





(** X10.  A host event on a game is ignored when the sender, host flag or not,
    is not the host of that game, or when the code names no game: nothing
    changes and nothing is emitted, not even a refusal. *)
Theorem foreign_host_is_ignored
    (s : server) (sock : socket) (payload code : jsval) (now : Z) :
  isHost sock = true ->
  get_prop payload "code" = Some code ->
  (forall r g, find_game s code = Some (r, g) -> Game.hostId g <> sock_id sock) ->
  step s (HostStartGame sock payload now) = Some (s, [])
  /\ step s (HostNext sock payload now) = Some (s, [])
  /\ step s (HostEnd sock payload) = Some (s, [])
  /\ step s (HostJoin sock payload) = Some (s, []).
Proof.
  intros Hh Hc Hforeign.
  assert (Hp : ~ nullish payload).
  { intros [->| ->]; done. }
  destruct (get_prop_is_Some payload "questions" Hp) as [qs Hq].
  simpl. unfold host_startGame, host_next, host_end, host_join.
  rewrite Hc, Hq, Hh. simpl.
  destruct (find_game s code) as [[r g]|] eqn:Hf; [|done].
  specialize (Hforeign r g eq_refl).
  destruct (String.eqb_spec (Game.hostId g) (sock_id sock)); [done|]. done.
Qed.

(** X11.  A join is refused with a message, and changes nothing, when the code
    names no game (a code that is not a string never does) and when the game
    has left the lobby. *)
Theorem join_is_refused_outside_the_lobby
    (s : server) (sock : socket) (payload code name : jsval) :
  get_prop payload "code" = Some code ->
  get_prop payload "name" = Some name ->
  ((forall c, code <> VStr c) -> find_game s code = None)
  /\ (find_game s code = None ->
      step s (PlayerJoin sock payload)
      = Some (s, [socket_emit (sock_id sock)
                    (player_error "Game not found. Check the PIN.")]))
  /\ (forall r g, find_game s code = Some (r, g) -> Game.state g <> lobby ->
      step s (PlayerJoin sock payload)
      = Some (s, [socket_emit (sock_id sock)
                    (player_error "Game already started.")])).
Proof.
  intros Hc Hn. split; [|split].
  - intros Hns. destruct code; try done. by specialize (Hns s0).
  - intros Hf. simpl. unfold player_join. rewrite Hc. simpl. rewrite Hn. simpl.
    by rewrite Hf.
  - intros r g Hf Hst. simpl. unfold player_join. rewrite Hc. simpl.
    rewrite Hn. simpl. rewrite Hf. by rewrite bool_decide_eq_false_2.
Qed.

End Access.

(* ===================================================================== *)
(** ** Joining and leaving *)
(* ===================================================================== *)

Section JoinLeave.
Context `{Builtins}.

Open Scope string_scope.

Lemma elem_of_get {V : Type} (k : string) (v : V) (m : list (string * V)) :
  NoDup (JsMap.keys m) -> (k, v) ∈ m -> JsMap.get k m = Some v.
Proof.
  induction m as [|[k' v'] m IH]; simpl.
  - intros _ Hin. by apply elem_of_nil in Hin.
  - intros [Hk Hnd]%NoDup_cons [E|Hin]%elem_of_cons.
    + injection E as -> ->. by rewrite String.eqb_refl.
    + destruct (String.eqb_spec k k') as [->|Hne]; [|by apply IH].
      exfalso. apply Hk. apply elem_of_map. by exists (k', v).
Qed.

(** The loop of [disconnect] over the hosted games finds the code of the
    game that [getGameByHost] returns. *)
Lemma first_hosted_getGameByHost sid hp gs :
  match getGameByHost_from sid hp gs with
  | Some g =>
      exists c r, first_hosted sid hp gs = Some c /\ (c, r) ∈ gs
                  /\ hp !! r = Some g /\ Game.hostId g = sid
  | None =>
      first_hosted sid hp gs = None
      /\ forall c r g, (c, r) ∈ gs -> hp !! r = Some g -> Game.hostId g <> sid
  end.
Proof.
  induction gs as [|[c r] gs IH]; simpl.
  - split; [done|]. intros c r g Hin. by apply elem_of_nil in Hin.
  - destruct (hp !! r) as [g|] eqn:Hr.
    + destruct (String.eqb_spec (Game.hostId g) sid) as [E|E].
      * exists c, r. split; [done|]. split; [by left | done].
      * destruct (getGameByHost_from sid hp gs) as [g'|].
        -- destruct IH as (c' & r' & ? & ? & ? & ?). exists c', r'.
           split; [done|]. split; [by right | done].
        -- destruct IH as [? Hall]. split; [done|].
           intros c' r' g' [E'|Hin]%elem_of_cons Hr'.
           ++ injection E' as -> ->. by simplify_eq.
           ++ by eapply Hall.
    + destruct (getGameByHost_from sid hp gs) as [g'|].
      * destruct IH as (c' & r' & ? & ? & ? & ?). exists c', r'.
        split; [done|]. split; [by right | done].
      * destruct IH as [? Hall]. split; [done|].
        intros c' r' g' [E'|Hin]%elem_of_cons Hr'.
        -- injection E' as -> ->. by simplify_eq.
        -- by eapply Hall.
Qed.


Lemma find_game_get s c r g :
  JsMap.get c (games s) = Some r -> heap s !! r = Some g ->
  find_game s (VStr c) = Some (r, g).
Proof. intros Hc Hr. unfold find_game. by rewrite Hc, Hr. Qed.

(** The game a socket hosts, as [getGameByHost] finds it, is registered under
    its own code. *)
Lemma getGameByHost_registered s sid g :
  reachable s -> getGameByHost s sid = Some g ->
  Game.hostId g = sid
  /\ first_hosted sid (heap s) (games s) = Some (Game.code g)
  /\ exists r, find_game s (VStr (Game.code g)) = Some (r, g).
Proof.
  intros Hs Hg. unfold getGameByHost in Hg.
  pose proof (first_hosted_getGameByHost sid (heap s) (games s)) as Hspec.
  rewrite Hg in Hspec. destruct Hspec as (c & r & Hfirst & Hin & Hr & Hh).
  destruct (reachable_wf s Hs) as (_ & Hkeys & _).
  pose proof (elem_of_get c r (games s) Hkeys Hin) as Hc.
  pose proof (reachable_registry_code s Hs c r g Hc Hr) as ->.
  split; [done|]. split; [done|]. exists r. by apply find_game_get.
Qed.

(** X12.  When a socket that hosts a game disconnects, exactly one game leaves
    the registry: the one [getGameByHost] returns for the socket.  Its room is
    told, its code names no game any more, every other code keeps its game,
    and no game object is touched (the rosters stay as they are, also one that
    holds the socket as a player). *)
Theorem host_disconnect_drops_one_game
    (s : server) (sock : socket) (g : Game.t) :
  reachable s -> getGameByHost s (sock_id sock) = Some g ->
  exists s',
    step s (Disconnect sock)
    = Some (s', [io_to (Game.code g) game_hostDisconnected])
    /\ games s' = JsMap.delete (Game.code g) (games s)
    /\ heap s' = heap s /\ timers s' = timers s
    /\ is_Some (find_game s (VStr (Game.code g)))
    /\ find_game s' (VStr (Game.code g)) = None
    /\ (forall c, c <> Game.code g ->
          find_game s' (VStr c) = find_game s (VStr c)).
Proof.
  intros Hs Hg.
  destruct (getGameByHost_registered s (sock_id sock) g Hs Hg)
    as (Hh & Hfirst & r & Hf).
  destruct (reachable_wf s Hs) as (_ & Hkeys & _).
  eexists. split.
  { simpl. unfold disconnect. rewrite Hfirst. reflexivity. }
  simpl. split; [done|]. split; [done|]. split; [done|].
  split; [by eexists|]. split.
  - unfold find_game. simpl. by rewrite get_delete_eq.
  - intros c Hc. unfold find_game. simpl. by rewrite get_delete_ne.
Qed.



(** X14.  A join in the lobby puts the player in the roster under its socket,
    with the score 0 and no answer, at the end when the socket is new and in
    the place of its old record otherwise.  The socket enters the room of the
    code and is told its name; the room and the host get the roster, whose
    count is the number of players listed. *)
Theorem join_announces_the_roster
    (s : server) (sock : socket) (payload code name : jsval)
    (r : nat) (g : Game.t) :
  reachable s ->
  get_prop payload "code" = Some code ->
  get_prop payload "name" = Some name ->
  find_game s code = Some (r, g) -> Game.state g = lobby ->
  Game.hostId g <> "" ->
  exists g' p,
    p = Player.mk (sock_id sock) (ensureUniqueName g name) (Fin 0) false None None
    /\ step s (PlayerJoin sock payload)
       = Some (put_game r g' s,
               [socket_join (sock_id sock) (Game.code g);
                socket_emit (sock_id sock) (player_joined (Game.code g) (Player.name p));
                io_to (Game.code g) (lobby_update (lobby_view g'));
                io_to (Game.hostId g) (host_lobby_update (lobby_view g'))])
    /\ JsMap.get (sock_id sock) (Game.players g') = Some p
    /\ (forall sid, sid <> sock_id sock ->
          JsMap.get sid (Game.players g') = JsMap.get sid (Game.players g))
    /\ JsMap.keys (Game.players g')
       = (if JsMap.has (sock_id sock) (Game.players g)
          then JsMap.keys (Game.players g)
          else JsMap.keys (Game.players g) ++ [sock_id sock])%list
    /\ lp_count (lobby_view g') = List.length (lp_players (lobby_view g'))
    /\ Entry.mk (sock_id sock) (Player.name p) (Fin 0) None
       ∈ lp_players (lobby_view g').
Proof.
  intros Hs Hc Hn Hf Hst Hhost.
  destruct (find_game_registered _ _ _ _ Hf) as (c & -> & Hreg).
  pose proof (reachable_registry_code s Hs c r g Hreg (find_game_heap _ _ _ _ Hf))
    as Hcode.
  eexists _, _. split; [reflexivity|]. split.
  { simpl. unfold player_join. rewrite Hc. cbn -[find_game]. rewrite Hn.
    cbn -[find_game]. rewrite Hf. rewrite bool_decide_eq_true_2 by done. simpl.
    unfold broadcastLobby. simpl.
    destruct (String.eqb_spec (Game.hostId g) ""); [done|].
    rewrite Hcode. reflexivity. }
  simpl. split; [apply get_set_eq|]. split; [|split; [|split]].
  - intros sid Hne. by apply get_set_ne.
  - rewrite keys_set. unfold JsMap.has.
    by destruct (JsMap.get (sock_id sock) (Game.players g)).
  - unfold currentPlayersArray, JsMap.size, JsMap.values.
    by rewrite !List.length_map.
  - unfold currentPlayersArray. apply elem_of_map.
    eexists (Player.mk (sock_id sock) (ensureUniqueName g name) (Fin 0) false None None).
    split; [done|]. apply elem_of_map. eexists (sock_id sock, _).
    split; [done|]. apply get_elem_of, get_set_eq.
Qed.

(** X15.  After the host of a game disconnects during a question, the game is
    out of the registry, yet the timeout of the question still finds the game
    object: when it fires, the question is revealed to the room of the game
    and scored. *)
Theorem orphaned_game_still_reveals
    (s : server) (sock : socket) (r k : nat) (g : Game.t) (tm : timer)
    (q : Question.t) :
  reachable s -> getGameByHost s (sock_id sock) = Some g ->
  heap s !! r = Some g ->
  Game.state g = question ->
  Game.questions g !! Game.currentIndex g = Some q ->
  timers s !! k = Some tm -> tm_game tm = r -> tm_idx tm = Game.currentIndex g ->
  exists s1 o1 s2 g2 p rest,
    step s (Disconnect sock) = Some (s1, o1)
    /\ find_game s1 (VStr (Game.code g)) = None
    /\ step s1 (Timeout k) = Some (s2, io_to (Game.code g) (question_reveal p) :: rest)
    /\ heap s2 !! r = Some g2
    /\ Game.state g2 = reveal
    /\ revealAnswer g = Some (g2, io_to (Game.code g) (question_reveal p) :: rest).
Proof.
  intros Hs Hg Hr Hst Hq Hk Htm Hidx. subst r.
  destruct (getGameByHost_registered s (sock_id sock) g Hs Hg)
    as (Hh & Hfirst & r0 & Hf).
  destruct (reachable_wf s Hs) as (_ & Hkeys & _).
  destruct (revealAnswer g) as [[g2 out]|] eqn:Hrev;
    [|destruct (revealAnswer_is_Some g q Hq) as [? ?]; congruence].
  assert (exists p rest, out = io_to (Game.code g) (question_reveal p) :: rest)
    as (p & rest & ->).
  { unfold revealAnswer in Hrev. rewrite Hq in Hrev. simpl in Hrev.
    injection Hrev as _ <-. by eexists _, _. }
  eexists _, _, _, g2, p, rest. split.
  { simpl. unfold disconnect. rewrite Hfirst. reflexivity. }
  split; [unfold find_game; simpl; by rewrite get_delete_eq|].
  split; [|split; [|split; [|done]]].
  - simpl. unfold timeout. simpl. rewrite Hk, Hr.
    rewrite bool_decide_eq_true_2 by done.
    rewrite Hidx, Nat.eqb_refl. simpl. rewrite Hrev. simpl. reflexivity.
  - simpl. apply list_lookup_insert_eq. by eapply lookup_lt_Some.
  - by apply revealAnswer_state in Hrev as (-> & _).
Qed.

End JoinLeave.

(* ===================================================================== *)
(** ** When a handler throws *)
(* ===================================================================== *)

Section Throws.
Context `{Builtins}.

Open Scope string_scope.

Lemma startQuestion_current r g now g' out tm :
  startQuestion r g now = Some (g', out, tm) ->
  is_Some (Game.questions g' !! Game.currentIndex g').
Proof.
  intros Hs. pose proof Hs as (-> & _)%startQuestion_game. simpl.
  unfold startQuestion in Hs.
  destruct (Game.questions g !! Game.currentIndex g); [by eexists | done].
Qed.

Lemma find_game_put s code r g r0 g0 :
  find_game s code = Some (r, g) -> heap s !! r0 = Some g0 ->
  forall g1, find_game (put_game r0 g1 s) code
             = Some (r, if decide (r = r0) then g1 else g).
Proof.
  intros Hf Hr0 g1.
  destruct (find_game_registered _ _ _ _ Hf) as (c & -> & Hc).
  pose proof (find_game_heap _ _ _ _ Hf) as Hr.
  unfold find_game. simpl. rewrite Hc.
  destruct (decide (r = r0)) as [->|Hne].
  - rewrite list_lookup_insert_eq by (by eapply lookup_lt_Some). done.
  - rewrite list_lookup_insert_ne by done. by rewrite Hr.
Qed.

Lemma mapM_sanitize_length l qs :
  mapM sanitizeQuestion l = Some qs -> List.length qs = List.length l.
Proof. intros Hm. symmetry. by eapply length_mapM. Qed.

(** What a start does to the store: nothing, or it was sent by the host of
    the game it names. *)
Lemma host_startGame_cases s sock payload now s' out :
  step s (HostStartGame sock payload now) = Some (s', out) ->
  heap s' = heap s
  \/ exists code qv r g,
       get_prop payload "code" = Some code
       /\ get_prop payload "questions" = Some qv
       /\ find_game s code = Some (r, g) /\ owner sock g.
Proof.
  simpl. unfold host_startGame. intros Hstep.
  destruct (get_prop payload "code") as [code|] eqn:Hc; [|done].
  cbn -[find_game] in Hstep.
  destruct (get_prop payload "questions") as [qv|] eqn:Hq; [|done].
  cbn -[find_game] in Hstep.
  destruct (isHost sock) eqn:Hh; cbn -[find_game] in Hstep;
    [|left; by simplify_eq].
  destruct (find_game s code) as [[r g]|] eqn:Hf; [|left; by simplify_eq].
  destruct (String.eqb_spec (Game.hostId g) (sock_id sock)) as [E|E];
    cbn -[find_game] in Hstep; [|left; by simplify_eq].
  right. by exists code, qv, r, g.
Qed.

(** A step on an orderly input keeps a current question in every game with
    an open question. *)
Lemma step_keeps_current s i s' out :
  (forall r g, heap s !! r = Some g -> has_current g) -> orderly i ->
  step s i = Some (s', out) ->
  forall r g', heap s' !! r = Some g' -> has_current g'.
Proof.
  intros Hcur Hi Hstep r g' Hr'.
  assert (Hcase : (exists sock payload now, i = HostStartGame sock payload now)
                  \/ ~ (exists sock payload now, i = HostStartGame sock payload now)).
  { destruct i; try (right; by intros (? & ? & ? & ?)). left. by eexists _, _, _. }
  destruct Hcase as [(sock & payload & now & ->)|Hother].
  - destruct Hi as (_ & l & Hq & Hne & Hall).
    destruct (host_startGame_cases _ _ _ _ _ _ Hstep)
      as [E|(code & qv & r0 & g0 & Hc & Hq' & Hf & Ho)].
    { rewrite E in Hr'. by eapply Hcur. }
    rewrite Hq in Hq'. injection Hq' as <-.
    rewrite (host_startGame_owner s sock payload now code (VArr l) r0 g0 Hc Hq Hf Ho)
      in Hstep.
    destruct (mapM sanitizeQuestion l) as [qs|] eqn:Hm; [|done].
    pose proof (mapM_sanitize_length _ _ Hm) as Hlen.
    destruct (Nat.eqb_spec (List.length qs) 0) as [E0|E0].
    { destruct l; [done|]. simpl in Hlen. lia. }
    destruct (startQuestion _ _ _) as [[[g4 o] tm]|] eqn:Hs; [|done].
    simplify_eq. simpl in Hr'.
    destruct (decide (r = r0)) as [->|Hr0].
    + rewrite list_lookup_insert_eq in Hr'
        by (eapply lookup_lt_Some, find_game_heap; eauto).
      simplify_eq. intros _. by eapply startQuestion_current.
    + rewrite list_lookup_insert_ne in Hr' by done. by eapply Hcur.
  - destruct (step_origin _ _ _ _ _ _ Hstep Hr')
      as [(g & Hr & He)|(sock & pin & _ & ->)]; [|done].
    specialize (Hcur r g Hr). unfold has_current in *.
    destruct He as [i| sock payload now Ho
                    | sock payload now l qs r0 g' o tm Ho Hl Hm Hne Hs
                    | sock payload now Ho Hst Hlt
                    | sock payload now r0 g' o tm Ho Hst Hlt Hs
                    | sock payload Ho
                    | sock payload name Hst Hn'
                    | sock payload now1 now2 index idx player q Hst Hi' Hidx Hp Ha Hq Hlate
                    | sock | k g' o Hst Hrev]; try done.
    + exfalso. apply Hother. by eexists _, _, _.
    + exfalso. apply Hother. by eexists _, _, _.
    + intros _. by eapply startQuestion_current.
    + apply revealAnswer_state in Hrev as (-> & _). done.
Qed.

(** No handler throws on an orderly input when every game with an open
    question has that question. *)
Lemma step_orderly_is_Some s i :
  (forall r g, heap s !! r = Some g -> has_current g) -> orderly i ->
  is_Some (step s i).
Proof.
  intros Hcur Hi.
  destruct i as [sock pin|sock payload now|sock payload now|sock payload
                 |sock payload|sock payload now1 now2|sock payload|sock|k];
    simpl in *.
  - unfold host_createGame. by destruct (isHost sock); eexists.
  - destruct Hi as (Hplain & l & Hq & Hne & Hall).
    assert (Hp : ~ nullish payload) by (intros [->| ->]; done).
    assert (Hall' : Forall (fun v => ~ nullish v /\ plain v = true) l).
    { rewrite Forall_forall in Hall |- *. intros v Hv.
      split; [by apply Hall|].
      eapply plain_elements; [|exact Hv]. by eapply plain_get_prop. }
    destruct (get_prop_is_Some payload "code" Hp) as [code Hc].
    unfold host_startGame. rewrite Hc. cbn -[find_game]. rewrite Hq.
    cbn -[find_game].
    destruct (isHost sock); cbn -[find_game]; [|by eexists].
    destruct (find_game s code) as [[r g]|]; [|by eexists].
    destruct (String.eqb (Game.hostId g) (sock_id sock)); cbn -[find_game];
      [|by eexists].
    destruct (mapM_sanitize_is_Some l Hall') as [qs Hm]. rewrite Hm.
    cbn -[find_game startQuestion].
    pose proof (mapM_sanitize_length _ _ Hm) as Hlen.
    destruct (Nat.eqb_spec (List.length qs) 0) as [E0|E0]; [by eexists|].
    destruct (startQuestion_is_Some r
                (Game.set_currentIndex 0 (Game.set_state question
                   (Game.set_questions qs g))) now) as [[[g4 o] tm] Hs].
    { simpl. lia. }
    rewrite Hs. by eexists.
  - destruct (get_prop_is_Some payload "code" Hi) as [code Hc].
    unfold host_next. rewrite Hc. cbn -[find_game].
    destruct (isHost sock); cbn -[find_game]; [|by eexists].
    destruct (find_game s code) as [[r g]|]; [|by eexists].
    destruct (String.eqb (Game.hostId g) (sock_id sock)); cbn -[find_game];
      [|by eexists].
    destruct (bool_decide (Game.state g = question)); [by eexists|].
    destruct (Nat.leb_spec (List.length (Game.questions g)) (Game.currentIndex g + 1))
      as [Hle|Hlt]; [by eexists|].
    destruct (startQuestion_is_Some r
                (Game.set_currentIndex (Game.currentIndex g + 1) g) now)
      as [[[g4 o] tm] Hs]; [done|].
    cbn -[startQuestion]. rewrite Hs. by eexists.
  - destruct (get_prop_is_Some payload "code" Hi) as [code Hc].
    unfold host_end. rewrite Hc. cbn -[find_game].
    destruct (isHost sock); cbn -[find_game]; [|by eexists].
    destruct (find_game s code) as [[r g]|]; [|by eexists].
    destruct (String.eqb (Game.hostId g) (sock_id sock)); by eexists.
  - destruct (get_prop_is_Some payload "code" Hi) as [code Hc].
    destruct (get_prop_is_Some payload "name" Hi) as [name Hn].
    unfold player_join. rewrite Hc. cbn -[find_game]. rewrite Hn.
    cbn -[find_game].
    destruct (find_game s code) as [[r g]|]; [|by eexists].
    destruct (bool_decide (Game.state g = lobby)); by eexists.
  - destruct Hi as [Hi Hplain].
    destruct (get_prop_is_Some payload "code" Hi) as [code Hc].
    destruct (get_prop_is_Some payload "index" Hi) as [index Hx].
    destruct (proj2 (answer_index_is_Some index)) as [idx Hidx];
      [eapply plain_Number, plain_get_prop; eauto|].
    unfold player_answer. rewrite Hc. cbn -[find_game]. rewrite Hx.
    cbn -[find_game].
    destruct (find_game s code) as [[r g]|] eqn:Hf; [|by eexists].
    destruct (JsMap.get (sock_id sock) (Game.players g)); [|by eexists].
    destruct (bool_decide_reflect (Game.state g = question)) as [Hst|Hst];
      cbn -[find_game]; [|by eexists].
    destruct (Hcur r g (find_game_heap _ _ _ _ Hf) Hst) as [q ->].
    cbn -[find_game JsNum.gtb].
    destruct (JsNum.gtb _ _); [by eexists|].
    destruct (Player.answered t); [by eexists|].
    rewrite Hidx. by eexists.
  - destruct (get_prop_is_Some payload "code" Hi) as [code Hc].
    unfold host_join. rewrite Hc. cbn -[find_game].
    destruct (isHost sock); cbn -[find_game]; [|by eexists].
    destruct (find_game s code) as [[r g]|]; [|by eexists].
    destruct (String.eqb (Game.hostId g) (sock_id sock)); by eexists.
  - unfold disconnect.
    destruct (first_hosted _ _ _); [by eexists|].
    destruct (first_joined _ _ _) as [[r g]|]; by eexists.
  - unfold timeout. destruct (timers s !! k) as [tm|]; [|by eexists].
    destruct (heap s !! tm_game tm) as [g|] eqn:Hr; [|by eexists].
    destruct (bool_decide_reflect (Game.state g = question)) as [Hst|Hst];
      [|by eexists].
    destruct (Game.currentIndex g =? tm_idx tm)%nat; [|by eexists].
    destruct (Hcur _ g Hr Hst) as [q Hq].
    destruct (revealAnswer_is_Some g q Hq) as [[g1 o] ->]. by eexists.
Qed.

(** X16.  No handler ever throws while the payloads are neither [null] nor
    [undefined], every start carries at least one question, none of them
    [null] or [undefined], and no object in the payload of a start or of an
    answer has a property [toString] of its own: from a state in which every
    game with an open question has that question (the initial state is one),
    every run of such inputs goes through, and ends in such a state. *)
Theorem orderly_runs_never_throw (ins : list input) :
  forall s : server,
    (forall r g, heap s !! r = Some g -> has_current g) ->
    Forall orderly ins ->
    exists s' out,
      run s ins = Some (s', out)
      /\ forall r g, heap s' !! r = Some g -> has_current g.
Proof.
  induction ins as [|i ins IH]; intros s Hcur Hall.
  - by exists s, [].
  - apply Forall_cons in Hall as [Hi Hall].
    destruct (step_orderly_is_Some s i Hcur Hi) as [[s1 o1] Hstep].
    destruct (IH s1 (step_keeps_current s i s1 o1 Hcur Hi Hstep) Hall)
      as (s' & o2 & Hrun & Hcur').
    exists s', (o1 ++ o2)%list. split; [|done].
    simpl. rewrite Hstep. simpl. rewrite Hrun. done.
Qed.

(** X17.  A start that carries no question (an empty list, or no list at all),
    sent by the host while a question is open, empties the question list and
    leaves the question open.  From then on the handler of an answer by a
    player of the game throws, and so does the timeout of the open question.
    *)
Theorem empty_start_breaks_the_open_question
    (s : server) (sock : socket) (payload code qv : jsval) (now : Z)
    (r : nat) (g : Game.t) :
  get_prop payload "code" = Some code ->
  get_prop payload "questions" = Some qv ->
  (forall v l, qv <> VArr (v :: l)) ->
  find_game s code = Some (r, g) -> owner sock g ->
  Game.state g = question ->
  exists s1,
    step s (HostStartGame sock payload now) = Some (s1, [])
    /\ find_game s1 code = Some (r, Game.set_questions [] g)
    /\ (forall psock ppayload index now1 now2,
          get_prop ppayload "code" = Some code ->
          get_prop ppayload "index" = Some index ->
          is_Some (JsMap.get (sock_id psock) (Game.players g)) ->
          step s1 (PlayerAnswer psock ppayload now1 now2) = None)
    /\ (forall k tm,
          timers s !! k = Some tm -> tm_game tm = r ->
          tm_idx tm = Game.currentIndex g ->
          step s1 (Timeout k) = None).
Proof.
  intros Hc Hq Hempty Hf Ho Hst.
  pose proof (find_game_heap _ _ _ _ Hf) as Hr.
  assert (Hl : match qv with VArr l => l | _ => [] end = []).
  { destruct qv as [| | | | |[|v l]|]; try done. by specialize (Hempty v l). }
  pose proof (host_startGame_owner s sock payload now code qv r g Hc Hq Hf Ho)
    as Hstep.
  rewrite Hl in Hstep. simpl in Hstep.
  exists (put_game r (Game.set_questions [] g) s). split; [done|].
  assert (Hf1 : find_game (put_game r (Game.set_questions [] g) s) code
                = Some (r, Game.set_questions [] g)).
  { rewrite (find_game_put s code r g r g Hf Hr). by rewrite decide_True. }
  split; [done|]. split.
  - intros psock ppayload index now1 now2 Hpc Hpi [p Hp].
    simpl. unfold player_answer. rewrite Hpc. cbn -[find_game]. rewrite Hpi.
    cbn -[find_game]. rewrite Hf1. simpl. rewrite Hp.
    by rewrite bool_decide_eq_true_2.
  - intros k tm Hk Htm Hidx. subst r. simpl. unfold timeout. simpl.
    rewrite Hk. rewrite list_lookup_insert_eq by (by eapply lookup_lt_Some).
    simpl. rewrite bool_decide_eq_true_2 by done.
    rewrite Hidx, Nat.eqb_refl. simpl.
    done.
Qed.

End Throws.

(* ===================================================================== *)
(** ** What a reveal sends *)
(* ===================================================================== *)

Section Reveal.
Context `{Builtins}.

Open Scope string_scope.

Lemma list_sum_insert (l : list nat) (i n : nat) :
  l !! i = Some n -> list_sum (<[i := S n]> l) = S (list_sum l).
Proof.
  revert i. induction l as [|x l IH]; intros [|i]; simpl; try done.
  - by intros [= ->].
  - intros Hi. rewrite (IH i Hi). lia.
Qed.

(** One increment of the tally adds one, to a slot or to the strays. *)
Lemma incr_conserves k c :
  List.length (Counts.slots (Counts.incr k c)) = List.length (Counts.slots c)
  /\ list_sum (Counts.slots (Counts.incr k c))
     + List.length (Counts.stray (Counts.incr k c))
     = S (list_sum (Counts.slots c) + List.length (Counts.stray c))
  /\ (slot_index k -> List.length (Counts.slots c) = 4 ->
      Counts.stray (Counts.incr k c) = Counts.stray c).
Proof.
  unfold Counts.incr, slot_index.
  destruct (JsNum.array_index k) as [i|] eqn:Ei.
  - destruct (Counts.slots c !! i) as [n|] eqn:En; simpl.
    + split; [by rewrite length_insert|]. split; [|done].
      rewrite (list_sum_insert _ _ _ En). lia.
    + split; [done|]. split; [rewrite length_app; simpl; lia|].
      intros (i' & [= <-] & Hlt) Hlen.
      apply lookup_ge_None in En. lia.
  - simpl. split; [done|]. split; [rewrite length_app; simpl; lia|].
    by intros (i' & ? & _).
Qed.

Lemma tally_from (ps : list Player.t) (c : Counts.t) :
  let c' := List.fold_left
              (fun c p => match Player.answerIndex p with
                          | Some k => Counts.incr k c
                          | None => c
                          end) ps c in
  List.length (Counts.slots c') = List.length (Counts.slots c)
  /\ list_sum (Counts.slots c') + List.length (Counts.stray c')
     = list_sum (Counts.slots c) + List.length (Counts.stray c)
       + List.length (List.filter has_answer ps)
  /\ (Forall (fun p => forall k, Player.answerIndex p = Some k -> slot_index k) ps ->
      List.length (Counts.slots c) = 4 ->
      Counts.stray c' = Counts.stray c).
Proof.
  revert c. induction ps as [|p ps IH]; intros c; simpl.
  - split; [done|]. split; [lia | done].
  - unfold has_answer at 1.
    destruct (Player.answerIndex p) as [k|] eqn:Ek.
    + destruct (IH (Counts.incr k c)) as (Hlen & Hsum & Hstray).
      destruct (incr_conserves k c) as (Hlen1 & Hsum1 & Hstray1).
      split; [congruence|]. split; [simpl; lia|].
      intros [Hp Hall]%Forall_cons H4.
      rewrite Hstray; [|done|congruence]. apply Hstray1; [|done]. by apply Hp.
    + destruct (IH c) as (Hlen & Hsum & Hstray).
      split; [done|]. split; [done|].
      intros [_ Hall]%Forall_cons H4. by apply Hstray.
Qed.

(** X18.  The tally of a reveal counts every recorded answer exactly once, in
    one of the four slots or as a write outside them: the slots and those
    writes add up to the number of players with an answer.  When every
    recorded index is one of 0, 1, 2, 3, nothing is written outside the slots,
    and the slots add up to that number. *)
Theorem tally_counts_every_answer (ps : list Player.t) :
  List.length (Counts.slots (tally ps)) = 4
  /\ list_sum (Counts.slots (tally ps)) + List.length (Counts.stray (tally ps))
     = List.length (List.filter has_answer ps)
  /\ (Forall (fun p => forall k, Player.answerIndex p = Some k -> slot_index k) ps ->
      Counts.stray (tally ps) = []
      /\ list_sum (Counts.slots (tally ps))
         = List.length (List.filter has_answer ps)).
Proof.
  destruct (tally_from ps Counts.init) as (Hlen & Hsum & Hstray).
  unfold tally. split; [done|]. split; [done|].
  intros Hall. specialize (Hstray Hall eq_refl). simpl in Hstray.
  split; [done|]. rewrite Hstray in Hsum. simpl in Hsum. lia.
Qed.





Lemma assign_ranks_length idx (l : list Entry.t) :
  List.length (assign_ranks idx l) = List.length l.
Proof.
  revert idx. induction l as [|e l IH]; intros idx; simpl; [done|].
  by rewrite IH.
Qed.

Lemma rankPlayers_length g :
  List.length (rankPlayers g) = JsMap.size (Game.players g).
Proof.
  unfold rankPlayers. rewrite assign_ranks_length.
  rewrite (Permutation_length (js_sort_perm _ _)).
  unfold currentPlayersArray, JsMap.size, JsMap.values.
  by rewrite !List.length_map.
Qed.





Lemma StronglySorted_split {A : Type} (R : A -> A -> Prop) (l1 l2 : list A) x1 x2 :
  StronglySorted R (l1 ++ l2) -> x1 ∈ l1 -> x2 ∈ l2 -> R x1 x2.
Proof.
  induction l1 as [|y l1 IH]; simpl.
  - intros _ Hx1. by apply elem_of_nil in Hx1.
  - intros Hs [->|Hx1]%elem_of_cons Hx2.
    + apply StronglySorted_inv in Hs as [_ Hall].
      rewrite List.Forall_forall in Hall. apply Hall.
      apply list_elem_of_In, elem_of_app. by right.
    + apply StronglySorted_inv in Hs as [Hs _]. by apply IH.
Qed.

(** X20.  A leaderboard of [topN] entries is the head of the ranking: it has
    [topN] entries, or all of them when the roster is smaller; its entry at
    position [i] has the rank [i + 1]; and no player left out has a higher
    score than a player on it. *)
Theorem leaderboard_holds_the_top (g : Game.t) (topN : nat) :
  Forall (fun p => finite (Player.score p)) (JsMap.values (Game.players g)) ->
  List.length (buildLeaderboard g topN) = Nat.min topN (JsMap.size (Game.players g))
  /\ rankPlayers g = (buildLeaderboard g topN ++ skipn topN (rankPlayers g))%list
  /\ (forall i e, buildLeaderboard g topN !! i = Some e ->
        Entry.rank e = Some (i + 1))
  /\ (forall e e', e ∈ buildLeaderboard g topN ->
        e' ∈ skipn topN (rankPlayers g) -> score_ge e e').
Proof.
  intros Hfin. unfold buildLeaderboard.
  split; [by rewrite length_firstn, rankPlayers_length|].
  split; [by rewrite firstn_skipn|]. split.
  - intros i e Hi. apply lookup_take_Some in Hi as [Hi _].
    unfold rankPlayers in Hi.
    by apply assign_ranks_lookup in Hi as (e0 & _ & ->).
  - intros e e' He He'.
    apply (StronglySorted_split score_ge (firstn topN (rankPlayers g))
             (skipn topN (rankPlayers g))); [|done|done].
    rewrite firstn_skipn. unfold rankPlayers.
    by apply assign_ranks_sorted, js_sort_sorted, currentPlayersArray_finite.
Qed.

End Reveal.

(* ===================================================================== *)
(** ** The timeouts of the questions *)
(* ===================================================================== *)

Section Timeouts.
Context `{Builtins}.

Open Scope string_scope.


Opaque startQuestion revealAnswer ensureUniqueName.




Transparent startQuestion revealAnswer ensureUniqueName.



End Timeouts.

(* ===================================================================== *)
(** ** What is told before a reveal *)
(* ===================================================================== *)

Section Secrecy.
Context `{Builtins}.

Open Scope string_scope.

Lemma same_but_answers_refl g : same_but_answers g g.
Proof. by repeat split. Qed.

Lemma same_but_answers_length g1 g2 :
  same_but_answers g1 g2 ->
  List.length (Game.questions g1) = List.length (Game.questions g2).
Proof.
  intros (_ & _ & _ & _ & _ & _ & _ & Eq).
  apply (f_equal (@List.length _)) in Eq. by rewrite !List.length_map in Eq.
Qed.

Lemma same_but_answers_lookup g1 g2 i :
  same_but_answers g1 g2 ->
  match Game.questions g1 !! i, Game.questions g2 !! i with
  | Some q1, Some q2 => safeQuestion q1 = safeQuestion q2
  | None, None => True
  | _, _ => False
  end.
Proof.
  intros (_ & _ & _ & _ & _ & _ & _ & Eq).
  apply (f_equal (fun l => l !! i)) in Eq.
  rewrite !list_lookup_fmap in Eq.
  destruct (Game.questions g1 !! i), (Game.questions g2 !! i); simpl in Eq;
    try done. congruence.
Qed.

Lemma rankPlayers_players g1 g2 :
  Game.players g1 = Game.players g2 -> rankPlayers g1 = rankPlayers g2.
Proof. intros E. unfold rankPlayers, currentPlayersArray. by rewrite E. Qed.

Lemma endGame_same g1 g2 :
  same_but_answers g1 g2 ->
  snd (endGame g1) = snd (endGame g2)
  /\ same_but_answers (fst (endGame g1)) (fst (endGame g2)).
Proof.
  intros (Ec & Eh & Ep & Es & Ei & Et & Ea & Eq). unfold endGame. simpl.
  rewrite (rankPlayers_players (Game.set_state ended g1) (Game.set_state ended g2))
    by done.
  rewrite Ec, Eh. split; [done|]. by repeat split.
Qed.

Lemma startQuestion_same r g1 g2 now :
  same_but_answers g1 g2 ->
  match startQuestion r g1 now, startQuestion r g2 now with
  | Some (g1', o1, t1), Some (g2', o2, t2) =>
      o1 = o2 /\ t1 = t2 /\ same_but_answers g1' g2'
  | None, None => True
  | _, _ => False
  end.
Proof.
  intros Hsame.
  pose proof (same_but_answers_lookup g1 g2 (Game.currentIndex g1) Hsame) as Hq.
  pose proof (same_but_answers_length g1 g2 Hsame) as Hlen.
  destruct Hsame as (Ec & Eh & Ep & Es & Ei & Et & Ea & Eq).
  unfold startQuestion. rewrite <- Ei.
  destruct (Game.questions g1 !! Game.currentIndex g1) as [q1|],
           (Game.questions g2 !! Game.currentIndex g1) as [q2|]; try done.
  simpl. injection Hq as Epr Eop Etl.
  rewrite <- Ec, <- Eh, <- Ep, Epr, Eop, Etl, Hlen.
  split; [done|]. split; [done|]. by repeat split.
Qed.

Lemma same_server_lookup s1 s2 r :
  same_but_answers_server s1 s2 ->
  match heap s1 !! r, heap s2 !! r with
  | Some g1, Some g2 => same_but_answers g1 g2
  | None, None => True
  | _, _ => False
  end.
Proof.
  intros (_ & _ & Hh).
  destruct (heap s1 !! r) as [g1|] eqn:E1.
  - destruct (Forall2_lookup_l _ _ _ _ _ Hh E1) as (g2 & -> & HR). done.
  - destruct (heap s2 !! r) as [g2|] eqn:E2; [|done].
    destruct (Forall2_lookup_r _ _ _ _ _ Hh E2) as (g1 & E & _). congruence.
Qed.

Lemma find_game_same s1 s2 code :
  same_but_answers_server s1 s2 ->
  match find_game s1 code, find_game s2 code with
  | Some (r1, g1), Some (r2, g2) => r1 = r2 /\ same_but_answers g1 g2
  | None, None => True
  | _, _ => False
  end.
Proof.
  intros Hs. unfold find_game. destruct code; try done.
  destruct Hs as (Eg & Et & Hh). rewrite <- Eg.
  destruct (JsMap.get s (games s1)) as [r|]; [|done].
  pose proof (same_server_lookup s1 s2 r (conj Eg (conj Et Hh))) as Hr.
  by destruct (heap s1 !! r), (heap s2 !! r).
Qed.

Lemma put_game_same_server s1 s2 r g1 g2 :
  same_but_answers_server s1 s2 -> same_but_answers g1 g2 ->
  same_but_answers_server (put_game r g1 s1) (put_game r g2 s2).
Proof.
  intros (Eg & Et & Hh) Hg. split; [done|]. split; [done|]. simpl.
  by apply Forall2_insert.
Qed.

Lemma arm_same_server s1 s2 tm :
  same_but_answers_server s1 s2 ->
  same_but_answers_server (arm tm s1) (arm tm s2).
Proof.
  intros (Eg & Et & Hh). split; [done|]. split; [|done]. simpl. by rewrite Et.
Qed.

Lemma first_hosted_same sid hp1 hp2 gs :
  Forall2 same_but_answers hp1 hp2 ->
  first_hosted sid hp1 gs = first_hosted sid hp2 gs.
Proof.
  intros Hh. induction gs as [|[c r] gs IH]; simpl; [done|].
  destruct (hp1 !! r) as [g1|] eqn:E1.
  - destruct (Forall2_lookup_l _ _ _ _ _ Hh E1) as (g2 & -> & HR).
    destruct HR as (_ & -> & _). by rewrite IH.
  - destruct (hp2 !! r) as [g2|] eqn:E2; [|done].
    destruct (Forall2_lookup_r _ _ _ _ _ Hh E2) as (g1 & E & _). congruence.
Qed.

Lemma first_joined_same sid hp1 hp2 gs :
  Forall2 same_but_answers hp1 hp2 ->
  match first_joined sid hp1 gs, first_joined sid hp2 gs with
  | Some (r1, g1), Some (r2, g2) => r1 = r2 /\ same_but_answers g1 g2
  | None, None => True
  | _, _ => False
  end.
Proof.
  intros Hh. induction gs as [|[c r] gs IH]; simpl; [done|].
  destruct (hp1 !! r) as [g1|] eqn:E1.
  - destruct (Forall2_lookup_l _ _ _ _ _ Hh E1) as (g2 & -> & HR).
    pose proof HR as (_ & _ & Ep & _). rewrite <- Ep.
    by destruct (JsMap.has sid (Game.players g1)).
  - destruct (hp2 !! r) as [g2|] eqn:E2; [|done].
    destruct (Forall2_lookup_r _ _ _ _ _ Hh E2) as (g1 & E & _). congruence.
Qed.

Lemma ensureUniqueName_players g1 g2 name :
  Game.players g1 = Game.players g2 ->
  ensureUniqueName g1 name = ensureUniqueName g2 name.
Proof. intros E. unfold ensureUniqueName, lower_names. by rewrite E. Qed.

Lemma broadcastLobby_same g1 g2 :
  same_but_answers g1 g2 -> broadcastLobby g1 = broadcastLobby g2.
Proof.
  intros (Ec & Eh & Ep & _).
  unfold broadcastLobby, lobby_view, currentPlayersArray. by rewrite Ec, Eh, Ep.
Qed.

Opaque startQuestion endGame ensureUniqueName broadcastLobby.

(** X22.  Before a reveal nothing that the process tells depends on which
    option is correct.  Take two process states that differ in nothing but the
    correct indices of the questions of their games, and any input that is not
    a timeout: the handler throws in both or in neither, it emits the same
    events in both, and the two states after it again differ in nothing but
    correct indices. *)
Theorem nothing_before_the_reveal_tells_the_answer
    (s1 s2 : server) (i : input) :
  same_but_answers_server s1 s2 ->
  (forall k, i <> Timeout k) ->
  same_to_the_outside (step s1 i) (step s2 i).
Proof.
  intros Hs Hi. unfold same_to_the_outside.
  destruct i as [sock pin|sock payload now|sock payload now|sock payload
                 |sock payload|sock payload now1 now2|sock payload|sock|k];
    simpl.
  - unfold host_createGame. destruct (isHost sock); simpl; [|done].
    destruct Hs as (Eg & Et & Hh).
    rewrite (Forall2_length _ _ _ Hh), Eg, Et.
    split; [done|]. split; [done|]. split; [done|]. simpl.
    apply Forall2_app; [done|]. constructor; [|constructor].
    apply same_but_answers_refl.
  - unfold host_startGame.
    destruct (get_prop payload "code") as [code|]; [|done].
    cbn -[find_game].
    destruct (get_prop payload "questions") as [qv|]; [|done].
    cbn -[find_game].
    destruct (isHost sock); cbn -[find_game]; [|done].
    pose proof (find_game_same s1 s2 code Hs) as Hf.
    destruct (find_game s1 code) as [[r g1]|], (find_game s2 code) as [[r2 g2]|];
      try done.
    destruct Hf as [<- Hg]. pose proof Hg as (Ec & Eh & Ep & Es & Ei & Et & Ea & Eq).
    rewrite <- Eh.
    destruct (String.eqb (Game.hostId g1) (sock_id sock)); cbn -[find_game];
      [|done].
    destruct (mapM sanitizeQuestion _) as [qs|]; [|done].
    cbn -[find_game].
    destruct (List.length qs =? 0)%nat.
    { split; [done|]. apply put_game_same_server; [done|]. by repeat split. }
    pose proof (startQuestion_same r
                  (Game.set_currentIndex 0 (Game.set_state question
                     (Game.set_questions qs g1)))
                  (Game.set_currentIndex 0 (Game.set_state question
                     (Game.set_questions qs g2))) now) as Hst.
    destruct (startQuestion r _ now) as [[[g1' o1] t1]|],
             (startQuestion r _ now) as [[[g2' o2] t2]|];
      try (by apply Hst; repeat split).
    destruct Hst as (-> & -> & Hg'); [by repeat split|].
    cbn -[find_game]. split; [done|].
    by apply arm_same_server, put_game_same_server.
  - unfold host_next.
    destruct (get_prop payload "code") as [code|]; [|done].
    cbn -[find_game].
    destruct (isHost sock); cbn -[find_game]; [|done].
    pose proof (find_game_same s1 s2 code Hs) as Hf.
    destruct (find_game s1 code) as [[r g1]|], (find_game s2 code) as [[r2 g2]|];
      try done.
    destruct Hf as [<- Hg]. pose proof Hg as (Ec & Eh & Ep & Es & Ei & Et & Ea & Eq).
    rewrite <- Eh, <- Es, <- Ei, <- (same_but_answers_length g1 g2 Hg).
    destruct (String.eqb (Game.hostId g1) (sock_id sock)); cbn -[find_game];
      [|done].
    destruct (bool_decide (Game.state g1 = question)); [done|].
    destruct (List.length (Game.questions g1) <=? Game.currentIndex g1 + 1)%nat.
    { destruct (endGame_same g1 g2 Hg) as [Eo Hg'].
      destruct (endGame g1) as [g1' o1], (endGame g2) as [g2' o2].
      simpl in *. subst o2. split; [done|]. by apply put_game_same_server. }
    pose proof (startQuestion_same r
                  (Game.set_currentIndex (Game.currentIndex g1 + 1) g1)
                  (Game.set_currentIndex (Game.currentIndex g1 + 1) g2) now) as Hst.
    destruct (startQuestion r _ now) as [[[g1' o1] t1]|],
             (startQuestion r _ now) as [[[g2' o2] t2]|];
      try (by apply Hst; repeat split).
    destruct Hst as (-> & -> & Hg'); [by repeat split|].
    cbn -[find_game]. split; [done|].
    by apply arm_same_server, put_game_same_server.
  - unfold host_end.
    destruct (get_prop payload "code") as [code|]; [|done].
    cbn -[find_game].
    destruct (isHost sock); cbn -[find_game]; [|done].
    pose proof (find_game_same s1 s2 code Hs) as Hf.
    destruct (find_game s1 code) as [[r g1]|], (find_game s2 code) as [[r2 g2]|];
      try done.
    destruct Hf as [<- Hg]. pose proof Hg as (Ec & Eh & _).
    rewrite <- Eh.
    destruct (String.eqb (Game.hostId g1) (sock_id sock)); cbn -[find_game];
      [|done].
    destruct (endGame_same g1 g2 Hg) as [Eo Hg'].
    destruct (endGame g1) as [g1' o1], (endGame g2) as [g2' o2].
    simpl in *. subst o2. split; [done|]. by apply put_game_same_server.
  - unfold player_join.
    destruct (get_prop payload "code") as [code|]; [|done].
    cbn -[find_game].
    destruct (get_prop payload "name") as [name|]; [|done].
    cbn -[find_game].
    pose proof (find_game_same s1 s2 code Hs) as Hf.
    destruct (find_game s1 code) as [[r g1]|], (find_game s2 code) as [[r2 g2]|];
      try done.
    destruct Hf as [<- Hg]. pose proof Hg as (Ec & Eh & Ep & Es & Ei & Et & Ea & Eq).
    rewrite <- Es.
    destruct (bool_decide (Game.state g1 = lobby)); cbn -[find_game]; [|done].
    rewrite <- (ensureUniqueName_players g1 g2 name Ep), <- Ep.
    assert (Hg' : same_but_answers
              (Game.set_players
                 (JsMap.set (sock_id sock)
                    (Player.mk (sock_id sock) (ensureUniqueName g1 name) (Fin 0)
                               false None None) (Game.players g1)) g1)
              (Game.set_players
                 (JsMap.set (sock_id sock)
                    (Player.mk (sock_id sock) (ensureUniqueName g1 name) (Fin 0)
                               false None None) (Game.players g1)) g2))
      by (by repeat split).
    rewrite (broadcastLobby_same _ _ Hg').
    split; [done|]. by apply put_game_same_server.
  - unfold player_answer.
    destruct (get_prop payload "code") as [code|]; [|done].
    cbn -[find_game].
    destruct (get_prop payload "index") as [index|]; [|done].
    cbn -[find_game].
    pose proof (find_game_same s1 s2 code Hs) as Hf.
    destruct (find_game s1 code) as [[r g1]|], (find_game s2 code) as [[r2 g2]|];
      try done.
    destruct Hf as [<- Hg]. pose proof Hg as (Ec & Eh & Ep & Es & Ei & Et & Ea & Eq).
    rewrite <- Ep, <- Es, <- Ei, <- Et, <- Ea, <- Eh.
    destruct (JsMap.get (sock_id sock) (Game.players g1)) as [p|]; [|done].
    destruct (bool_decide (Game.state g1 = question)); cbn -[find_game]; [|done].
    pose proof (same_but_answers_lookup g1 g2 (Game.currentIndex g1) Hg) as Hq.
    destruct (Game.questions g1 !! Game.currentIndex g1) as [q1|],
             (Game.questions g2 !! Game.currentIndex g1) as [q2|]; try done.
    injection Hq as _ _ Etl. cbn -[find_game JsNum.gtb]. rewrite <- Etl.
    destruct (JsNum.gtb _ _); [done|].
    destruct (Player.answered p); [done|].
    destruct (answer_index index) as [idx|]; cbn -[find_game]; [|done].
    split; [done|]. apply put_game_same_server; [done|]. by repeat split.
  - unfold host_join.
    destruct (get_prop payload "code") as [code|]; [|done].
    cbn -[find_game].
    destruct (isHost sock); cbn -[find_game]; [|done].
    pose proof (find_game_same s1 s2 code Hs) as Hf.
    destruct (find_game s1 code) as [[r g1]|], (find_game s2 code) as [[r2 g2]|];
      try done.
    destruct Hf as [<- Hg]. pose proof Hg as (Ec & Eh & _).
    rewrite <- Eh.
    destruct (String.eqb (Game.hostId g1) (sock_id sock)); cbn -[find_game];
      [|done].
    by rewrite (broadcastLobby_same _ _ Hg).
  - unfold disconnect. pose proof Hs as (Eg & Et & Hh).
    rewrite <- Eg, <- (first_hosted_same (sock_id sock) _ _ (games s1) Hh).
    destruct (first_hosted _ _ _) as [code|].
    { split; [done|]. split; [done|]. split; done. }
    pose proof (first_joined_same (sock_id sock) _ _ (games s1) Hh) as Hj.
    destruct (first_joined _ (heap s1) _) as [[r g1]|],
             (first_joined _ (heap s2) _) as [[r2 g2]|]; try done.
    destruct Hj as [<- Hg]. pose proof Hg as (Ec & Eh & Ep & Es & Ei & Et' & Ea & Eq).
    rewrite <- Ep.
    assert (Hg' : same_but_answers
              (Game.set_players (JsMap.delete (sock_id sock) (Game.players g1)) g1)
              (Game.set_players (JsMap.delete (sock_id sock) (Game.players g1)) g2))
      by (by repeat split).
    rewrite (broadcastLobby_same _ _ Hg').
    split; [done|]. by apply put_game_same_server.
  - by specialize (Hi k).
Qed.

Transparent startQuestion endGame ensureUniqueName broadcastLobby.

(** The events of [startQuestion] show of the question what [safeQuestion]
    keeps of it: two games with the same players, codes and counters whose
    questions look the same through [safeQuestion] are shown the same
    question and arm the same timeout. *)
Lemma startQuestion_shows_safeQuestion r g1 g2 now g1' o1 t1 :
  same_but_answers g1 g2 ->
  startQuestion r g1 now = Some (g1', o1, t1) ->
  exists g2', startQuestion r g2 now = Some (g2', o1, t1).
Proof.
  intros Hg Hs1. pose proof (startQuestion_same r g1 g2 now Hg) as Hst.
  rewrite Hs1 in Hst.
  destruct (startQuestion r g2 now) as [[[g2' o2] t2]|]; [|done].
  destruct Hst as (-> & -> & _). by exists g2'.
Qed.

End Secrecy.

(* ===================================================================== *)
(** ** Further facts about names, questions and points *)
(* ===================================================================== *)

Section Further.
Context `{Builtins}.

Open Scope string_scope.

(** X23.  The loop of [ensureUniqueName] ends: with [n] players it tests at
    most [n + 1] names, so the name it returns is the sanitized name or that
    name with a suffix from [#2] to [#(n + 1)], and running the loop for
    longer gives the same name. *)
Theorem unique_name_loop_ends (g : Game.t) (desired : jsval) :
  exists m,
    m <= JsMap.size (Game.players g)
    /\ ensureUniqueName g desired = candidate (sanitizeName desired) m
    /\ forall extra,
         unique_loop (lower_names g) (sanitizeName desired) (sanitizeName desired) 2
                     (S (List.length (lower_names g)) + extra)
         = ensureUniqueName g desired.
Proof.
  destruct (candidate_first_free (lower_names g) (sanitizeName desired))
    as (m & Hm & Hfree & Htaken).
  exists m. split; [|split].
  - unfold lower_names, JsMap.values, JsMap.size in *.
    by rewrite !List.length_map in Hm.
  - unfold ensureUniqueName.
    apply (unique_loop_first _ _ m Hfree Htaken _ 0); lia.
  - intros extra. unfold ensureUniqueName. apply unique_loop_fuel.
Qed.

(** X24.  An advance sent by the host while the game is still in the lobby
    ends the game: the lobby has no question, so the advance is past the last
    one.  The final leaderboard goes out and no question is ever shown. *)
Theorem advance_in_the_lobby_ends_the_game
    (s : server) (sock : socket) (payload code : jsval) (now : Z)
    (r : nat) (g : Game.t) :
  reachable s ->
  get_prop payload "code" = Some code ->
  find_game s code = Some (r, g) -> owner sock g ->
  Game.state g = lobby ->
  step s (HostNext sock payload now)
  = Some (put_game r (Game.set_state ended g) s,
          [io_to (Game.code g) (game_over (firstn 20 (rankPlayers g)));
           io_to (Game.hostId g) (host_game_over (firstn 20 (rankPlayers g)))]).
Proof.
  intros Hs Hc Hf Ho Hst.
  destruct (reachable_game_wf s r g Hs (find_game_heap _ _ _ _ Hf))
    as (_ & _ & _ & _ & Hlobby).
  assert (Hnq : Game.state g <> question) by congruence.
  destruct (host_next_acts s sock payload now code r g Hc Hf Ho Hnq) as [_ Hend].
  rewrite Hend; [done|]. rewrite (Hlobby Hst). simpl. lia.
Qed.

Lemma sanitizeQuestion_bounded v q :
  sanitizeQuestion v = Some q -> bounded_question q.
Proof.
  intros Hs. pose proof (sanitizeQuestion_wf v q Hs) as [Hc Ht].
  pose proof (sanitizeQuestion_options v q Hs) as Hn.
  apply sanitizeQuestion_Some in Hs
    as (? & o & ? & ? & p & os & c & t & _ & _ & _ & Hos & _ & _ & _ & _ & ->).
  split; [|split; [done|split; [|done]]].
  - simpl. apply substring_length_le.
  - simpl. destruct o as [| | | | |l|];
      try (injection Hos as <-; repeat constructor; simpl; lia).
    apply mapM_Some in Hos. apply Forall_forall. intros z Hz.
    apply list_elem_of_lookup in Hz as [i Hz].
    destruct (Forall2_lookup_r _ _ _ _ _ Hos Hz) as (y & _ & Hy).
    destruct (ToString y) as [sy|]; [|done]. injection Hy as <-.
    apply substring_length_le.
Qed.

Lemma effect_bounded g i g' :
  effect g i g' -> Forall bounded_question (Game.questions g) ->
  Forall bounded_question (Game.questions g').
Proof.
  intros He Hb.
  destruct He as [i| | sock payload now l qs r g' out tm Ho Hl Hm Hne Hs
                  | | sock payload now r g' out tm Ho Hst Hlt Hs
                  | | sock payload name Hst Hn
                  | sock payload now1 now2 index idx player q Hst Hi Hidx Hp Ha Hq Hlate
                  | sock | k g' out Hst Hrev]; try done.
  - apply startQuestion_game in Hs as (-> & _). simpl.
    clear -Hm. apply mapM_Some in Hm.
    induction Hm; constructor; eauto using sanitizeQuestion_bounded.
  - by apply startQuestion_game in Hs as (-> & _).
  - by apply revealAnswer_game in Hrev as (q & _ & ->).
Qed.

(** X25.  Every question a game holds in a reachable state is within the
    bounds of [host:startGame], whatever the hosts sent: a prompt of at most
    300 characters, at most four options of at most 120 characters each, a
    correct index within [[0, 3]] and a time limit within [[5, 120]]. *)
Theorem stored_questions_are_bounded (s : server) (r : nat) (g : Game.t) :
  reachable s -> heap s !! r = Some g ->
  Forall bounded_question (Game.questions g).
Proof.
  intros Hs. revert r g.
  induction Hs as [|s i s' out Hs IH Hstep]; intros r g Hr.
  - simpl in Hr. by rewrite lookup_nil in Hr.
  - destruct (step_origin _ _ _ _ _ _ Hstep Hr)
      as [(g0 & Hr0 & He)|(sock & pin & _ & ->)].
    + eapply effect_bounded; [exact He | by eapply IH].
    + constructor.
Qed.

Lemma geb_fin a b x y :
  is_fin a x -> is_fin b y -> (y <= x)%Q -> JsNum.geb a b = true.
Proof.
  intros (x' & -> & Ex) (y' & -> & Ey) Hle.
  change (JsNum.geb (Fin x') (Fin y')) with (negb (JsNum.ltb (Fin x') (Fin y'))).
  rewrite negb_true_iff, ltb_Fin_false. lra.
Qed.

(** X26.  Of two correct answers to a question, the one locked sooner never
    gets fewer points: for two players with the same score before the reveal,
    the score after it of the one who answered first is at least that of the
    other. *)
Theorem sooner_answer_never_scores_less
    (q : Question.t) (start : option Z) (p1 p2 : Player.t) (t1 t2 : Z) :
  wf_question q ->
  recorded_correct q p1 = true -> recorded_correct q p2 = true ->
  finite (Player.score p1) -> Player.score p2 = Player.score p1 ->
  Player.answerTime p1 = Some t1 -> Player.answerTime p2 = Some t2 ->
  (t1 <= t2)%Z ->
  JsNum.geb (Player.score (score_player q start p1))
            (Player.score (score_player q start p2)) = true.
Proof.
  intros [_ (t & Ht & Hlo & Hhi)] Hc1 Hc2 Hfin Esc Ht1 Ht2 Hle.
  destruct (finite_is_fin _ Hfin) as [sc Hsc].
  assert (Hsc2 : is_fin (Player.score p2) sc) by (by rewrite Esc).
  assert (Hpos : (0 < t)%Q) by lra.
  pose proof (score_player_correct q start p1 t sc Hc1) as H1.
  pose proof (score_player_correct q start p2 t sc Hc2) as H2.
  rewrite Ht in H1, H2.
  specialize (H1 (is_fin_Fin t) Hpos Hsc).
  specialize (H2 (is_fin_Fin t) Hpos Hsc2).
  rewrite Ht1 in H1. rewrite Ht2 in H2.
  change (default 0%Z (Some t1)) with t1 in H1.
  change (default 0%Z (Some t2)) with t2 in H2.
  eapply geb_fin; [exact H1 | exact H2 |].
  set (t0 := inject_Z (default 0%Z start)).
  assert (Hel : (Qmax 0 ((inject_Z t1 - t0) / 1000)
                 <= Qmax 0 ((inject_Z t2 - t0) / 1000))%Q).
  { apply Q.max_le_compat_l.
    apply Qmult_le_compat_r; [|done].
    assert (inject_Z t1 <= inject_Z t2)%Q by (by rewrite <- Zle_Qle). lra. }
  assert (Hrem : (Qmax 0 (t - Qmax 0 ((inject_Z t2 - t0) / 1000))
                  <= Qmax 0 (t - Qmax 0 ((inject_Z t1 - t0) / 1000)))%Q).
  { apply Q.max_le_compat_l. lra. }
  assert (Hfrac : (Qmax 0 (t - Qmax 0 ((inject_Z t2 - t0) / 1000)) / t
                   <= Qmax 0 (t - Qmax 0 ((inject_Z t1 - t0) / 1000)) / t)%Q).
  { apply Qmult_le_compat_r; [done|]. apply Qinv_le_0_compat. lra. }
  assert (Hfl : (Qfloor (1000 * (Qmax 0 (t - Qmax 0 ((inject_Z t2 - t0) / 1000)) / t)
                         + (1 # 2))
                 <= Qfloor (1000 * (Qmax 0 (t - Qmax 0 ((inject_Z t1 - t0) / 1000)) / t)
                            + (1 # 2)))%Z).
  { apply Qfloor_resp_le. lra. }
  rewrite Zle_Qle in Hfl. lra.
Qed.

End Further.

(* ===================================================================== *)
(** ** The further properties on concrete runs *)
(* ===================================================================== *)

Lemma reachable_revealed_server : reachable Scene.revealed_server.
Proof. apply (reachable_state_after Scene.revealed). vm_compute. by eexists. Qed.

Lemma reachable_question_server_b : reachable Scene.question_server_b.
Proof. apply (reachable_state_after Scene.opening_b). vm_compute. by eexists. Qed.

Lemma sanitizeName_keeps_clean_names_witness :
  clean_name "Sam Lee" = true /\ sanitizeName (VStr "Sam Lee") = "Sam Lee"%string.
Proof.
  split; [reflexivity|].
  apply (sanitizeName_keeps_clean_names "Sam Lee"). reflexivity.
Defined.

Lemma sanitizeName_ignores_outer_space_witness :
  all_space "  " = true /\ all_space " " = true
  /\ sanitizeName (VStr ("  " ++ "Sam" ++ " "))%string = sanitizeName (VStr "Sam").
Proof.
  split; [reflexivity|]. split; [reflexivity|].
  apply (sanitizeName_ignores_outer_space "  " "Sam" " "); reflexivity.
Defined.

Example sanitized_names :
  sanitizeName (VStr "   ") = "Player"%string
  /\ sanitizeName VUndefined = "Player"%string
  /\ sanitizeName (VNum (Fin 7)) = "Player"%string
  /\ sanitizeName (VStr "  Ann   Marie  ") = "Ann Marie"%string
  /\ sanitizeName (VStr "abcdefghijklmnopqrstuvw xyz")
     = "abcdefghijklmnopqrstuvw "%string.
Proof. vm_compute. done. Qed.

Lemma scores_are_whole_and_never_drop_witness :
  reachable Demo.answered_server
  /\ step Demo.answered_server (Timeout 0)
     = Some (Scene.revealed_server, Scene.revealed_out)
  /\ JsMap.get "sock-a" (Game.players Demo.answered_game) = Some Demo.sam_answered
  /\ JsMap.get "sock-a" (Game.players Scene.revealed_game) = Some Scene.sam_scored
  /\ exists z d : Z,
       (0 <= z)%Z /\ score_is z Demo.sam_answered
       /\ score_is (z + d) Scene.sam_scored
       /\ (d = 0%Z \/ ((500 <= d <= 1500)%Z /\ exists k, Timeout 0 = Timeout k)).
Proof.
  split; [exact reachable_answered_server|].
  split; [reflexivity|]. split; [reflexivity|]. split; [reflexivity|].
  apply (scores_are_whole_and_never_drop
           Demo.answered_server (Timeout 0) Scene.revealed_server Scene.revealed_out
           0 Demo.answered_game Scene.revealed_game "sock-a"
           Demo.sam_answered Scene.sam_scored reachable_answered_server);
    reflexivity.
Defined.

Lemma rosters_hold_one_record_per_socket_witness :
  reachable Demo.answered_server
  /\ heap Demo.answered_server !! 0 = Some Demo.answered_game
  /\ NoDup (JsMap.keys (Game.players Demo.answered_game))
  /\ answered_count Demo.answered_game <= Game.answersSubmitted Demo.answered_game.
Proof.
  split; [exact reachable_answered_server|]. split; [reflexivity|].
  destruct (rosters_hold_one_record_per_socket
              Demo.answered_server 0 Demo.answered_game
              reachable_answered_server eq_refl) as (Hnd & _ & _ & Hcount).
  split; [exact Hnd | exact Hcount].
Defined.

Lemma started_game_admits_no_player_witness :
  run Demo.question_server [PlayerJoin Demo.sam2 (Demo.join_as "Max")]
  = Some (Demo.question_server,
          [socket_emit "sock-b" (player_error "Game already started.")])
  /\ heap Demo.question_server !! 0 = Some Demo.question_game
  /\ Game.state Demo.question_game <> lobby
  /\ exists g', heap Demo.question_server !! 0 = Some g'
       /\ Game.state g' <> lobby
       /\ sublist (JsMap.keys (Game.players g'))
                  (JsMap.keys (Game.players Demo.question_game)).
Proof.
  split; [reflexivity|]. split; [reflexivity|]. split; [discriminate|].
  apply (started_game_admits_no_player
           [PlayerJoin Demo.sam2 (Demo.join_as "Max")]
           Demo.question_server Demo.question_server
           [socket_emit "sock-b" (player_error "Game already started.")]
           0 Demo.question_game); [reflexivity | reflexivity | discriminate].
Defined.

Lemma game_keeps_code_and_host_witness :
  reachable Demo.answered_server
  /\ run Demo.answered_server [Timeout 0]
     = Some (Scene.revealed_server, Scene.revealed_out)
  /\ heap Demo.answered_server !! 0 = Some Demo.answered_game
  /\ exists g', heap Scene.revealed_server !! 0 = Some g'
       /\ Game.code g' = Game.code Demo.answered_game
       /\ Game.hostId g' = Game.hostId Demo.answered_game.
Proof.
  split; [exact reachable_answered_server|].
  split; [reflexivity|]. split; [reflexivity|].
  destruct (game_keeps_code_and_host
              Demo.answered_server [Timeout 0] Scene.revealed_server
              Scene.revealed_out 0 Demo.answered_game
              reachable_answered_server eq_refl eq_refl) as [Hkeep _].
  exact Hkeep.
Defined.

Lemma host_events_need_the_host_flag_witness :
  isHost Demo.sam = false /\ ~ nullish Demo.with_code
  /\ step Demo.lobby_server (HostEnd Demo.sam Demo.with_code)
     = Some (Demo.lobby_server, [not_authorized Demo.sam]).
Proof.
  split; [reflexivity|]. split; [intros [E|E]; discriminate E|].
  destruct (host_events_need_the_host_flag
              Demo.lobby_server Demo.sam Demo.with_code Demo.pin 0 eq_refl)
    as (_ & _ & _ & Hend & _); [intros [E|E]; discriminate E|].
  exact Hend.
Defined.



Lemma foreign_host_is_ignored_witness :
  isHost Demo.host2 = true
  /\ get_prop Demo.with_code "code" = Some (VStr Demo.pin)
  /\ step Demo.question_server (HostEnd Demo.host2 Demo.with_code)
     = Some (Demo.question_server, []).
Proof.
  split; [reflexivity|]. split; [reflexivity|].
  destruct (foreign_host_is_ignored
              Demo.question_server Demo.host2 Demo.with_code (VStr Demo.pin) 0
              eq_refl eq_refl) as (_ & _ & Hend & _).
  - intros r g [= <- <-]. discriminate.
  - exact Hend.
Defined.

Lemma join_is_refused_outside_the_lobby_witness :
  get_prop (Demo.join_as "Max") "code" = Some (VStr Demo.pin)
  /\ get_prop (Demo.join_as "Max") "name" = Some (VStr "Max")
  /\ find_game Demo.question_server (VStr Demo.pin) = Some (0, Demo.question_game)
  /\ Game.state Demo.question_game <> lobby
  /\ step Demo.question_server (PlayerJoin Demo.sam2 (Demo.join_as "Max"))
     = Some (Demo.question_server,
             [socket_emit (sock_id Demo.sam2) (player_error "Game already started.")]).
Proof.
  split; [reflexivity|]. split; [reflexivity|]. split; [reflexivity|].
  split; [discriminate|].
  destruct (join_is_refused_outside_the_lobby
              Demo.question_server Demo.sam2 (Demo.join_as "Max")
              (VStr Demo.pin) (VStr "Max") eq_refl eq_refl) as (_ & _ & Hstarted).
  apply (Hstarted 0 Demo.question_game); [reflexivity | discriminate].
Defined.

Lemma host_disconnect_drops_one_game_witness :
  reachable Demo.question_server
  /\ getGameByHost Demo.question_server (sock_id Demo.host) = Some Demo.question_game
  /\ exists s',
       step Demo.question_server (Disconnect Demo.host)
       = Some (s', [io_to Demo.pin game_hostDisconnected])
       /\ games s' = []
       /\ find_game s' (VStr Demo.pin) = None.
Proof.
  split; [exact reachable_question_server|]. split; [reflexivity|].
  destruct (host_disconnect_drops_one_game
              Demo.question_server Demo.host Demo.question_game
              reachable_question_server eq_refl)
    as (s' & Hstep & Hgames & _ & _ & _ & Hgone & _).
  exists s'. split; [exact Hstep|]. split; [exact Hgames | exact Hgone].
Defined.



Lemma join_announces_the_roster_witness :
  reachable Demo.lobby_server
  /\ find_game Demo.lobby_server (VStr Demo.pin) = Some (0, Demo.lobby_game)
  /\ Game.state Demo.lobby_game = lobby
  /\ exists g' p,
       step Demo.lobby_server (PlayerJoin Demo.sam2 (Demo.join_as "Max"))
       = Some (put_game 0 g' Demo.lobby_server,
               [socket_join "sock-b" Demo.pin;
                socket_emit "sock-b" (player_joined Demo.pin (Player.name p));
                io_to Demo.pin (lobby_update (lobby_view g'));
                io_to "host-1" (host_lobby_update (lobby_view g'))])
       /\ JsMap.get "sock-b" (Game.players g') = Some p
       /\ lp_count (lobby_view g') = List.length (lp_players (lobby_view g')).
Proof.
  split; [exact reachable_lobby_server|]. split; [reflexivity|].
  split; [reflexivity|].
  destruct (join_announces_the_roster
              Demo.lobby_server Demo.sam2 (Demo.join_as "Max")
              (VStr Demo.pin) (VStr "Max") 0 Demo.lobby_game
              reachable_lobby_server eq_refl eq_refl eq_refl eq_refl)
    as (g' & p & _ & Hstep & Hget & _ & _ & Hcount & _); [discriminate|].
  exists g', p. split; [exact Hstep|]. split; [exact Hget | exact Hcount].
Defined.

Lemma orphaned_game_still_reveals_witness :
  reachable Demo.question_server
  /\ getGameByHost Demo.question_server (sock_id Demo.host) = Some Demo.question_game
  /\ timers Demo.question_server !! 0 = Some Demo.first_timer
  /\ exists s1 o1 s2 g2 p rest,
       step Demo.question_server (Disconnect Demo.host) = Some (s1, o1)
       /\ find_game s1 (VStr Demo.pin) = None
       /\ step s1 (Timeout 0) = Some (s2, io_to Demo.pin (question_reveal p) :: rest)
       /\ heap s2 !! 0 = Some g2
       /\ Game.state g2 = reveal.
Proof.
  split; [exact reachable_question_server|]. split; [reflexivity|].
  split; [reflexivity|].
  destruct (orphaned_game_still_reveals
              Demo.question_server Demo.host 0 0 Demo.question_game
              Demo.first_timer Demo.first_question
              reachable_question_server eq_refl eq_refl eq_refl eq_refl
              eq_refl eq_refl eq_refl)
    as (s1 & o1 & s2 & g2 & p & rest & H1 & H2 & H3 & H4 & H5 & _).
  exists s1, o1, s2, g2, p, rest. repeat split; assumption.
Defined.

Lemma init_server_has_current :
  forall r g, heap init_server !! r = Some g -> has_current g.
Proof. intros r g Hr. simpl in Hr. by rewrite lookup_nil in Hr. Qed.

Lemma revealed_is_orderly : Forall orderly Scene.revealed.
Proof.
  repeat constructor.
  - intros [E|E]; discriminate E.
  - eexists. split; [reflexivity|]. split; [discriminate|].
    repeat constructor; intros [E|E]; discriminate E.
  - intros [E|E]; discriminate E.
Qed.

Lemma orderly_runs_never_throw_witness :
  Forall orderly Scene.revealed
  /\ exists s' out,
       run init_server Scene.revealed = Some (s', out)
       /\ forall r g, heap s' !! r = Some g -> has_current g.
Proof.
  split; [exact revealed_is_orderly|].
  apply (orderly_runs_never_throw Scene.revealed init_server
           init_server_has_current revealed_is_orderly).
Defined.

(** Outside the orderly inputs: an answer whose index is an object with a
    [toString] of its own makes the handler throw. *)
Example unprintable_index_is_not_orderly :
  ~ orderly (PlayerAnswer Demo.sam (Demo.answer_with Demo.unprintable) 3000 3000)
  /\ run init_server
       (Demo.opening
        ++ [PlayerAnswer Demo.sam (Demo.answer_with Demo.unprintable) 3000 3000])%list
     = None.
Proof. split; [by intros [_ E] | by vm_compute]. Qed.

Lemma empty_start_breaks_the_open_question_witness :
  find_game Demo.question_server (VStr Demo.pin) = Some (0, Demo.question_game)
  /\ owner Demo.host Demo.question_game
  /\ Game.state Demo.question_game = question
  /\ exists s1,
       step Demo.question_server (HostStartGame Demo.host (Demo.quiz []) 5000)
       = Some (s1, [])
       /\ step s1 (PlayerAnswer Demo.sam (Demo.answer (Fin 1)) 6000 6000) = None
       /\ step s1 (Timeout 0) = None.
Proof.
  split; [reflexivity|]. split; [split; reflexivity|]. split; [reflexivity|].
  destruct (empty_start_breaks_the_open_question
              Demo.question_server Demo.host (Demo.quiz []) (VStr Demo.pin)
              (VArr []) 5000 0 Demo.question_game eq_refl eq_refl)
    as (s1 & Hstep & _ & Hanswer & Htimeout);
    [discriminate | reflexivity | split; reflexivity | reflexivity |].
  exists s1. split; [exact Hstep|]. split.
  - apply (Hanswer Demo.sam (Demo.answer (Fin 1)) (VNum (Fin 1)) 6000%Z 6000%Z);
      [reflexivity | reflexivity | by eexists].
  - apply (Htimeout 0 Demo.first_timer); reflexivity.
Defined.



Lemma tied_game_finite :
  Forall (fun p => finite (Player.score p)) (JsMap.values (Game.players Demo.tied_game)).
Proof. repeat constructor; by eexists. Qed.

Lemma leaderboard_holds_the_top_witness :
  Forall (fun p => finite (Player.score p)) (JsMap.values (Game.players Demo.tied_game))
  /\ List.length (buildLeaderboard Demo.tied_game 2) = 2
  /\ forall e e', e ∈ buildLeaderboard Demo.tied_game 2 ->
       e' ∈ skipn 2 (rankPlayers Demo.tied_game) -> score_ge e e'.
Proof.
  split; [exact tied_game_finite|].
  destruct (leaderboard_holds_the_top Demo.tied_game 2 tied_game_finite)
    as (Hlen & _ & _ & Htop).
  split; [exact Hlen | exact Htop].
Defined.


Lemma question_servers_differ_in_answers_only :
  same_but_answers_server Demo.question_server Scene.question_server_b.
Proof.
  split; [reflexivity|]. split; [reflexivity|].
  repeat constructor.
Qed.

Lemma nothing_before_the_reveal_tells_the_answer_witness :
  same_but_answers_server Demo.question_server Scene.question_server_b
  /\ Demo.question_server <> Scene.question_server_b
  /\ outputs_of (step Demo.question_server
                   (PlayerAnswer Demo.sam (Demo.answer (Fin 1)) 3000 3000))
     = outputs_of (step Scene.question_server_b
                     (PlayerAnswer Demo.sam (Demo.answer (Fin 1)) 3000 3000))
  /\ same_to_the_outside
       (step Demo.question_server
          (PlayerAnswer Demo.sam (Demo.answer (Fin 1)) 3000 3000))
       (step Scene.question_server_b
          (PlayerAnswer Demo.sam (Demo.answer (Fin 1)) 3000 3000)).
Proof.
  split; [exact question_servers_differ_in_answers_only|].
  split; [discriminate|]. split; [reflexivity|].
  apply (nothing_before_the_reveal_tells_the_answer
           Demo.question_server Scene.question_server_b
           (PlayerAnswer Demo.sam (Demo.answer (Fin 1)) 3000 3000)
           question_servers_differ_in_answers_only).
  discriminate.
Defined.

Lemma advance_in_the_lobby_ends_the_game_witness :
  reachable Demo.lobby_server
  /\ find_game Demo.lobby_server (VStr Demo.pin) = Some (0, Demo.lobby_game)
  /\ owner Demo.host Demo.lobby_game
  /\ Game.state Demo.lobby_game = lobby
  /\ step Demo.lobby_server (HostNext Demo.host Demo.with_code 500)
     = Some (put_game 0 (Game.set_state ended Demo.lobby_game) Demo.lobby_server,
             [io_to (Game.code Demo.lobby_game)
                (game_over (firstn 20 (rankPlayers Demo.lobby_game)));
              io_to (Game.hostId Demo.lobby_game)
                (host_game_over (firstn 20 (rankPlayers Demo.lobby_game)))]).
Proof.
  split; [exact reachable_lobby_server|]. split; [reflexivity|].
  split; [split; reflexivity|]. split; [reflexivity|].
  apply (advance_in_the_lobby_ends_the_game
           Demo.lobby_server Demo.host Demo.with_code (VStr Demo.pin) 500
           0 Demo.lobby_game reachable_lobby_server);
    [reflexivity | reflexivity | split; reflexivity | reflexivity].
Defined.

Lemma stored_questions_are_bounded_witness :
  reachable Demo.question_server
  /\ heap Demo.question_server !! 0 = Some Demo.question_game
  /\ Forall bounded_question (Game.questions Demo.question_game).
Proof.
  split; [exact reachable_question_server|]. split; [reflexivity|].
  apply (stored_questions_are_bounded Demo.question_server 0 Demo.question_game
           reachable_question_server).
  reflexivity.
Defined.

Lemma first_question_wf : wf_question Demo.first_question.
Proof. split; eexists; (split; [reflexivity|]); split; discriminate. Qed.

Lemma sooner_answer_never_scores_less_witness :
  wf_question Demo.first_question
  /\ recorded_correct Demo.first_question Scene.quick = true
  /\ recorded_correct Demo.first_question Scene.slow = true
  /\ (3000 <= 6000)%Z
  /\ Player.score (score_player Demo.first_question (Some 1000%Z) Scene.quick)
     = Fin 1400
  /\ Player.score (score_player Demo.first_question (Some 1000%Z) Scene.slow)
     = Fin 1250
  /\ JsNum.geb
       (Player.score (score_player Demo.first_question (Some 1000%Z) Scene.quick))
       (Player.score (score_player Demo.first_question (Some 1000%Z) Scene.slow))
     = true.
Proof.
  split; [exact first_question_wf|]. split; [reflexivity|]. split; [reflexivity|].
  split; [discriminate|]. split; [reflexivity|]. split; [reflexivity|].
  apply (sooner_answer_never_scores_less
           Demo.first_question (Some 1000%Z) Scene.quick Scene.slow 3000 6000
           first_question_wf);
    [reflexivity | reflexivity | by eexists | reflexivity | reflexivity
     | reflexivity | discriminate].
Defined.

Example tally_of_mixed_answers :
  tally [Player.mk "a" "A" (Fin 0) true (Some (Fin 1)) (Some 1%Z);
         Player.mk "b" "B" (Fin 0) true (Some (Fin (3 # 2))) (Some 2%Z);
         Player.mk "c" "C" (Fin 0) false None None;
         Player.mk "d" "D" (Fin 0) true (Some (Fin 1)) (Some 3%Z)]
  = Counts.mk [0; 2; 0; 0] [Fin (3 # 2)].
Proof. reflexivity. Qed.

Example suffix_within_the_roster_size :
  ensureUniqueName Scene.max_joined_game (VStr "sam") = "sam #2"%string
  /\ ensureUniqueName Scene.max_joined_game (VStr " MAX ") = "MAX #2"%string
  /\ ensureUniqueName Scene.max_joined_game (VStr "Ann") = "Ann"%string.
Proof. vm_compute. done. Qed.
